(** * gammapy.spectrum.fit: the fit-range / statistic pipeline of [SpectrumFit]

    A shallow embedding of [src/gammapy/spectrum/fit.py].  Energies are
    rationals (every finite float is one and the source only compares them),
    counts and statistic values are real numbers (the rounding of the float
    arithmetic is not modelled), numpy arrays are lists, Python exceptions are
    the [Raise] branch of an error monad, and the model objects live in a
    heap so that copies and aliases can be told apart. *)

From Stdlib Require Import ZArith QArith Qminmax Reals Lra Lia Ascii Sorted.
From Stdlib Require Lqa.
From stdpp Require Import base option list strings gmap.

Local Open Scope Z_scope.

(** ** Exceptions *)

Inductive exn : Type :=
| ValueError
| IndexError
| TypeError
| AttributeError
| NotImplementedError.

Inductive outcome (A : Type) : Type :=
| Ok (a : A)
| Raise (e : exn).
Arguments Ok {A} a.
Arguments Raise {A} e.

#[global] Instance outcome_ret : MRet outcome := λ A a, Ok a.
#[global] Instance outcome_bind : MBind outcome := λ A B f m,
  match m with
  | Ok a => f a
  | Raise e => Raise e
  end.

Definition is_Ok {A} (m : outcome A) : Prop := ∃ a, m = Ok a.

(** ** The numpy operations the source uses, on lists *)

Module np.

(** [np.zeros(n)]: a negative dimension is a [ValueError]. *)
Definition zeros (n : Z) : outcome (list Z) :=
  if n <? 0 then Raise ValueError else Ok (replicate (Z.to_nat n) 0).

(** [np.where(cond)[0]]: the indices at which [cond] holds, ascending. *)
Fixpoint where_from {A} (p : A → bool) (i : Z) (l : list A) : list Z :=
  match l with
  | [] => []
  | x :: l' =>
      if p x then i :: where_from p (i + 1) l' else where_from p (i + 1) l'
  end.
Definition where_ {A} (p : A → bool) (l : list A) : list Z := where_from p 0 l.

(** Index normalisation: [-n <= i < 0] counts from the end, anything
    outside [-n <= i < n] is an [IndexError]. *)
Definition norm_index (n : nat) (i : Z) : outcome nat :=
  if (0 <=? i) && (i <? Z.of_nat n) then Ok (Z.to_nat i)
  else if (- Z.of_nat n <=? i) && (i <? 0) then Ok (Z.to_nat (i + Z.of_nat n))
  else Raise IndexError.

(** [arr[i]] *)
Definition getitem {A} (arr : list A) (i : Z) : outcome A :=
  k ← norm_index (length arr) i;
  match arr !! k with
  | Some x => Ok x
  | None => Raise IndexError
  end.

(** [arr[idx] = v] for an integer index array [idx]. *)
Fixpoint setitems {A} (arr : list A) (idx : list Z) (v : A) : outcome (list A) :=
  match idx with
  | [] => Ok arr
  | i :: idx' =>
      k ← norm_index (length arr) i;
      setitems (<[k := v]> arr) idx' v
  end.

(** [np.insert(arr, 0, v)] *)
Definition insert0 {A} (arr : list A) (v : A) : list A := v :: arr.

(** [arr[:-1]] *)
Definition init {A} (arr : list A) : list A := take (length arr - 1)%nat arr.

(** Element-wise binary operation with the broadcasting of two arrays of
    one dimension: equal lengths, or one of them of length one; any other
    pair of shapes is a [ValueError]. *)
Definition broadcast2 {A B C} (f : A → B → C) (xs : list A) (ys : list B)
    : outcome (list C) :=
  if (length xs =? length ys)%nat then Ok (zip_with f xs ys)
  else match xs, ys with
       | [x], _ => Ok (map (f x) ys)
       | _, [y] => Ok (map (λ x, f x y) xs)
       | _, _ => Raise ValueError
       end.

(** Truth value of a number. *)
Definition truthy (z : Z) : bool := negb (z =? 0).

(** [np.logical_and(a, b)] *)
Definition logical_and (a b : list Z) : outcome (list bool) :=
  broadcast2 (λ x y, truthy x && truthy y) a b.

(** [1 - arr] *)
Definition one_minus (a : list Z) : list Z := map (λ x, 1 - x) a.

End np.

(** ** Observations *)

(** Strict comparison of two energies (given in one common unit). *)
Definition Qltb (x y : Q) : bool := negb (Qle_bool y x).

Section Fit.

(** The instrument response functions are opaque to this module. *)
Context {Aeff Edisp : Type}.

(** A counts spectrum: [data.data.value] and, when present, [quality]
    (1 = bad, 0 = good). *)
Record PHACountsSpectrum : Type := {
  data : list R;
  quality : option (list Z);
}.

Record SpectrumObservation : Type := {
  e_reco : list Q;          (* the [nbins + 1] ordered bin edges *)
  on_vector : PHACountsSpectrum;
  off_vector : PHACountsSpectrum;
  alpha : R;
  livetime : R;
  aeff : Aeff;
  edisp : Edisp;
}.

(** [energy.nbins] *)
Definition nbins (energy : list Q) : Z := Z.of_nat (length energy) - 1.

(** The block under [if self.fit_range is not None]: set [valid_range] to 1
    at the bins to leave out. *)
Definition mark_out_of_range (lo hi : Q) (energy : list Q) (valid_range : list Z)
    : outcome (list Z) :=
  let idx_lo := np.where_ (λ e, Qltb e lo) energy in
  valid_range ← np.setitems valid_range idx_lo 1;
  let idx_hi := np.where_ (λ e, Qltb hi e) (np.init energy) in
  let idx_hi :=
    match idx_hi with
    | [] => idx_hi
    | i0 :: _ => np.insert0 idx_hi (i0 - 1)
    end in
  np.setitems valid_range idx_hi 1.

(** The body of the loop of [_apply_fit_range], for one observation. *)
Definition _apply_fit_range_obs (fit_range : option (Q * Q))
    (obs : SpectrumObservation) : outcome (list bool) :=
  let energy := e_reco obs in
  valid_range ← np.zeros (nbins energy);
  valid_range ←
    match fit_range with
    | Some (lo, hi) => mark_out_of_range lo hi energy valid_range
    | None => Ok valid_range
    end;
  quality ←
    match quality (on_vector obs) with
    | Some q => Ok q
    | None => np.zeros (nbins (e_reco obs))
    end;
  np.logical_and (np.one_minus quality) (np.one_minus valid_range).

(** [_apply_fit_range]: one mask per observation, in the order of the list. *)
Definition masks_of (fit_range : option (Q * Q))
    (obs_list : list SpectrumObservation) : outcome (list (list bool)) :=
  mapM (_apply_fit_range_obs fit_range) obs_list.

(** ** Model objects and the heap

    A spectral model is a Python object whose [parameters] attribute refers
    to a second object, the container of the parameter values.  Both are
    heap cells, so that a reference to a model and a copy of it differ. *)

Definition loc : Type := positive.

Inductive pyobj : Type :=
| ModelObj (cls : string) (parameters : loc)
| ParamsObj (vals : gmap string R).

(** The class name and the parameter values a model reference stands for. *)
Definition read_model (h : gmap loc pyobj) (m : loc)
    : option (string * gmap string R) :=
  match h !! m with
  | Some (ModelObj cls p) =>
      match h !! p with
      | Some (ParamsObj vals) => Some (cls, vals)
      | _ => None
      end
  | _ => None
  end.

(** Modelled from the spec: [SpectralModel.copy] of
    [gammapy/spectrum/models.py], which is not part of the sources at hand.
    The spec calls the snapshot a deep copy: a new model object with a new
    parameter container holding the same values. *)
Definition model_copy (h : gmap loc pyobj) (m : loc)
    : outcome (gmap loc pyobj * loc) :=
  match h !! m with
  | Some (ModelObj cls p) =>
      match h !! p with
      | Some (ParamsObj vals) =>
          let p' := fresh (dom h) in
          let h1 := <[p' := ParamsObj vals]> h in
          let m' := fresh (dom h1) in
          Ok (<[m' := ModelObj cls p']> h1, m')
      | _ => Raise AttributeError
      end
  | _ => Raise AttributeError
  end.

(** Modelled from the spec: assigning a value to one parameter of a model
    ([model.parameters.<name> = v]), the mutation that error estimation and
    the optimizer perform on the live model. *)
Definition set_parameter (h : gmap loc pyobj) (m : loc) (name : string) (v : R)
    : outcome (gmap loc pyobj) :=
  match h !! m with
  | Some (ModelObj cls p) =>
      match h !! p with
      | Some (ParamsObj vals) => Ok (<[p := ParamsObj (<[name := v]> vals)]> h)
      | _ => Raise AttributeError
      end
  | _ => Raise AttributeError
  end.

(** ** The fit object *)

Record SpectrumFitResult : Type := {
  res_model : loc;
  res_covariance : option (list (list R));
  res_covar_axis : option (list string);
  res_fit_range : Q * Q;
  res_statname : string;
  res_statval : R;
  res_npred : list R;
  res_obs : SpectrumObservation;
}.

Record SpectrumFit : Type := {
  obs_list : list SpectrumObservation;
  model : loc;
  stat : string;
  forward_folded : bool;
  _fit_range : option (Q * Q);
  _bins_in_fit_range : list (list bool);
  method : string;
  err_method : string;
  predicted_counts : option (list (list R));
  statval : option (list (list R));
  covar_axis : option (list string);
  covariance : option (list (list R));
  result : list SpectrumFitResult;
}.

Definition set_predicted_counts (self : SpectrumFit) (pc : list (list R))
    : SpectrumFit :=
  {| obs_list := obs_list self; model := model self; stat := stat self;
     forward_folded := forward_folded self; _fit_range := _fit_range self;
     _bins_in_fit_range := _bins_in_fit_range self; method := method self;
     err_method := err_method self; predicted_counts := Some pc;
     statval := statval self; covar_axis := covar_axis self;
     covariance := covariance self; result := result self |}.

Definition set_statval (self : SpectrumFit) (sv : list (list R)) : SpectrumFit :=
  {| obs_list := obs_list self; model := model self; stat := stat self;
     forward_folded := forward_folded self; _fit_range := _fit_range self;
     _bins_in_fit_range := _bins_in_fit_range self; method := method self;
     err_method := err_method self; predicted_counts := predicted_counts self;
     statval := Some sv; covar_axis := covar_axis self;
     covariance := covariance self; result := result self |}.

Definition set_result (self : SpectrumFit) (rs : list SpectrumFitResult)
    : SpectrumFit :=
  {| obs_list := obs_list self; model := model self; stat := stat self;
     forward_folded := forward_folded self; _fit_range := _fit_range self;
     _bins_in_fit_range := _bins_in_fit_range self; method := method self;
     err_method := err_method self; predicted_counts := predicted_counts self;
     statval := statval self; covar_axis := covar_axis self;
     covariance := covariance self; result := rs |}.

(** [self.result.append(r)] *)
Definition append_result (self : SpectrumFit) (r : SpectrumFitResult)
    : SpectrumFit :=
  set_result self (result self ++ [r]).

(** The [fit_range] setter: store the range, then [_apply_fit_range].  This
    is the outcome of the call; what the fit object is left as when the call
    raises is [fit_range_setter_effect] below. *)
Definition set_fit_range (self : SpectrumFit) (fit_range : option (Q * Q))
    : outcome SpectrumFit :=
  bins ← masks_of fit_range (obs_list self);
  Ok {| obs_list := obs_list self; model := model self; stat := stat self;
        forward_folded := forward_folded self; _fit_range := fit_range;
        _bins_in_fit_range := bins; method := method self;
        err_method := err_method self;
        predicted_counts := predicted_counts self;
        statval := statval self; covar_axis := covar_axis self;
        covariance := covariance self; result := result self |}.

(** What a caller may pass as [obs_list]. *)
Inductive pyother : Type :=
| PyNone
| PyInt (z : Z)
| PyStr (s : string)
| PyList (l : list SpectrumObservation).   (* a plain list, not the list class *)

Inductive obs_arg : Type :=
| ArgObservation (obs : SpectrumObservation)
| ArgObservationList (l : list SpectrumObservation)
| ArgOther (v : pyother).

(** [SpectrumFit.__init__] *)
Definition __init__ (obs_list : obs_arg) (model : loc) (stat : string)
    (forward_folded : bool) (fit_range : option (Q * Q))
    (method err_method : string) : outcome SpectrumFit :=
  let obs_list :=
    match obs_list with
    | ArgObservation obs => ArgObservationList [obs]
    | other => other
    end in
  match obs_list with
  | ArgObservationList l =>
      bins ← masks_of fit_range l;
      Ok {| obs_list := l; model := model; stat := stat;
            forward_folded := forward_folded; _fit_range := fit_range;
            _bins_in_fit_range := bins; method := method;
            err_method := method;
            predicted_counts := None; statval := None;
            covar_axis := None; covariance := None; result := [] |}
  | _ => Raise ValueError
  end.

(** ** Count prediction *)

(** Physical units and the routines that evaluate the model belong to other
    modules (astropy.units, [.utils], [.models]); they are taken as given. *)
Context {Unit : Type}.
Variable is_equivalent : Unit → string → bool.

Record Quantity : Type := {
  q_value : list R;        (* [counts.value] *)
  q_unit : Unit;           (* [counts.unit] *)
}.

(** [calculate_predicted_counts(model, livetime, aeff, edisp, e_reco)],
    already projected to [.data.data], and [model.integral(emin, emax)]. *)
Variable calculate_predicted_counts :
  string * gmap string R → R → Aeff → Edisp → list Q → outcome Quantity.
Variable integral :
  string * gmap string R → list Q → list Q → outcome Quantity.

(** The check on the unit of the predicted counts. *)
Definition check_count_unit (counts : Quantity) : outcome (list R) :=
  let cond := is_equivalent (q_unit counts) "ct" || is_equivalent (q_unit counts) "" in
  if cond then Ok (q_value counts) else Raise ValueError.

Definition _predict_counts_helper (h : gmap loc pyobj) (self : SpectrumFit)
    (obs : SpectrumObservation) : outcome (list R) :=
  let binning := e_reco obs in
  match read_model h (model self) with
  | None => Raise AttributeError
  | Some m =>
      counts ←
        (if forward_folded self
         then calculate_predicted_counts m (livetime obs) (aeff obs)
                (edisp obs) binning
         else integral m (np.init binning) (drop 1 binning));
      check_count_unit counts
  end.

Definition predict_counts (h : gmap loc pyobj) (self : SpectrumFit)
    : outcome SpectrumFit :=
  predicted_counts ← mapM (_predict_counts_helper h self) (obs_list self);
  Ok (set_predicted_counts self predicted_counts).

(** ** The statistic *)

(** Modelled from the spec: [stats.cash] of [gammapy/stats], which is not
    part of the sources at hand.  The spec gives the value per bin,
    [2 * (mu - n*ln(mu))]; as a numpy function it applies to arrays element
    by element. *)
Definition cash_bin (n mu : R) : R := (2 * (mu - n * ln mu))%R.
Definition cash (n_on mu_on : list R) : outcome (list R) :=
  np.broadcast2 cash_bin n_on mu_on.

(** [stats.wstat(n_on, n_off, alpha, mu_sig)]: the spec gives no formula. *)
Variable wstat : list R → list R → R → list R → outcome (list R).

Definition _calc_statval_helper (self : SpectrumFit) (obs : SpectrumObservation)
    (prediction : list R) : outcome (list R) :=
  if String.eqb (stat self) "cash" then
    cash (data (on_vector obs)) prediction
  else if String.eqb (stat self) "wstat" then
    wstat (data (on_vector obs)) (data (off_vector obs)) (alpha obs) prediction
  else Raise NotImplementedError.

(** [np.where(valid_range, statval, 0)] *)
Definition where_or_zero (valid_range : list bool) (statval : list R)
    : outcome (list R) :=
  np.broadcast2 (λ (b : bool) x, if b then x else 0%R) valid_range statval.

Definition _restrict_statval (self : SpectrumFit) : outcome SpectrumFit :=
  match statval self with
  | None => Raise TypeError
  | Some sv =>
      restricted_statval ←
        mapM (λ p, where_or_zero p.2 p.1) (zip sv (_bins_in_fit_range self));
      Ok (set_statval self restricted_statval)
  end.

Definition calc_statval (self : SpectrumFit) : outcome SpectrumFit :=
  match predicted_counts self with
  | None => Raise TypeError
  | Some pcs =>
      statval ←
        mapM (λ p, _calc_statval_helper self p.1 p.2) (zip (obs_list self) pcs);
      _restrict_statval (set_statval self statval)
  end.

(** [np.sum] *)
Definition np_sum (xs : list R) : R := foldr Rplus 0%R xs.

(** ** The true fit range and the result records *)

(** One iteration of the loop of [true_fit_range]. *)
Definition true_fit_range_obs (binrange : list bool) (obs : SpectrumObservation)
    : outcome (Q * Q) :=
  let idx := np.where_ (λ b : bool, b) binrange in
  first ← np.getitem idx 0;
  last ← np.getitem idx (-1);
  e_min ← np.getitem (e_reco obs) first;
  e_max ← np.getitem (e_reco obs) (last + 1);
  Ok (e_min, e_max).

Definition true_fit_range (self : SpectrumFit) : outcome (list (Q * Q)) :=
  mapM (λ p, true_fit_range_obs p.1 p.2)
       (zip (_bins_in_fit_range self) (obs_list self)).

(** Subscripting an attribute that may still be [None]. *)
Definition subscript {A} (attr : option (list A)) (i : Z) : outcome A :=
  match attr with
  | None => Raise TypeError
  | Some l => np.getitem l i
  end.

(** The loop of [_make_fit_result], from index [idx] on. *)
Fixpoint make_fit_result_from (idx : Z) (todo : list SpectrumObservation)
    (h : gmap loc pyobj) (self : SpectrumFit)
    : outcome (gmap loc pyobj * SpectrumFit) :=
  match todo with
  | [] => Ok (h, self)
  | obs :: todo' =>
      hm ← model_copy h (model self);
      ranges ← true_fit_range self;
      fit_range ← np.getitem ranges idx;
      sv ← subscript (statval self) idx;
      npred ← subscript (predicted_counts self) idx;
      let r := {| res_model := hm.2; res_covariance := None;
                  res_covar_axis := None; res_fit_range := fit_range;
                  res_statname := stat self; res_statval := np_sum sv;
                  res_npred := npred; res_obs := obs |} in
      make_fit_result_from (idx + 1) todo' hm.1 (append_result self r)
  end.

Definition _make_fit_result (h : gmap loc pyobj) (self : SpectrumFit)
    : outcome (gmap loc pyobj * SpectrumFit) :=
  make_fit_result_from 0 (obs_list self) h self.

(** ** Running the fit *)

(** The minimiser of the sherpa package, which calls back into
    [predict_counts] and [calc_statval] through adapters that are not part
    of the sources at hand. *)
Variable sherpa_fit :
  gmap loc pyobj → SpectrumFit → outcome (gmap loc pyobj * SpectrumFit).

Definition _fit_sherpa (h : gmap loc pyobj) (self : SpectrumFit)
    : outcome (gmap loc pyobj * SpectrumFit) :=
  _ ← np.getitem (obs_list self) 0;
  hs ← sherpa_fit h self;
  _make_fit_result hs.1 hs.2.

Definition fit (h : gmap loc pyobj) (self : SpectrumFit)
    : outcome (gmap loc pyobj * SpectrumFit) :=
  if String.eqb (method self) "sherpa" then _fit_sherpa h self
  else Raise NotImplementedError.

End Fit.

(** ** Vocabulary of the statements *)

(** Bin [j] is the first bin whose lower edge is above [hi]. *)
Definition first_bin_above (hi : Q) (energy : list Q) (j : nat) : Prop :=
  (∃ e, np.init energy !! j = Some e ∧ (hi < e)%Q) ∧
  ∀ (k : nat) e, (k < j)%nat → energy !! k = Some e → ¬ (hi < e)%Q.

(** What the code marks, for any axis: the bins whose lower edge is below
    [lo] or above [hi], the bin before the first bin above [hi], and, when
    bin 0 is that first bin, the last bin (index -1). *)
Definition marked (lo hi : Q) (energy : list Q) (i : nat) : Prop :=
  (∃ e, energy !! i = Some e ∧ ((e < lo)%Q ∨ (hi < e)%Q)) ∨
  first_bin_above hi energy (S i) ∨
  (first_bin_above hi energy 0 ∧ S (S i) = length energy).

(** The observation flags bin [i] as bad (quality 1). *)
Definition flagged_bad {Aeff Edisp} (obs : @SpectrumObservation Aeff Edisp)
    (i : nat) : Prop :=
  ∃ q, quality (on_vector obs) = Some q ∧ q !! i = Some 1.

(** When quality flags are present there is one per bin. *)
Definition quality_per_bin {Aeff Edisp} (obs : @SpectrumObservation Aeff Edisp)
    : Prop :=
  match quality (on_vector obs) with
  | Some q => S (length q) = length (e_reco obs)
  | None => True
  end.

(** The lower bound of the range is not above the whole axis. *)
Definition reaches (fit_range : option (Q * Q)) (energy : list Q) : Prop :=
  match fit_range with
  | Some (lo, _) => ∀ e, last energy = Some e → (lo <= e)%Q
  | None => True
  end.

(** The bins the range leaves out, as the code marks them. *)
Definition out_of_range (fit_range : option (Q * Q)) (energy : list Q)
    (i : nat) : Prop :=
  match fit_range with
  | Some (lo, hi) => marked lo hi energy i
  | None => False
  end.

(** The edges of the axis are in ascending order. *)
Fixpoint is_ordered (energy : list Q) : bool :=
  match energy with
  | [] => true
  | x :: rest =>
      match rest with
      | [] => true
      | y :: _ => Qle_bool x y
      end && is_ordered rest
  end.

(** Bin [i], from its lower to its upper edge, lies within [[lo, hi]]. *)
Definition bin_within (lo hi : Q) (energy : list Q) (i : nat) : Prop :=
  ∃ lower upper, energy !! i = Some lower ∧ energy !! S i = Some upper ∧
    (lo <= lower)%Q ∧ (upper <= hi)%Q.

(** The exclusion rule in the words of the specification: the upper edge is
    below the lower bound, or the lower edge is above the upper bound, or the
    bin is flagged bad, or the bin comes just before the first bin whose
    lower edge is above the upper bound. *)
Definition spec_excluded {Aeff Edisp} (lo hi : Q)
    (obs : @SpectrumObservation Aeff Edisp) (i : nat) : Prop :=
  (∃ upper, e_reco obs !! S i = Some upper ∧ (upper < lo)%Q) ∨
  (∃ lower, e_reco obs !! i = Some lower ∧ (hi < lower)%Q) ∨
  flagged_bad obs i ∨
  first_bin_above hi (e_reco obs) (S i).

(** The first and the last bin of a mask that are in the fit. *)
Definition first_included (mask : list bool) (i : nat) : Prop :=
  mask !! i = Some true ∧ ∀ j : nat, (j < i)%nat → mask !! j = Some false.
Definition last_included (mask : list bool) (i : nat) : Prop :=
  mask !! i = Some true ∧ ∀ j : nat, (i < j)%nat → mask !! j ≠ Some true.

(** [raw[mask]]: the statistic values of the bins in the mask, mask and
    values aligned the way numpy broadcasts them. *)
Definition included_values (mask : list bool) (raw : list R) : outcome (list R) :=
  pairs ← np.broadcast2 pair mask raw;
  Ok (map snd (filter (λ p : bool * R, p.1 = true) pairs)).

(** A result holds a snapshot of its own: its model and the parameter
    container of that model are heap cells, and the container is not the one
    of the live model. *)
Definition snapshot_of (h : gmap loc pyobj) (live : loc) (m : loc) : Prop :=
  ∃ cls p vals, h !! m = Some (ModelObj cls p) ∧ h !! p = Some (ParamsObj vals) ∧
    ∀ cls0 p0, h !! live = Some (ModelObj cls0 p0) → p ≠ p0.

Definition detached {Aeff Edisp} (h : gmap loc pyobj)
    (self : @SpectrumFit Aeff Edisp) : Prop :=
  ∀ r, r ∈ result self → snapshot_of h (model self) (res_model r).

(** ** Bounding [ln 10]

    Square roots in fixed point, rounded up and down: fifteen of them bring
    10 close enough to 1 for the tangent bounds of the logarithm. *)

Definition scale : Z := 1000000000000000000.
Definition up_root (a : Z) : Z := Z.sqrt (a * scale) + 1.
Definition down_root (a : Z) : Z := Z.sqrt (a * scale).
Fixpoint iter_root (root : Z → Z) (k : nat) (a : Z) : Z :=
  match k with
  | O => a
  | S k' => iter_root root k' (root a)
  end.
Definition ln10_upper_root : Z :=
  Eval vm_compute in iter_root up_root 15 (10 * scale).
Definition ln10_lower_root : Z :=
  Eval vm_compute in iter_root down_root 15 (10 * scale).

(** ** Concrete inputs *)

Definition observation (edges : list Q) (on off : list R) (q : option (list Z))
    : @SpectrumObservation unit unit :=
  {| e_reco := edges;
     on_vector := {| data := on; quality := q |};
     off_vector := {| data := off; quality := None |};
     alpha := 1%R; livetime := 1800%R; aeff := tt; edisp := tt |}.

(** Two bins, edges at 1, 2 and 3 TeV. *)
Definition obs_two_bins : @SpectrumObservation unit unit :=
  observation [1; 2; 3]%Q [10; 3]%R [5; 5]%R None.

(** Three bins, edges at 1, 2, 3 and 4 TeV. *)
Definition obs_three_bins : @SpectrumObservation unit unit :=
  observation [1; 2; 3; 4]%Q [10; 3; 1]%R [5; 5; 5]%R None.

(** Four bins, the last one flagged bad. *)
Definition obs_flagged : @SpectrumObservation unit unit :=
  observation [1; 2; 3; 4; 5]%Q [10; 3; 1; 0]%R [5; 5; 5; 5]%R (Some [0; 0; 0; 1]).

(** A few units, and which of them astropy takes as equivalent to counts
    (["ct"]) or to the dimensionless unit ([""]). *)
Inductive sample_unit : Type :=
| Counts
| Dimensionless
| PerTeV.

Definition sample_is_equivalent (u : sample_unit) (other : string) : bool :=
  match u with
  | Counts => String.eqb other "ct"
  | Dimensionless => String.eqb other ""
  | PerTeV => String.eqb other "1 / TeV"
  end.

(** A model evaluation that predicts 10 and 4 counts, in the given unit. *)
Definition sample_counts (u : sample_unit) : @Quantity sample_unit :=
  {| q_value := [10; 4]%R; q_unit := u |}.
Definition sample_folding (u : sample_unit)
    (m : string * gmap string R) (livetime : R) (aeff edisp : unit)
    (e_reco : list Q) : outcome (@Quantity sample_unit) :=
  Ok (sample_counts u).
Definition sample_integral (u : sample_unit)
    (m : string * gmap string R) (emin emax : list Q)
    : outcome (@Quantity sample_unit) :=
  Ok (sample_counts u).

(** A stand-in for [stats.wstat]. *)
Definition sample_wstat (n_on n_off : list R) (alpha : R) (mu_sig : list R)
    : outcome (list R) :=
  Ok mu_sig.

(** A heap with one power law: the model at 1, its parameters at 2. *)
Definition sample_heap : gmap loc pyobj :=
  <[1%positive := ModelObj "PowerLaw" 2%positive]>
    (<[2%positive := ParamsObj (<["index" := 2%R]> ∅)]> ∅).

(** A fit of [obs_two_bins] after one evaluation of the statistic. *)
Definition sample_fit (stat : string) : @SpectrumFit unit unit :=
  {| obs_list := [obs_two_bins]; model := 1%positive; stat := stat;
     forward_folded := true; _fit_range := None;
     _bins_in_fit_range := [[true; false]]; method := "sherpa";
     err_method := "sherpa"; predicted_counts := Some [[10; 4]%R];
     statval := Some [[7; 0]%R]; covar_axis := None; covariance := None;
     result := [] |}.

(** * Error estimation

    [est_errors] and [_est_errors_sherpa].  The attribute [_sherpa_fit], set
    by [_fit_sherpa], is passed beside the fit object: it is absent until a
    fit has run. *)

(** [s.split(sep)] for a separator of one character: never empty. *)
Fixpoint split_on (sep : Ascii.ascii) (s : string) : list string :=
  match s with
  | EmptyString => [EmptyString]
  | String c rest =>
      if Ascii.eqb c sep then EmptyString :: split_on sep rest
      else match split_on sep rest with
           | piece :: pieces => String c piece :: pieces
           | [] => [String c EmptyString]
           end
  end.

(** [sep.join(pieces)] *)
Fixpoint join_with (sep : Ascii.ascii) (pieces : list string) : string :=
  match pieces with
  | [] => EmptyString
  | [piece] => piece
  | piece :: rest => piece +:+ String sep (join_with sep rest)
  end.

(** [par.split('.')[-1]] *)
Definition last_component (par : string) : string :=
  match last (split_on "."%char par) with
  | Some name => name
  | None => EmptyString
  end.

Definition set_covar {Aeff Edisp} (self : @SpectrumFit Aeff Edisp)
    (axis : list string) (cov : list (list R)) : @SpectrumFit Aeff Edisp :=
  {| obs_list := obs_list self; model := model self; stat := stat self;
     forward_folded := forward_folded self; _fit_range := _fit_range self;
     _bins_in_fit_range := _bins_in_fit_range self; method := method self;
     err_method := err_method self; predicted_counts := predicted_counts self;
     statval := statval self; covar_axis := Some axis;
     covariance := Some cov; result := result self |}.

(** [res.covar_axis = ...; res.covariance = ...] *)
Definition set_res_covar {Aeff Edisp} (res : @SpectrumFitResult Aeff Edisp)
    (axis : option (list string)) (cov : option (list (list R)))
    : @SpectrumFitResult Aeff Edisp :=
  {| res_model := res_model res; res_covariance := cov;
     res_covar_axis := axis; res_fit_range := res_fit_range res;
     res_statname := res_statname res; res_statval := res_statval res;
     res_npred := res_npred res; res_obs := res_obs res |}.

Section Errors.
Context {Aeff Edisp SherpaFit : Type}.

(** [self._sherpa_fit.est_errors()], of the sherpa package: the parameter
    names ([covar.parnames]) and the covariance ([covar.extra_output]). *)
Variable sherpa_est_errors : SherpaFit → outcome (list string * list (list R)).

Definition _est_errors_sherpa (_sherpa_fit : option SherpaFit)
    (self : @SpectrumFit Aeff Edisp) : outcome (@SpectrumFit Aeff Edisp) :=
  match _sherpa_fit with
  | None => Raise AttributeError
  | Some f =>
      covar ← sherpa_est_errors f;
      let covar_axis := map last_component covar.1 in
      Ok (set_covar self covar_axis covar.2)
  end.

Definition est_errors (_sherpa_fit : option SherpaFit)
    (self : @SpectrumFit Aeff Edisp) : outcome (@SpectrumFit Aeff Edisp) :=
  self ← (if String.eqb (err_method self) "sherpa"
          then _est_errors_sherpa _sherpa_fit self
          else Raise NotImplementedError);
  Ok (set_result self
        (map (λ res, set_res_covar res (covar_axis self) (covariance self))
             (result self))).

End Errors.

(** The character occurs in the string. *)
Fixpoint contains_char (c : Ascii.ascii) (s : string) : bool :=
  match s with
  | EmptyString => false
  | String c' rest => Ascii.eqb c' c || contains_char c rest
  end.

(** Two bins, both flagged bad. *)
Definition obs_all_flagged : @SpectrumObservation unit unit :=
  observation [1; 2; 3]%Q [10; 3]%R [5; 5]%R (Some [1; 1]).

(** A fit of [obs_all_flagged], with counts and statistic in place. *)
Definition sample_fit_all_flagged : @SpectrumFit unit unit :=
  {| obs_list := [obs_all_flagged]; model := 1%positive; stat := "cash";
     forward_folded := true; _fit_range := None;
     _bins_in_fit_range := [[false; false]]; method := "sherpa";
     err_method := "sherpa"; predicted_counts := Some [[10; 4]%R];
     statval := Some [[0; 0]%R]; covar_axis := None; covariance := None;
     result := [] |}.

(** A stand-in for the minimiser and for its error estimate. *)
Definition sample_sherpa_fit (h : gmap loc pyobj) (self : @SpectrumFit unit unit)
    : outcome (gmap loc pyobj * @SpectrumFit unit unit) :=
  Ok (h, self).
Definition sample_est_errors (f : unit)
    : outcome (list string * list (list R)) :=
  Ok (["powerlaw.index"; "powerlaw.amplitude"], [[1; 0]%R; [0; 1]%R]).

(** * gammapy.data.event_list: event lists and their selections

    A shallow embedding of [src/gammapy/data/event_list.py].  A table is an
    ordered dictionary of columns and a dictionary of header values; all
    columns of a table have one length.  Column values are rationals, given
    in the unit of the column; the quantities a selection compares them with
    are taken in that unit too. *)

Inductive table_exn : Type :=
| KeyError (key : string)
| RowIndexError
| NoSuchAttribute (name : string)
| ConversionError.

Inductive attempt (A : Type) : Type :=
| Done (a : A)
| Fail (e : table_exn).
Arguments Done {A} a.
Arguments Fail {A} e.

#[global] Instance attempt_ret : MRet attempt := λ A a, Done a.
#[global] Instance attempt_bind : MBind attempt := λ A B f m,
  match m with
  | Done a => f a
  | Fail e => Fail e
  end.

Record Column : Type := {
  col_data : list Q;
  col_unit : option string;
}.

Inductive meta_value : Type :=
| MetaNumber (x : Q)
| MetaText (s : string).

Record Table : Type := {
  columns : list (string * Column);
  meta : gmap string meta_value;
}.

(** [table.colnames] *)
Definition colnames (t : Table) : list string := map fst (columns t).

(** The column of a name, if there is one. *)
Fixpoint find_column (name : string) (cols : list (string * Column))
    : option Column :=
  match cols with
  | [] => None
  | (n, c) :: rest => if String.eqb n name then Some c else find_column name rest
  end.

(** [table[name]] *)
Definition get_column (t : Table) (name : string) : attempt Column :=
  match find_column name (columns t) with
  | Some c => Done c
  | None => Fail (KeyError name)
  end.

Inductive event_class : Type :=
| EventList
| EventListLAT.

Record EventListBase : Type := {
  cls : event_class;
  table : Table;
}.

(** The fix of [__init__]: an [ENERGY] column without a unit gets [TeV]. *)
Definition fix_energy_unit (t : Table) : Table :=
  {| columns :=
       map (λ p : string * Column,
              if String.eqb p.1 "ENERGY" then
                match col_unit p.2 with
                | Some _ => p
                | None => (p.1, {| col_data := col_data p.2;
                                   col_unit := Some "TeV" |})
                end
              else p)
           (columns t);
     meta := meta t |}.

(** [EventListBase.__init__], for either class. *)
Definition event_list_init (c : event_class) (t : Table) : EventListBase :=
  {| cls := c; table := fix_energy_unit t |}.

(** What [select_row_subset] is given: a boolean mask or an array of row
    indices. *)
Inductive row_specifier : Type :=
| RowMask (mask : list bool)
| RowIndices (idx : list Z).

(** [arr[mask]] for a boolean mask of the length of the array. *)
Fixpoint compress {A} (mask : list bool) (arr : list A) : list A :=
  match mask, arr with
  | b :: mask', x :: arr' =>
      if b then x :: compress mask' arr' else compress mask' arr'
  | _, _ => []
  end.

Definition index_mask {A} (arr : list A) (mask : list bool) : attempt (list A) :=
  if (length mask =? length arr)%nat then Done (compress mask arr)
  else Fail RowIndexError.

(** [arr[idx]] for an array of indices. *)
Definition index_rows {A} (arr : list A) (idx : list Z) : attempt (list A) :=
  mapM (λ i, match np.getitem arr i with
             | Ok x => Done x
             | Raise _ => Fail RowIndexError
             end) idx.

Definition column_getitem (c : Column) (rows : row_specifier) : attempt Column :=
  values ← match rows with
           | RowMask mask => index_mask (col_data c) mask
           | RowIndices idx => index_rows (col_data c) idx
           end;
  Done {| col_data := values; col_unit := col_unit c |}.

(** [table[row_specifier]]: every column is indexed, the header is kept. *)
Definition table_getitem (t : Table) (rows : row_specifier) : attempt Table :=
  cols ← mapM (λ p : string * Column,
                 c ← column_getitem p.2 rows; Done (p.1, c)) (columns t);
  Done {| columns := cols; meta := meta t |}.

Definition select_row_subset (self : EventListBase) (rows : row_specifier)
    : attempt EventListBase :=
  t ← table_getitem (table self) rows;
  Done (event_list_init (cls self) t).

(** The [energy] property, as plain values. *)
Definition energy (self : EventListBase) : attempt (list Q) :=
  c ← get_column (table self) "ENERGY";
  Done (col_data c).

(** The band [[energy_min, energy_max)]. *)
Definition in_band (band : Q * Q) (x : Q) : bool :=
  Qle_bool band.1 x && Qltb x band.2.

Definition select_energy (self : EventListBase) (energy_band : Q * Q)
    : attempt EventListBase :=
  energy ← energy self;
  let mask := map (in_band energy_band) energy in
  select_row_subset self (RowMask mask).

(** [np.union1d]: the sorted array of the values of both, each once. *)
Fixpoint insert_sorted (x : Z) (l : list Z) : list Z :=
  match l with
  | [] => [x]
  | y :: l' =>
      if x <? y then x :: l
      else if x =? y then l
      else y :: insert_sorted x l'
  end.
Definition union1d (a b : list Z) : list Z := foldr insert_sorted [] (a ++ b).

(** A circular region of the sky. *)
Record CircleSkyRegion : Type := {
  center : Q * Q;
  radius : Q;
}.

Inductive region_arg : Type :=
| OneRegion (reg : CircleSkyRegion)
| RegionList (regs : list CircleSkyRegion).

Section Sky.

(** [center.separation(position)], of astropy: the angle between two
    positions, in the unit of the radii. *)
Variable separation : Q * Q → Q * Q → Q.

(** The reference time of the header ([time_ref_from_dict]), in seconds. *)
Variable time_ref_from_dict : gmap string meta_value → attempt Q.

(** The [radec] property: one position per event. *)
Definition radec (self : EventListBase) : attempt (list (Q * Q)) :=
  lon ← get_column (table self) "RA";
  lat ← get_column (table self) "DEC";
  Done (zip (col_data lon) (col_data lat)).

(** The [time] property: reference time plus mission elapsed time. *)
Definition event_time (self : EventListBase) : attempt (list Q) :=
  met ← get_column (table self) "TIME";
  time_ref ← time_ref_from_dict (meta (table self));
  Done (map (λ t, time_ref + t)%Q (col_data met)).

Definition select_time (self : EventListBase) (time_interval : Q * Q)
    : attempt EventListBase :=
  time ← event_time self;
  let mask := map (in_band time_interval) time in
  select_row_subset self (RowMask mask).

Definition select_sky_cone (self : EventListBase) (center : Q * Q) (radius : Q)
    : attempt EventListBase :=
  position ← radec self;
  let mask := map (λ p, Qltb (separation center p) radius) position in
  select_row_subset self (RowMask mask).

Definition select_sky_ring (self : EventListBase) (center : Q * Q)
    (inner_radius outer_radius : Q) : attempt EventListBase :=
  position ← radec self;
  let mask1 := map (λ p, Qltb inner_radius (separation center p)) position in
  let mask2 := map (λ p, Qltb (separation center p) outer_radius) position in
  let mask := zip_with andb mask1 mask2 in
  select_row_subset self (RowMask mask).

Definition filter_circular_region (self : EventListBase)
    (region : list CircleSkyRegion) : attempt (list Z) :=
  position ← radec self;
  Done (foldl (λ mask reg,
                 let temp := np.where_
                   (λ p, Qltb (separation (center reg) p) (radius reg))
                   position in
                 union1d mask temp) [] region).

Definition select_circular_region (self : EventListBase) (region : region_arg)
    : attempt EventListBase :=
  let region := match region with
                | OneRegion reg => [reg]
                | RegionList regs => regs
                end in
  mask ← filter_circular_region self region;
  select_row_subset self (RowIndices mask).

End Sky.

(** ** Vocabulary for tables *)

(** All columns have [n] rows. *)
Definition rectangular (t : Table) (n : nat) : Prop :=
  ∀ name c, (name, c) ∈ columns t → length (col_data c) = n.

(** A position lies in one of the regions. *)
Definition in_some_region (separation : Q * Q → Q * Q → Q)
    (region : list CircleSkyRegion) (p : Q * Q) : bool :=
  existsb (λ reg, Qltb (separation (center reg) p) (radius reg)) region.

(** ** Concrete event lists *)

Definition sample_column (values : list Q) (u : option string) : Column :=
  {| col_data := values; col_unit := u |}.

(** Four events; the energies carry no unit yet. *)
Definition sample_table : Table :=
  {| columns :=
       [("EVENT_ID", sample_column [1; 2; 3; 4]%Q None);
        ("TIME", sample_column [10; 20; 30; 40]%Q (Some "s"));
        ("RA", sample_column [83; 84; 83; 85]%Q (Some "deg"));
        ("DEC", sample_column [22; 22; 23; 21]%Q (Some "deg"));
        ("ENERGY", sample_column [1 # 2; 2; 5; 20]%Q None)];
     meta := <["OBS_ID" := MetaNumber 23523]> ∅ |}.

Definition sample_events : EventListBase := event_list_init EventList sample_table.

(** A stand-in for the angular separation: the sum of the coordinate
    differences. *)
Definition sample_distance (x y : Q) : Q :=
  if Qle_bool x y then (y - x)%Q else (x - y)%Q.
Definition sample_separation (a b : Q * Q) : Q :=
  (sample_distance a.1 b.1 + sample_distance a.2 b.2)%Q.

Definition sample_time_ref (m : gmap string meta_value) : attempt Q := Done 1000%Q.

(** The table with the rows of a mask: every column compressed. *)
Definition mask_rows (mask : list bool) (t : Table) : Table :=
  {| columns :=
       map (λ p : string * Column,
              (p.1, {| col_data := compress mask (col_data p.2);
                       col_unit := col_unit p.2 |}))
           (columns t);
     meta := meta t |}.


(** Events with positions only. *)
Definition sample_positions : EventListBase :=
  event_list_init EventListLAT
    {| columns := [("RA", sample_column [83; 84]%Q (Some "deg"));
                   ("DEC", sample_column [22; 22]%Q (Some "deg"))];
       meta := ∅ |}.

(** Two regions that overlap. *)
Definition sample_regions : list CircleSkyRegion :=
  [{| center := (83, 22)%Q; radius := 2 |};
   {| center := (84, 22)%Q; radius := 1 |}].

(** ** Offsets from the pointing position *)

(** [table.meta[key]] *)
Definition get_meta (t : Table) (key : string) : attempt meta_value :=
  match meta t !! key with
  | Some v => Done v
  | None => Fail (KeyError key)
  end.

Section Offset.

Variable separation : Q * Q → Q * Q → Q.

(** [SkyCoord(lon, lat, unit='deg', frame='icrs')] of two header values. *)
Variable sky_coord : meta_value → meta_value → attempt (Q * Q).

Definition pointing_radec (self : EventListBase) : attempt (Q * Q) :=
  lon ← get_meta (table self) "RA_PNT";
  lat ← get_meta (table self) "DEC_PNT";
  sky_coord lon lat.

Definition offset (self : EventListBase) : attempt (list Q) :=
  position ← radec self;
  center ← pointing_radec self;
  Done (map (separation center) position).

(** [select_offset] is a method of [EventList] only. *)
Definition select_offset (self : EventListBase) (offset_band : Q * Q)
    : attempt EventListBase :=
  match cls self with
  | EventListLAT => Fail (NoSuchAttribute "select_offset")
  | EventList =>
      offset ← offset self;
      let mask := map (in_band offset_band) offset in
      select_row_subset self (RowMask mask)
  end.

End Offset.

(** ** The checker of event lists *)

Record EventListChecker : Type := {
  event_list : EventListBase;
}.

Definition meta_required : list string := ["OBS_ID"; "TELESCOP"].

Definition columns_required : list string :=
  ["EVENT_ID"; "RA"; "DEC"; "ENERGY"].

(** The method [obs_id]. *)
Definition obs_id (self : EventListChecker) : attempt meta_value :=
  get_meta (table (event_list self)) "OBS_ID".

(** A record of the checker.  Its entry [obs_id] is the method [self.obs_id],
    which [_record] does not call: the checker the method is bound to stands
    for it.  The message is its text with the set that is formatted into
    it. *)
Record check_record : Type := {
  rec_level : string;
  rec_obs_id : EventListChecker;
  rec_msg : string * gset string;
}.

Definition _record (self : EventListChecker) (level : string)
    (msg : string * gset string) : check_record :=
  {| rec_level := level; rec_obs_id := self; rec_msg := msg |}.

(** What the generator [check_meta] yields. *)
Definition check_meta (self : EventListChecker) : list check_record :=
  let meta_missing : gset string :=
    list_to_set meta_required ∖ dom (meta (table (event_list self))) in
  if decide (meta_missing = ∅) then []
  else [_record self "error" ("Missing meta keys: ", meta_missing)].

(** What the generator [check_columns] yields. *)
Definition check_columns (self : EventListChecker) : list check_record :=
  let columns_missing : gset string :=
    list_to_set columns_required
    ∖ list_to_set (colnames (table (event_list self))) in
  if decide (columns_missing = ∅) then []
  else [_record self "error" ("Missing table columns: ", columns_missing)].

(** Events with a pointing position in the header. *)
Definition sample_pointed_events : EventListBase :=
  event_list_init EventList
    {| columns := columns sample_table;
       meta := <["RA_PNT" := MetaNumber 83]>
                 (<["DEC_PNT" := MetaNumber 22]> (meta sample_table)) |}.

Definition sample_sky_coord (lon lat : meta_value) : attempt (Q * Q) :=
  match lon, lat with
  | MetaNumber x, MetaNumber y => Done (x, y)
  | _, _ => Fail ConversionError
  end.

(** ** The setter of [fit_range], step by step

    The setter assigns [_fit_range] first, and [_apply_fit_range] empties
    [_bins_in_fit_range] before its loop, which appends one mask per
    observation.  When an observation raises, the fit object stays as it is
    at that moment: the new range is stored, and the masks are those of the
    observations before it. *)

Section SetterEffect.
Context {Aeff Edisp : Type}.

(** The loop of [_apply_fit_range]: the masks appended so far, and the
    exception that ended it, if any. *)
Fixpoint _apply_fit_range_loop (fit_range : option (Q * Q))
    (todo : list (@SpectrumObservation Aeff Edisp)) (bins : list (list bool))
    : list (list bool) * option exn :=
  match todo with
  | [] => (bins, None)
  | obs :: rest =>
      match _apply_fit_range_obs fit_range obs with
      | Ok convolved =>
          _apply_fit_range_loop fit_range rest (bins ++ [convolved])
      | Raise e => (bins, Some e)
      end
  end.

(** The fit object after the setter has returned or raised, with the
    exception it raised. *)
Definition fit_range_setter_effect (self : @SpectrumFit Aeff Edisp)
    (fit_range : option (Q * Q)) : @SpectrumFit Aeff Edisp * option exn :=
  let '(bins, raised) := _apply_fit_range_loop fit_range (obs_list self) [] in
  ({| obs_list := obs_list self; model := model self; stat := stat self;
      forward_folded := forward_folded self; _fit_range := fit_range;
      _bins_in_fit_range := bins; method := method self;
      err_method := err_method self;
      predicted_counts := predicted_counts self;
      statval := statval self; covar_axis := covar_axis self;
      covariance := covariance self; result := result self |}, raised).

End SetterEffect.

(** A fit of two observations, constructed without a range. *)
Definition sample_fit_two_observations : @SpectrumFit unit unit :=
  {| obs_list := [obs_three_bins; obs_two_bins]; model := 1%positive;
     stat := "cash"; forward_folded := true; _fit_range := None;
     _bins_in_fit_range := [[true; true; true]; [true; true]];
     method := "sherpa"; err_method := "sherpa"; predicted_counts := None;
     statval := None; covar_axis := None; covariance := None; result := [] |}.
(** * Properties *)

(** ** The error monad *)

Lemma bind_Ok {A B} (m : outcome A) (f : A → outcome B) (b : B) :
  m ≫= f = Ok b ↔ ∃ a, m = Ok a ∧ f a = Ok b.
Proof.
  destruct m as [a|e]; simpl; split.
  - intros H. exists a. done.
  - intros (a' & [= <-] & H). done.
  - done.
  - intros (a' & H & _). done.
Qed.

Lemma is_Ok_bind_Ok {A B C} (m : outcome A) (f : A → B) (g : A → C) :
  is_Ok (m ≫= λ a, Ok (f a)) ↔ is_Ok (m ≫= λ a, Ok (g a)).
Proof. destruct m; simpl; split; intros [? ?]; try done; by eexists. Qed.

Lemma mapM_Ok_lookup {A B} (f : A → outcome B) (l : list A) (k : list B) :
  mapM f l = Ok k →
  length k = length l ∧ ∀ i x, l !! i = Some x → ∃ y, k !! i = Some y ∧ f x = Ok y.
Proof.
  revert k. induction l as [|a l IH]; intros k; simpl.
  - intros [= <-]. split; [done|]. intros i x. by rewrite lookup_nil.
  - intros H. apply bind_Ok in H as (y & Hy & H).
    apply bind_Ok in H as (k' & Hk' & [= <-]).
    destruct (IH _ Hk') as [Hlen Hall]. split; [simpl; by f_equal|].
    intros [|i] x; simpl.
    + intros [= <-]. eauto.
    + apply Hall.
Qed.

Lemma mapM_is_Ok {A B} (f : A → outcome B) (l : list A) :
  (∀ x, x ∈ l → is_Ok (f x)) → is_Ok (mapM f l).
Proof.
  induction l as [|a l IH]; intros H; simpl.
  - by eexists.
  - destruct (H a) as [y Hy]; [by left|].
    destruct IH as [k Hk]; [intros x Hx; apply H; by right|].
    exists (y :: k). by rewrite Hy; simpl; rewrite Hk.
Qed.

(** ** numpy helpers *)

Lemma Qltb_lt (x y : Q) : Qltb x y = true ↔ (x < y)%Q.
Proof.
  unfold Qltb. rewrite negb_true_iff, <- not_true_iff_false, Qle_bool_iff.
  split; [apply Qnot_le_lt | apply Qlt_not_le].
Qed.

Lemma Qltb_ge (x y : Q) : Qltb x y = false ↔ (y <= x)%Q.
Proof.
  unfold Qltb. rewrite negb_false_iff. apply Qle_bool_iff.
Qed.

Lemma elem_of_where_from {A} (p : A → bool) (s : Z) (l : list A) (i : Z) :
  i ∈ np.where_from p s l ↔
  ∃ (k : nat) x, l !! k = Some x ∧ p x = true ∧ i = s + Z.of_nat k.
Proof.
  revert s. induction l as [|a l IH]; intros s; simpl.
  - split; [by intros ?%elem_of_nil|]. by intros (k & x & ? & _).
  - destruct (p a) eqn:Hpa.
    + rewrite elem_of_cons, IH. split.
      * intros [->|(k & x & Hk & Hx & ->)].
        -- exists 0%nat, a. split_and!; [done..|lia].
        -- exists (S k), x. split_and!; [done..|lia].
      * intros ([|k] & x & Hk & Hx & ->); simpl in Hk.
        -- left. lia.
        -- right. exists k, x. split_and!; [done..|lia].
    + rewrite IH. split.
      * intros (k & x & Hk & Hx & ->). exists (S k), x. split_and!; [done..|lia].
      * intros ([|k] & x & Hk & Hx & ->); simpl in Hk.
        -- congruence.
        -- exists k, x. split_and!; [done..|lia].
Qed.

Lemma elem_of_where_ {A} (p : A → bool) (l : list A) (i : Z) :
  i ∈ np.where_ p l ↔ ∃ (k : nat) x, l !! k = Some x ∧ p x = true ∧ i = Z.of_nat k.
Proof. unfold np.where_. by rewrite elem_of_where_from. Qed.

Lemma where_from_head {A} (p : A → bool) (s : Z) (l : list A) i0 rest :
  np.where_from p s l = i0 :: rest →
  ∃ (k : nat) x, i0 = s + Z.of_nat k ∧ l !! k = Some x ∧ p x = true ∧
    ∀ (j : nat) y, (j < k)%nat → l !! j = Some y → p y = false.
Proof.
  revert s. induction l as [|a l IH]; intros s; simpl; [done|].
  destruct (p a) eqn:Hpa.
  - intros [= <- _]. exists 0%nat, a. split_and!; [lia|done..|]. intros; lia.
  - intros H. destruct (IH _ H) as (k & x & -> & Hk & Hx & Hmin).
    exists (S k), x. split_and!; [lia|done..|].
    intros [|j] y Hj; simpl; [congruence|]. apply Hmin. lia.
Qed.

Lemma where_from_nil {A} (p : A → bool) (s : Z) (l : list A) :
  np.where_from p s l = [] ↔ ∀ (k : nat) x, l !! k = Some x → p x = false.
Proof.
  split.
  - intros H k x Hk. destruct (p x) eqn:Hp; [|done].
    assert (s + Z.of_nat k ∈ np.where_from p s l) as Hin
      by (apply elem_of_where_from; eauto).
    rewrite H in Hin. by apply elem_of_nil in Hin.
  - intros H. destruct (np.where_from p s l) as [|i0 rest] eqn:E; [done|].
    apply where_from_head in E as (k & x & _ & Hk & Hx & _).
    rewrite (H _ _ Hk) in Hx. done.
Qed.

Lemma norm_index_Ok (n : nat) (i : Z) (k : nat) :
  np.norm_index n i = Ok k ↔
  (k < n)%nat ∧ (i = Z.of_nat k ∨ i = Z.of_nat k - Z.of_nat n).
Proof.
  unfold np.norm_index.
  destruct (0 <=? i) eqn:H0; destruct (i <? Z.of_nat n) eqn:H1; simpl;
    try destruct (- Z.of_nat n <=? i) eqn:H2; try destruct (i <? 0) eqn:H3;
    simpl; split; try (intros [= <-]); try (intros [? [?|?]]);
    try (f_equal); try split; lia.
Qed.

Lemma norm_index_Raise (n : nat) (i : Z) e :
  np.norm_index n i = Raise e ↔
  e = IndexError ∧ ¬ (- Z.of_nat n <= i < Z.of_nat n).
Proof.
  unfold np.norm_index.
  destruct (0 <=? i) eqn:H0; destruct (i <? Z.of_nat n) eqn:H1; simpl;
    try destruct (- Z.of_nat n <=? i) eqn:H2; try destruct (i <? 0) eqn:H3;
    simpl; split; try (intros [= <-]); try (intros [? ?]);
    try split; try done; try lia; try congruence.
Qed.

Lemma setitems_Ok {A} (arr : list A) (idx : list Z) (v : A) arr' :
  np.setitems arr idx v = Ok arr' →
  length arr' = length arr ∧
  ∀ k : nat, (k < length arr)%nat →
    arr' !! k =
      if decide (Z.of_nat k ∈ idx ∨ Z.of_nat k - Z.of_nat (length arr) ∈ idx)
      then Some v else arr !! k.
Proof.
  revert arr. induction idx as [|i idx IH]; intros arr; simpl.
  - intros [= <-]. split; [done|]. intros k Hk.
    done.
  - intros H. apply bind_Ok in H as (k0 & Hk0 & H).
    destruct (IH _ H) as (Hlen & Hget).
    rewrite length_insert in Hlen, Hget. split; [done|].
    intros k Hk. rewrite (Hget k Hk).
    apply norm_index_Ok in Hk0 as [Hk0 Hi].
    destruct (decide (Z.of_nat k ∈ idx ∨ Z.of_nat k - Z.of_nat (length arr) ∈ idx))
      as [Hin|Hout].
    + rewrite decide_True; [done|]. destruct Hin; [left|right]; by right.
    + destruct (decide (k0 = k)) as [->|Hne].
      * rewrite decide_True; [by apply list_lookup_insert_eq|].
        destruct Hi as [->| ->]; [left|right]; by left.
      * rewrite decide_False; [by apply list_lookup_insert_ne|].
        rewrite !elem_of_cons. intros [[?|?]|[?|?]]; try tauto; lia.
Qed.

Lemma setitems_is_Ok {A} (arr : list A) (idx : list Z) (v : A) :
  (∀ i, i ∈ idx → - Z.of_nat (length arr) <= i < Z.of_nat (length arr)) →
  is_Ok (np.setitems arr idx v).
Proof.
  revert arr. induction idx as [|i idx IH]; intros arr Hin; simpl.
  - by eexists.
  - destruct (np.norm_index (length arr) i) as [k|e] eqn:Hk.
    + simpl. apply IH. rewrite length_insert. intros j Hj. apply Hin. by right.
    + apply norm_index_Raise in Hk as [_ Hk]. destruct Hk. apply Hin. by left.
Qed.

Lemma setitems_out_of_range {A} (arr : list A) (idx : list Z) (v : A) :
  (∃ i, i ∈ idx ∧ ¬ (- Z.of_nat (length arr) <= i < Z.of_nat (length arr))) →
  np.setitems arr idx v = Raise IndexError.
Proof.
  revert arr. induction idx as [|i idx IH]; intros arr (j & Hj & Hout); simpl.
  - by apply elem_of_nil in Hj.
  - destruct (np.norm_index (length arr) i) as [k|e'] eqn:Hk; simpl.
    + apply IH. rewrite length_insert. exists j. split; [|done].
      apply elem_of_cons in Hj as [->|Hj]; [|done].
      apply norm_index_Ok in Hk. lia.
    + by apply norm_index_Raise in Hk as [-> _].
Qed.

(** ** The marks of the fit range *)

Lemma lookup_init {A} (l : list A) (j : nat) (x : A) :
  np.init l !! j = Some x ↔ (S j < length l)%nat ∧ l !! j = Some x.
Proof.
  unfold np.init. rewrite lookup_take_Some. split; intros [? ?]; split; try done; lia.
Qed.

Lemma where_init_head (hi : Q) (energy : list Q) i0 rest :
  np.where_ (λ e, Qltb hi e) (np.init energy) = i0 :: rest →
  ∃ j : nat, i0 = Z.of_nat j ∧ first_bin_above hi energy j.
Proof.
  intros H. apply where_from_head in H as (k & x & -> & Hk & Hx & Hmin).
  exists k. split; [lia|]. split.
  - exists x. split; [done|]. by apply Qltb_lt.
  - intros j e Hj He Hlt. apply lookup_init in Hk as [Hk _].
    assert (np.init energy !! j = Some e) as Hje by (apply lookup_init; split; [lia|done]).
    specialize (Hmin j e Hj Hje). apply Qltb_lt in Hlt. congruence.
Qed.

Lemma first_bin_above_unique (hi : Q) (energy : list Q) (j j' : nat) :
  first_bin_above hi energy j → first_bin_above hi energy j' → j = j'.
Proof.
  intros [(e & He & Hlt) Hmin] [(e' & He' & Hlt') Hmin'].
  apply lookup_init in He as [_ He]. apply lookup_init in He' as [_ He'].
  destruct (Nat.lt_trichotomy j j') as [Hc|[Hc|Hc]]; [|done|].
  - destruct (Hmin' j e Hc He Hlt).
  - destruct (Hmin j' e' Hc He' Hlt').
Qed.

Lemma mark_out_of_range_Ok (lo hi : Q) (energy : list Q) (n : nat) :
  length energy = S n →
  (∀ e, energy !! n = Some e → (lo <= e)%Q) →
  ∃ vr, mark_out_of_range lo hi energy (replicate n 0) = Ok vr ∧
    length vr = n ∧
    ∀ i : nat, (i < n)%nat →
      ∃ z, vr !! i = Some z ∧ (z = 0 ∨ z = 1) ∧ (z = 1 ↔ marked lo hi energy i).
Proof.
  intros Hlen Hlast. unfold mark_out_of_range.
  (* the low side *)
  assert (∀ i, i ∈ np.where_ (λ e, Qltb e lo) energy → 0 <= i < Z.of_nat n) as Hlo.
  { intros i (k & x & Hk & Hx & ->)%elem_of_where_.
    apply Qltb_lt in Hx. pose proof (lookup_lt_Some _ _ _ Hk) as Hkn.
    destruct (decide (k = n)) as [->|]; [|lia].
    apply Hlast in Hk. exfalso. by apply (Qlt_not_le _ _ Hx). }
  destruct (setitems_is_Ok (replicate n 0) (np.where_ (λ e, Qltb e lo) energy) 1)
    as [vr1 Hvr1].
  { intros i Hi. rewrite length_replicate. apply Hlo in Hi. lia. }
  rewrite Hvr1. simpl.
  apply setitems_Ok in Hvr1 as [Hlen1 Hget1]. rewrite length_replicate in Hlen1, Hget1.
  (* the high side *)
  set (idx_hi := np.where_ (λ e, Qltb hi e) (np.init energy)) in *.
  assert (∀ i, i ∈ idx_hi → 0 <= i < Z.of_nat n) as Hhi.
  { intros i (k & x & Hk & Hx & ->)%elem_of_where_.
    apply lookup_init in Hk as [Hk _]. lia. }
  set (idx_hi' := match idx_hi with [] => idx_hi | i0 :: _ => np.insert0 idx_hi (i0 - 1) end).
  assert (∀ i, i ∈ idx_hi' → -1 <= i < Z.of_nat n ∧ (n = 0%nat → False)) as Hhi'.
  { subst idx_hi'. destruct idx_hi as [|i0 rest] eqn:E.
    - by intros i ?%elem_of_nil.
    - assert (0 <= i0 < Z.of_nat n) by (apply Hhi; by left).
      intros i [->|Hi]%elem_of_cons; [lia|]. apply Hhi in Hi. lia. }
  destruct (setitems_is_Ok vr1 idx_hi' 1) as [vr2 Hvr2].
  { intros i Hi. rewrite Hlen1. apply Hhi' in Hi. lia. }
  exists vr2. split; [done|].
  apply setitems_Ok in Hvr2 as [Hlen2 Hget2]. rewrite Hlen1 in Hlen2, Hget2.
  split; [done|]. intros i Hi.
  destruct (lookup_lt_is_Some_2 energy i) as [e He]; [lia|].
  rewrite (Hget2 i Hi), (Hget1 i Hi).
  (* membership in the two index arrays, in terms of the edges *)
  assert (Z.of_nat i ∈ np.where_ (λ e, Qltb e lo) energy ↔ (e < lo)%Q) as Hin_lo.
  { rewrite elem_of_where_. split.
    - intros (k & x & Hk & Hx & Heq). assert (k = i) as -> by lia.
      rewrite He in Hk. injection Hk as <-. by apply Qltb_lt.
    - intros Hlt. exists i, e. split_and!; [done| |lia]. by apply Qltb_lt. }
  assert (Z.of_nat i ∈ idx_hi ↔ (hi < e)%Q) as Hin_hi.
  { subst idx_hi. rewrite elem_of_where_. split.
    - intros (k & x & Hk & Hx & Heq). assert (k = i) as -> by lia.
      apply lookup_init in Hk as [_ Hk].
      rewrite He in Hk. injection Hk as <-. by apply Qltb_lt.
    - intros Hlt. exists i, e. split_and!; [|by apply Qltb_lt|lia].
      apply lookup_init. split; [lia|done]. }
  assert (Z.of_nat i ∈ idx_hi' ∨ Z.of_nat i - Z.of_nat n ∈ idx_hi' ↔
          (hi < e)%Q ∨ first_bin_above hi energy (S i) ∨
          (first_bin_above hi energy 0 ∧ S (S i) = length energy)) as Hin_hi'.
  { subst idx_hi'. destruct idx_hi as [|i0 rest] eqn:E.
    - split.
      + intros [Hin|Hin]; [|by apply elem_of_nil in Hin]. left. by apply Hin_hi.
      + intros [Hlt|[Hf|[Hf _]]].
        * left. by apply Hin_hi.
        * destruct Hf as [(x & Hx & Hlt) _]. exfalso.
          pose proof (proj1 (where_from_nil _ _ _) E _ _ Hx) as Hfalse.
          apply Qltb_lt in Hlt. congruence.
        * destruct Hf as [(x & Hx & Hlt) _]. exfalso.
          pose proof (proj1 (where_from_nil _ _ _) E _ _ Hx) as Hfalse.
          apply Qltb_lt in Hlt. congruence.
    - destruct (where_init_head _ _ _ _ E) as (j & -> & Hj).
      unfold np.insert0. rewrite !elem_of_cons. split.
      + intros [[Heq|Hin]|[Heq|Hin]].
        * right; left. by replace (S i) with j by lia.
        * left. by apply Hin_hi, elem_of_cons.
        * right; right. replace j with 0%nat in Hj by lia. split; [done|lia].
        * assert (0 <= Z.of_nat i - Z.of_nat n) by (by apply Hhi, elem_of_cons). lia.
      + intros [Hlt|[Hf|[Hf Hl]]].
        * left; right. apply elem_of_cons. by apply Hin_hi.
        * left; left. rewrite (first_bin_above_unique _ _ _ _ Hj Hf). lia.
        * right; left. rewrite (first_bin_above_unique _ _ _ _ Hj Hf). lia. }
  assert (replicate n 0 !! i = Some 0) as Hrep by (by apply lookup_replicate_2).
  unfold marked.
  destruct (decide (Z.of_nat i ∈ idx_hi' ∨ Z.of_nat i - Z.of_nat n ∈ idx_hi'))
    as [Hd|Hd].
  - exists 1. split_and!; [done|by right|]. split; [|done]. intros _.
    apply Hin_hi' in Hd as [?|[?|?]]; [left; eauto|by right; left|by right; right].
  - destruct (decide (Z.of_nat i ∈ np.where_ (λ e, Qltb e lo) energy ∨
                      Z.of_nat i - Z.of_nat n ∈ np.where_ (λ e, Qltb e lo) energy))
      as [Hd'|Hd'].
    + exists 1. split_and!; [done|by right|]. split; [|done]. intros _.
      destruct Hd' as [Hd'|Hd']; [|apply Hlo in Hd'; lia].
      left. exists e. split; [done|]. left. by apply Hin_lo.
    + exists 0. split_and!; [done|by left|]. split; [done|].
      intros [(e' & He' & Hc)|Hc]; exfalso.
      * rewrite He in He'. injection He' as <-. destruct Hc as [Hc|Hc].
        -- apply Hd'. left. by apply Hin_lo.
        -- apply Hd. apply Hin_hi'. by left.
      * apply Hd. apply Hin_hi'. by right.
Qed.

Lemma mark_out_of_range_Raise (lo hi : Q) (energy : list Q) (n : nat) e :
  length energy = S n →
  energy !! n = Some e → (e < lo)%Q →
  mark_out_of_range lo hi energy (replicate n 0) = Raise IndexError.
Proof.
  intros Hlen He Hlt. unfold mark_out_of_range.
  rewrite setitems_out_of_range; [done|].
  exists (Z.of_nat n). rewrite length_replicate. split; [|lia].
  apply elem_of_where_. exists n, e. split_and!; [done| |done]. by apply Qltb_lt.
Qed.

Lemma zeros_nbins (energy : list Q) (n : nat) :
  length energy = S n → np.zeros (nbins energy) = Ok (replicate n 0).
Proof.
  intros Hlen. unfold np.zeros, nbins. rewrite Hlen.
  replace (Z.of_nat (S n) - 1) with (Z.of_nat n) by lia.
  destruct (Z.of_nat n <? 0) eqn:E; [lia|]. by rewrite Nat2Z.id.
Qed.

Lemma zeros_no_edges : np.zeros (nbins []) = Raise ValueError.
Proof. reflexivity. Qed.

Lemma logical_and_lookup (a b : list Z) :
  length a = length b →
  ∃ m, np.logical_and a b = Ok m ∧ length m = length a ∧
    ∀ (i : nat) x y, a !! i = Some x → b !! i = Some y →
      m !! i = Some (np.truthy x && np.truthy y).
Proof.
  intros Hlen. unfold np.logical_and, np.broadcast2.
  rewrite (proj2 (Nat.eqb_eq _ _) Hlen). eexists. split; [done|].
  split; [rewrite length_zip_with; lia|].
  intros i x y Hx Hy. by rewrite lookup_zip_with, Hx; simpl; rewrite Hy.
Qed.

Lemma truthy_one_minus (z : Z) : np.truthy (1 - z) = false ↔ z = 1.
Proof. unfold np.truthy. rewrite negb_false_iff, Z.eqb_eq. lia. Qed.

(** ** The fit mask of one observation *)

Section Mask.
Context {Aeff Edisp : Type}.
Implicit Types obs : @SpectrumObservation Aeff Edisp.

Lemma quality_array obs (n : nat) :
  length (e_reco obs) = S n → quality_per_bin obs →
  ∃ q, match quality (on_vector obs) with
       | Some q => Ok q
       | None => np.zeros (nbins (e_reco obs))
       end = Ok q ∧ length q = n ∧
       ∀ i : nat, (i < n)%nat → ∃ z, q !! i = Some z ∧ (z = 1 ↔ flagged_bad obs i).
Proof.
  intros Hlen Hq. unfold quality_per_bin, flagged_bad in *.
  destruct (quality (on_vector obs)) as [q|].
  - exists q. split; [done|]. split; [lia|]. intros i Hi.
    destruct (lookup_lt_is_Some_2 q i) as [z Hz]; [lia|]. exists z. split; [done|].
    split.
    + intros ->. eauto.
    + intros (q' & [= <-] & Hq'). congruence.
  - exists (replicate n 0). split; [by apply zeros_nbins|].
    split; [by rewrite length_replicate|]. intros i Hi. exists 0.
    split; [by apply lookup_replicate_2|]. split; [lia|]. by intros (q' & ? & _).
Qed.

(** The mask of one observation, for any axis with at least one edge: the
    computation succeeds, gives one entry per bin, and leaves a bin out
    exactly when the range marks it or its quality flag is 1. *)
Lemma fit_mask_spec (fit_range : option (Q * Q)) obs (n : nat) :
  length (e_reco obs) = S n →
  quality_per_bin obs →
  reaches fit_range (e_reco obs) →
  ∃ mask, _apply_fit_range_obs fit_range obs = Ok mask ∧ length mask = n ∧
    ∀ i : nat, (i < n)%nat →
      ∃ b, mask !! i = Some b ∧
        (b = false ↔ out_of_range fit_range (e_reco obs) i ∨ flagged_bad obs i).
Proof.
  intros Hlen Hq Hreach. unfold _apply_fit_range_obs.
  rewrite (zeros_nbins _ _ Hlen). simpl.
  assert (∃ vr,
    match fit_range with
    | Some (lo, hi) => mark_out_of_range lo hi (e_reco obs) (replicate n 0)
    | None => Ok (replicate n 0)
    end = Ok vr ∧ length vr = n ∧
    ∀ i : nat, (i < n)%nat → ∃ z, vr !! i = Some z ∧
      (z = 1 ↔ out_of_range fit_range (e_reco obs) i)) as (vr & -> & Hvlen & Hvr).
  { destruct fit_range as [[lo hi]|]; simpl in *.
    - destruct (mark_out_of_range_Ok lo hi (e_reco obs) n Hlen) as (vr & ? & ? & Hvr).
      { intros e He. apply Hreach. rewrite last_lookup, Hlen. done. }
      exists vr. split_and!; [done..|]. intros i Hi.
      destruct (Hvr i Hi) as (z & ? & _ & ?). eauto.
    - exists (replicate n 0). split_and!; [done|by rewrite length_replicate|].
      intros i Hi. exists 0. split; [by apply lookup_replicate_2|]. split; [lia|done]. }
  simpl. destruct (quality_array obs n Hlen Hq) as (q & Hqe & Hqlen & Hqs).
  rewrite (zeros_nbins _ _ Hlen) in Hqe. rewrite Hqe. simpl.
  destruct (logical_and_lookup (np.one_minus q) (np.one_minus vr))
    as (m & -> & Hmlen & Hm).
  { unfold np.one_minus. rewrite !length_map. lia. }
  unfold np.one_minus in *. rewrite length_map in Hmlen.
  exists m. split_and!; [done|lia|]. intros i Hi.
  destruct (Hvr i Hi) as (z & Hz & Hzm). destruct (Hqs i Hi) as (y & Hy & Hyb).
  eexists. split.
  - apply Hm; rewrite list_lookup_fmap; [by rewrite Hy|by rewrite Hz].
  - rewrite andb_false_iff, !truthy_one_minus. tauto.
Qed.

(** Without a range and without quality flags every bin is in the mask. *)
Lemma fit_mask_no_range_no_quality obs (n : nat) :
  length (e_reco obs) = S n →
  quality (on_vector obs) = None →
  _apply_fit_range_obs None obs = Ok (replicate n true).
Proof.
  intros Hlen Hq.
  destruct (fit_mask_spec None obs n Hlen) as (mask & -> & Hmlen & Hm).
  { unfold quality_per_bin. by rewrite Hq. }
  { done. }
  f_equal. apply list_eq. intros i.
  destruct (decide (i < n)%nat) as [Hi|Hi].
  - rewrite lookup_replicate_2 by done. destruct (Hm i Hi) as ([|] & Hb & Hiff); [done|].
    destruct (proj1 Hiff eq_refl) as [[]|(q & Hq' & _)]. congruence.
  - rewrite !lookup_ge_None_2; [done|rewrite length_replicate; lia|lia].
Qed.

(** When the whole axis lies below the range the assignment of the low
    side indexes one past the last bin and the setter raises. *)
Lemma fit_mask_range_above_axis (lo hi : Q) obs (n : nat) e :
  length (e_reco obs) = S n →
  last (e_reco obs) = Some e → (e < lo)%Q →
  _apply_fit_range_obs (Some (lo, hi)) obs = Raise IndexError.
Proof.
  intros Hlen He Hlt. unfold _apply_fit_range_obs.
  rewrite (zeros_nbins _ _ Hlen). simpl.
  rewrite last_lookup, Hlen in He. simpl in He.
  by rewrite (mark_out_of_range_Raise lo hi _ n e Hlen He Hlt).
Qed.

End Mask.

(** ** Ordered axes *)

Lemma is_ordered_cons (x : Q) (rest : list Q) :
  is_ordered (x :: rest) = true →
  is_ordered rest = true ∧ ∀ (j : nat) y, rest !! j = Some y → (x <= y)%Q.
Proof.
  revert x. induction rest as [|y rest IH]; intros x H.
  - split; [done|]. intros j y. by rewrite lookup_nil.
  - change (Qle_bool x y && is_ordered (y :: rest) = true) in H.
    apply andb_true_iff in H as [Hxy Hrest]. apply Qle_bool_iff in Hxy.
    split; [done|]. destruct (IH _ Hrest) as [_ Hy].
    intros [|j] z; simpl.
    + by intros [= <-].
    + intros Hz. eapply Qle_trans; [exact Hxy|]. by eapply Hy.
Qed.

Lemma is_ordered_lookup (energy : list Q) (i j : nat) (x y : Q) :
  is_ordered energy = true → (i ≤ j)%nat →
  energy !! i = Some x → energy !! j = Some y → (x <= y)%Q.
Proof.
  revert i j. induction energy as [|a energy IH]; intros i j Hord Hij Hi Hj.
  - by rewrite lookup_nil in Hi.
  - apply is_ordered_cons in Hord as [Hord Hhead].
    destruct i as [|i], j as [|j]; simpl in *; try lia.
    + injection Hi as <-. injection Hj as <-. apply Qle_refl.
    + injection Hi as <-. by eapply Hhead.
    + eapply (IH i j); [done|lia|done..].
Qed.

Section MaskOrdered.
Context {Aeff Edisp : Type}.
Implicit Types obs : @SpectrumObservation Aeff Edisp.

Lemma marked_ordered (lo hi : Q) (energy : list Q) (i : nat) (lower : Q) :
  is_ordered energy = true → energy !! i = Some lower →
  marked lo hi energy i ↔
  (lower < lo)%Q ∨ (hi < lower)%Q ∨ first_bin_above hi energy (S i).
Proof.
  intros Hord Hi. unfold marked. split.
  - intros [(e & He & Hc)|[Hf|[Hf Hl]]].
    + rewrite Hi in He. injection He as <-. tauto.
    + tauto.
    + destruct Hf as [(e0 & He0 & Hlt) _]. apply lookup_init in He0 as [_ He0].
      right; left. eapply Qlt_le_trans; [exact Hlt|].
      eapply (is_ordered_lookup energy 0 i); [done|lia|done..].
  - intros [Hc|[Hc|Hf]]; [left; eauto..|by right; left].
Qed.

(** On an ordered axis a bin that is not the last one is out of range
    exactly when it does not lie within the range. *)
Lemma inner_bin_marked_iff (lo hi : Q) (energy : list Q) (i : nat) lower upper :
  is_ordered energy = true → (S (S i) < length energy)%nat →
  energy !! i = Some lower → energy !! S i = Some upper →
  ¬ marked lo hi energy i ↔ (lo <= lower)%Q ∧ (upper <= hi)%Q.
Proof.
  intros Hord Hi Hl Hu. rewrite (marked_ordered lo hi energy i lower Hord Hl).
  assert (lower <= upper)%Q as Hlu
    by (eapply (is_ordered_lookup energy i (S i)); [done|lia|done..]).
  split.
  - intros Hn. split; [apply Qnot_lt_le; tauto|].
    apply Qnot_lt_le. intros Hlt. apply Hn. right; right. split.
    + exists upper. split; [|done]. apply lookup_init. split; [lia|done].
    + intros k e Hk He Hc. apply Hn. right; left.
      eapply Qlt_le_trans; [exact Hc|].
      eapply (is_ordered_lookup energy k i); [done|lia|done..].
  - intros [Hlo Hhi] [Hc|[Hc|Hc]].
    + by apply (Qlt_not_le _ _ Hc).
    + apply (Qlt_not_le _ _ Hc). by eapply Qle_trans.
    + destruct Hc as [(e & He & Hlt) _]. apply lookup_init in He as [_ He].
      rewrite Hu in He. injection He as <-. by apply (Qlt_not_le _ _ Hlt).
Qed.

(** The last bin is compared by its lower edge only. *)
Lemma last_bin_marked_iff (lo hi : Q) (energy : list Q) (i : nat) lower :
  is_ordered energy = true → S (S i) = length energy →
  energy !! i = Some lower →
  ¬ marked lo hi energy i ↔ (lo <= lower)%Q ∧ (lower <= hi)%Q.
Proof.
  intros Hord Hi Hl. rewrite (marked_ordered lo hi energy i lower Hord Hl).
  split.
  - intros Hn. split; apply Qnot_lt_le; tauto.
  - intros [Hlo Hhi] [Hc|[Hc|Hc]].
    + by apply (Qlt_not_le _ _ Hc).
    + by apply (Qlt_not_le _ _ Hc).
    + destruct Hc as [(e & He & _) _]. apply lookup_init in He as [He _]. lia.
Qed.

Lemma inner_bin_marked_upper (lo hi : Q) (energy : list Q) (i : nat)
    lower upper :
  is_ordered energy = true → (S (S i) < length energy)%nat →
  energy !! i = Some lower → energy !! S i = Some upper →
  marked lo hi energy i ↔ (lower < lo)%Q ∨ (hi < upper)%Q.
Proof.
  intros Hord Hi Hl Hu.
  pose proof (inner_bin_marked_iff lo hi energy i lower upper Hord Hi Hl Hu)
    as Hin.
  split.
  - intros Hm. destruct (Qlt_le_dec lower lo) as [?|Hlo]; [by left|].
    destruct (Qlt_le_dec hi upper) as [?|Hhi]; [by right|].
    exfalso. by apply (proj2 Hin (conj Hlo Hhi)).
  - rewrite (marked_ordered lo hi energy i lower Hord Hl).
    intros [?|Hup]; [by left|].
    destruct (Qlt_le_dec hi lower) as [?|Hle]; [by right; left|].
    right; right. split.
    + exists upper. split; [|done]. apply lookup_init. split; [lia|done].
    + intros k e Hk He Hc. apply (Qlt_not_le _ _ Hc).
      eapply Qle_trans; [|exact Hle].
      eapply (is_ordered_lookup energy k i); [done|lia|done..].
Qed.

(** C2, as amended. With a fit range set, on an ordered axis whose last
    edge is not below the lower bound, the mask is computed and has one entry
    per bin.  It leaves a bin [i] other than the last bin of the axis out
    exactly when its lower edge is below the lower bound, or its lower edge is
    above the upper bound, or it comes just before the first bin whose lower
    edge is above the upper bound (it is the bin that holds the upper bound),
    or it is flagged bad; that is, exactly when its lower edge is below the
    lower bound, or its upper edge is above the upper bound, or it is flagged
    bad. *)
Theorem fit_mask_excluded_iff (lo hi : Q) obs (n : nat) :
  length (e_reco obs) = S n →
  is_ordered (e_reco obs) = true →
  quality_per_bin obs →
  reaches (Some (lo, hi)) (e_reco obs) →
  ∃ mask, _apply_fit_range_obs (Some (lo, hi)) obs = Ok mask ∧ length mask = n ∧
    ∀ (i : nat) lower upper, (S i < n)%nat →
      e_reco obs !! i = Some lower → e_reco obs !! S i = Some upper →
      (mask !! i = Some false ↔
        (lower < lo)%Q ∨ (hi < lower)%Q ∨
        first_bin_above hi (e_reco obs) (S i) ∨ flagged_bad obs i) ∧
      (mask !! i = Some false ↔
        (lower < lo)%Q ∨ (hi < upper)%Q ∨ flagged_bad obs i).
Proof.
  intros Hlen Hord Hq Hreach.
  destruct (fit_mask_spec (Some (lo, hi)) obs n Hlen Hq Hreach)
    as (mask & Hmask & Hmlen & Hm).
  exists mask. split_and!; [done..|]. intros i lower upper Hi Hlower Hupper.
  destruct (Hm i ltac:(lia)) as (b & Hb & Hiff). rewrite Hb. simpl in Hiff.
  split.
  - rewrite (marked_ordered lo hi _ i lower Hord Hlower) in Hiff.
    split.
    + intros [= ->]. destruct (proj1 Hiff eq_refl) as [?|?]; tauto.
    + intros H. f_equal. apply Hiff. tauto.
  - rewrite (inner_bin_marked_upper lo hi _ i lower upper Hord ltac:(lia)
               Hlower Hupper) in Hiff.
    split.
    + intros [= ->]. destruct (proj1 Hiff eq_refl) as [?|?]; tauto.
    + intros H. f_equal. apply Hiff. tauto.
Qed.

(** What holds of the claim that a bin is in the mask if and only if it
    lies within the range and is not flagged: it holds for every bin but the
    last one of the axis. *)
Lemma fit_mask_included_iff_within (lo hi : Q) obs (n : nat) :
  length (e_reco obs) = S n →
  is_ordered (e_reco obs) = true →
  quality_per_bin obs →
  reaches (Some (lo, hi)) (e_reco obs) →
  ∃ mask, _apply_fit_range_obs (Some (lo, hi)) obs = Ok mask ∧ length mask = n ∧
    ∀ i : nat, (S i < n)%nat →
      (mask !! i = Some true ↔
        bin_within lo hi (e_reco obs) i ∧ ¬ flagged_bad obs i).
Proof.
  intros Hlen Hord Hq Hreach.
  destruct (fit_mask_spec (Some (lo, hi)) obs n Hlen Hq Hreach)
    as (mask & Hmask & Hmlen & Hm).
  exists mask. split_and!; [done..|]. intros i Hi.
  destruct (Hm i) as (b & Hb & Hiff); [lia|]. rewrite Hb. simpl in Hiff.
  destruct (lookup_lt_is_Some_2 (e_reco obs) i) as [lower Hl]; [lia|].
  destruct (lookup_lt_is_Some_2 (e_reco obs) (S i)) as [upper Hu]; [lia|].
  pose proof (inner_bin_marked_iff lo hi (e_reco obs) i lower upper Hord
                ltac:(lia) Hl Hu) as Hin.
  unfold bin_within. split.
  - intros [= ->].
    assert (¬ marked lo hi (e_reco obs) i) as Hnm
      by (intros Hmk; discriminate (proj2 Hiff (or_introl Hmk))).
    destruct (proj1 Hin Hnm) as [Hlo Hhi]. split.
    + by exists lower, upper.
    + intros Hbad. discriminate (proj2 Hiff (or_intror Hbad)).
  - intros [(l & u & Hl' & Hu' & Hlo & Hhi) Hnb]. f_equal.
    rewrite Hl in Hl'. injection Hl' as <-. rewrite Hu in Hu'. injection Hu' as <-.
    destruct b; [done|]. exfalso.
    destruct (proj1 Hiff eq_refl) as [Hc|Hc]; [|done]. by apply Hin.
Qed.

End MaskOrdered.

(** ** The true fit range *)

Lemma where_from_last {A} (p : A → bool) (s : Z) (l : list A) i :
  last (np.where_from p s l) = Some i →
  ∃ (k : nat) x, i = s + Z.of_nat k ∧ l !! k = Some x ∧ p x = true ∧
    ∀ (j : nat) y, (k < j)%nat → l !! j = Some y → p y = false.
Proof.
  revert s. induction l as [|a l IH]; intros s; simpl; [done|].
  destruct (np.where_from p (s + 1) l) as [|i1 rest] eqn:Hrest.
  - destruct (p a) eqn:Hpa; [|done]. intros [= <-].
    exists 0%nat, a. split_and!; [lia|done..|].
    intros [|j] y Hj Hy; [lia|]. simpl in Hy.
    by eapply (proj1 (where_from_nil p (s + 1) l) Hrest).
  - intros Hlast.
    assert (last (i1 :: rest) = Some i) as Hl
      by (destruct (p a); [by rewrite last_cons_cons in Hlast|done]).
    rewrite <- Hrest in Hl.
    destruct (IH _ Hl) as (k & x & -> & Hk & Hx & Hmax).
    exists (S k), x. split_and!; [lia|done..|].
    intros [|j] y Hj Hy; [lia|]. simpl in Hy. eapply Hmax; [|done]. lia.
Qed.

Lemma getitem_nat {A} (l : list A) (k : nat) (x : A) :
  l !! k = Some x → np.getitem l (Z.of_nat k) = Ok x.
Proof.
  intros Hk. unfold np.getitem.
  assert (np.norm_index (length l) (Z.of_nat k) = Ok k) as ->.
  { apply norm_index_Ok. split; [by eapply lookup_lt_Some|by left]. }
  simpl. by rewrite Hk.
Qed.

Lemma getitem_last {A} (l : list A) (x : A) :
  last l = Some x → np.getitem l (-1) = Ok x.
Proof.
  intros Hl. unfold np.getitem. rewrite last_lookup in Hl.
  pose proof (lookup_lt_Some _ _ _ Hl) as Hlt.
  assert (np.norm_index (length l) (-1) = Ok (pred (length l))) as ->.
  { apply norm_index_Ok. split; [lia|]. right. lia. }
  simpl. by rewrite Hl.
Qed.

Lemma getitem_nil {A} (i : Z) : np.getitem (@nil A) i = Raise IndexError.
Proof.
  unfold np.getitem. destruct (np.norm_index (length (@nil A)) i) as [k|e] eqn:E.
  - apply norm_index_Ok in E as [E _]. simpl in E. lia.
  - by apply norm_index_Raise in E as [-> _].
Qed.

Section TrueRange.
Context {Aeff Edisp : Type}.
Implicit Types obs : @SpectrumObservation Aeff Edisp.

(** The interval runs from the lower edge of the first bin in the mask to
    the upper edge of the last one; both are edges of the axis. *)
Lemma true_fit_range_obs_edges (mask : list bool) obs (k : nat) :
  (length mask < length (e_reco obs))%nat →
  mask !! k = Some true →
  ∃ (first last : nat) e_min e_max,
    first_included mask first ∧ last_included mask last ∧
    e_reco obs !! first = Some e_min ∧ e_reco obs !! S last = Some e_max ∧
    true_fit_range_obs mask obs = Ok (e_min, e_max).
Proof.
  intros Hlen Hk. unfold true_fit_range_obs.
  set (idx := np.where_ (λ b : bool, b) mask).
  assert (Z.of_nat k ∈ idx) as Hin by (apply elem_of_where_; eauto).
  destruct idx as [|i0 rest] eqn:Hidx; [by apply elem_of_nil in Hin|].
  destruct (where_from_head _ _ _ _ _ Hidx) as (f & x & Hf & Hfx & Hx & Hmin).
  destruct (last (i0 :: rest)) as [i1|] eqn:Hlast;
    [|by apply last_None in Hlast].
  pose proof Hlast as Hlast'. rewrite <- Hidx in Hlast'.
  destruct (where_from_last _ _ _ _ Hlast') as (l & y & Hl & Hly & Hy & Hmax).
  simpl in Hx, Hy, Hf, Hl. subst x y.
  pose proof (lookup_lt_Some _ _ _ Hfx) as Hflt.
  pose proof (lookup_lt_Some _ _ _ Hly) as Hllt.
  destruct (lookup_lt_is_Some_2 (e_reco obs) f) as [e_min Hmin_e]; [lia|].
  destruct (lookup_lt_is_Some_2 (e_reco obs) (S l)) as [e_max Hmax_e]; [lia|].
  exists f, l, e_min, e_max. split_and!; [| |done..|].
  - split; [done|]. intros j Hj.
    destruct (lookup_lt_is_Some_2 mask j) as [b Hb]; [lia|].
    rewrite Hb. f_equal. by eapply Hmin.
  - split; [done|]. intros j Hj Hb. by specialize (Hmax j true Hj Hb).
  - assert (np.getitem (i0 :: rest) 0 = Ok i0) as ->
      by (by apply (getitem_nat (i0 :: rest) 0)).
    simpl.
    rewrite (getitem_last (i0 :: rest) i1 Hlast). simpl.
    replace i0 with (Z.of_nat f) by lia. rewrite (getitem_nat _ _ _ Hmin_e). simpl.
    replace (i1 + 1) with (Z.of_nat (S l)) by lia.
    by rewrite (getitem_nat _ _ _ Hmax_e).
Qed.

(** A mask without any bin has no true fit range: the property raises. *)
Lemma true_fit_range_obs_empty (mask : list bool) obs :
  (∀ (i : nat) b, mask !! i = Some b → b = false) →
  true_fit_range_obs mask obs = Raise IndexError.
Proof.
  intros Hall. unfold true_fit_range_obs, np.where_.
  rewrite (proj2 (where_from_nil (λ b : bool, b) 0 mask)) by done.
  by rewrite getitem_nil.
Qed.

End TrueRange.

Section TrueRangeWithin.
Context {Aeff Edisp : Type}.
Implicit Types obs : @SpectrumObservation Aeff Edisp.

Lemma mask_Ok_reaches (lo hi : Q) obs (n : nat) mask :
  length (e_reco obs) = S n →
  _apply_fit_range_obs (Some (lo, hi)) obs = Ok mask →
  reaches (Some (lo, hi)) (e_reco obs).
Proof.
  intros Hlen Hmask e He. destruct (Qlt_le_dec e lo) as [Hlt|Hle]; [|done].
  by rewrite (fit_mask_range_above_axis lo hi obs n e Hlen He Hlt) in Hmask.
Qed.

(** What holds of the claim that the true fit range lies within the
    requested one: the lower end always does, and the upper end does whenever
    the last bin of the axis is not in the mask. *)
Lemma true_fit_range_within_request (lo hi : Q) obs (n : nat) mask e_min e_max :
  length (e_reco obs) = S n →
  is_ordered (e_reco obs) = true →
  quality_per_bin obs →
  _apply_fit_range_obs (Some (lo, hi)) obs = Ok mask →
  true_fit_range_obs mask obs = Ok (e_min, e_max) →
  (lo <= e_min)%Q ∧ (e_min <= hi)%Q ∧ (lo <= e_max)%Q ∧
  (mask !! pred n = Some false → (e_max <= hi)%Q).
Proof.
  intros Hlen Hord Hq Hmask Htrue.
  pose proof (mask_Ok_reaches lo hi obs n mask Hlen Hmask) as Hreach.
  destruct (fit_mask_spec (Some (lo, hi)) obs n Hlen Hq Hreach)
    as (mask' & Hmask' & Hmlen & Hm).
  rewrite Hmask in Hmask'. injection Hmask' as <-.
  assert (∃ k : nat, mask !! k = Some true) as [k Hk].
  { destruct (decide (true ∈ mask)) as [Hin|Hnin].
    - by apply list_elem_of_lookup in Hin.
    - rewrite true_fit_range_obs_empty in Htrue; [done|].
      intros i [|] Hi; [|done]. destruct Hnin. by eapply list_elem_of_lookup_2. }
  destruct (true_fit_range_obs_edges mask obs k) as
    (f & l & e_min' & e_max' & [Hf _] & [Hl _] & Hfe & Hle & Heq); [lia|done|].
  rewrite Heq in Htrue. injection Htrue as -> ->.
  pose proof (lookup_lt_Some _ _ _ Hf) as Hfn.
  pose proof (lookup_lt_Some _ _ _ Hl) as Hln. rewrite Hmlen in Hfn, Hln.
  assert (∀ i : nat, mask !! i = Some true → ¬ marked lo hi (e_reco obs) i) as Hin.
  { intros i Hi Hmk. assert (i < n)%nat as Hlt
      by (rewrite <- Hmlen; by eapply lookup_lt_Some).
    destruct (Hm i Hlt) as (b & Hb & Hiff). rewrite Hi in Hb. injection Hb as <-.
    discriminate (proj2 Hiff (or_introl Hmk)). }
  (* the bounds on the lower edge of an included bin *)
  assert (∀ (i : nat) lower, mask !! i = Some true → e_reco obs !! i = Some lower →
            (lo <= lower)%Q ∧ (lower <= hi)%Q) as Hlower.
  { intros i lower Hi Hlow. specialize (Hin i Hi).
    rewrite (marked_ordered lo hi _ i lower Hord Hlow) in Hin.
    split; apply Qnot_lt_le; tauto. }
  destruct (lookup_lt_is_Some_2 (e_reco obs) l) as [low_l Hlow_l]; [lia|].
  destruct (Hlower f e_min Hf Hfe) as [? ?].
  destruct (Hlower l low_l Hl Hlow_l) as [? ?].
  assert (low_l <= e_max)%Q
    by (eapply (is_ordered_lookup (e_reco obs) l (S l)); [done|lia|done..]).
  split_and!; [done|done|by eapply Qle_trans|].
  intros Hlastbin. destruct (decide (S l = n)) as [<-|Hne].
  - simpl in Hlastbin. congruence.
  - apply (inner_bin_marked_iff lo hi (e_reco obs) l low_l e_max Hord); [lia|done..|].
    by apply Hin.
Qed.

End TrueRangeWithin.

(** ** Restricting the statistic to the mask *)

Lemma broadcast2_pairs {A B C} (f : A → B → C) (xs : list A) (ys : list B) :
  np.broadcast2 f xs ys =
  pairs ← np.broadcast2 pair xs ys; Ok (map (λ p, f p.1 p.2) pairs).
Proof.
  unfold np.broadcast2. destruct (length xs =? length ys)%nat; simpl.
  - f_equal. revert ys. induction xs as [|x xs IH]; intros [|y ys]; simpl; [done..|].
    f_equal. apply IH.
  - destruct xs as [|x [|x' xs]], ys as [|y [|y' ys]]; simpl; try done;
      f_equal; by rewrite ?map_map.
Qed.

Lemma broadcast2_pair_fst {A B} (xs : list A) (ys : list B) pairs :
  np.broadcast2 pair xs ys = Ok pairs →
  ∀ (i : nat) x p, xs !! i = Some x → pairs !! i = Some p → p.1 = x.
Proof.
  unfold np.broadcast2. destruct (length xs =? length ys)%nat.
  - intros [= <-] i x p Hx. rewrite lookup_zip_with, Hx. simpl.
    destruct (ys !! i); simpl; [|done]. by intros [= <-].
  - destruct xs as [|x0 [|x' xs]], ys as [|y [|y' ys]]; simpl; try done;
      intros [= <-] i x p Hx Hp.
    + by rewrite lookup_nil in Hp.
    + destruct i as [|i]; simpl in *; [simplify_eq; reflexivity|by destruct i].
    + destruct i as [|i]; simpl in *; [simplify_eq; reflexivity|by destruct i].
    + change (((λ a, (a, y)) <$> (x0 :: x' :: xs)) !! i = Some p) in Hp.
      rewrite list_lookup_fmap, Hx in Hp. simpl in Hp. simplify_eq. reflexivity.
Qed.

Lemma np_sum_cons (x : R) (xs : list R) : np_sum (x :: xs) = (x + np_sum xs)%R.
Proof. reflexivity. Qed.

Lemma sum_where_filter (pairs : list (bool * R)) :
  np_sum (map (λ p : bool * R, if p.1 then p.2 else 0%R) pairs) =
  np_sum (map snd (filter (λ p : bool * R, p.1 = true) pairs)).
Proof.
  induction pairs as [|[b x] pairs IH]; [done|].
  rewrite map_cons, np_sum_cons, IH. destruct b.
  - rewrite filter_cons_True by done. by rewrite map_cons, np_sum_cons.
  - rewrite filter_cons_False by done. apply Rplus_0_l.
Qed.

(** Restricting one statistic array to a mask: the entries at the bins that
    are not in the mask are 0 and the sum is the sum over the bins in it. *)
Lemma where_or_zero_spec (mask : list bool) (raw v : list R) :
  where_or_zero mask raw = Ok v →
  (∀ (i : nat) x, mask !! i = Some false → v !! i = Some x → x = 0%R) ∧
  ∃ inc, included_values mask raw = Ok inc ∧ np_sum v = np_sum inc.
Proof.
  unfold where_or_zero, included_values. rewrite broadcast2_pairs.
  intros (pairs & Hpairs & [= <-])%bind_Ok. rewrite Hpairs. simpl. split.
  - intros i x Hi. rewrite list_lookup_fmap.
    destruct (pairs !! i) as [p|] eqn:Hp; simpl; [|done]. intros [= <-].
    by rewrite (broadcast2_pair_fst _ _ _ Hpairs i false p Hi Hp).
  - eexists. split; [done|]. apply sum_where_filter.
Qed.

(** ** The heap of model objects *)

Lemma model_copy_Ok (h h1 : gmap loc pyobj) (m m' : loc) :
  model_copy h m = Ok (h1, m') →
  ∃ cls p vals p',
    h !! m = Some (ModelObj cls p) ∧ h !! p = Some (ParamsObj vals) ∧
    h !! p' = None ∧ h !! m' = None ∧ p' ≠ m' ∧
    h1 = <[m' := ModelObj cls p']> (<[p' := ParamsObj vals]> h).
Proof.
  unfold model_copy. intros H.
  destruct (h !! m) as [[cls p|]|] eqn:Hm; try done.
  destruct (h !! p) as [[|vals]|] eqn:Hp; try done.
  injection H as <- <-.
  set (p' := fresh (dom h)).
  set (m' := fresh (dom (<[p' := ParamsObj vals]> h))).
  assert (h !! p' = None) as Hp' by (apply not_elem_of_dom, is_fresh).
  assert (<[p' := ParamsObj vals]> h !! m' = None) as Hm'
    by (apply not_elem_of_dom, is_fresh).
  assert (p' ≠ m') as Hne by (intros Heq; rewrite <- Heq, lookup_insert_eq in Hm'; done).
  rewrite lookup_insert_ne in Hm' by done.
  exists cls, p, vals, p'. done.
Qed.

Lemma getitem_Ok_nat {A} (l : list A) (i : Z) (x : A) :
  0 <= i → np.getitem l i = Ok x → l !! Z.to_nat i = Some x.
Proof.
  intros Hi. unfold np.getitem. intros (k & Hk & H)%bind_Ok.
  apply norm_index_Ok in Hk as [Hk [->| ->]]; [|lia].
  rewrite Nat2Z.id. by destruct (l !! k); simplify_eq.
Qed.

(** ** Assembling the results *)

Section Results.
Context {Aeff Edisp : Type}.
Implicit Types self : @SpectrumFit Aeff Edisp.

Lemma make_fit_result_from_spec (todo : list SpectrumObservation) :
  ∀ (idx : Z) (h : gmap loc pyobj) self h' self',
  make_fit_result_from idx todo h self = Ok (h', self') →
  ∃ rs, self' = set_result self (result self ++ rs) ∧ length rs = length todo ∧
    (∀ l o, h !! l = Some o → h' !! l = Some o) ∧
    ∀ (k : nat) r, rs !! k = Some r →
      todo !! k = Some (res_obs r) ∧
      res_statname r = stat self ∧
      (∃ sv, subscript (statval self) (idx + Z.of_nat k) = Ok sv ∧
             res_statval r = np_sum sv) ∧
      subscript (predicted_counts self) (idx + Z.of_nat k) = Ok (res_npred r) ∧
      (∃ ranges, true_fit_range self = Ok ranges ∧
                 np.getitem ranges (idx + Z.of_nat k) = Ok (res_fit_range r)) ∧
      h !! res_model r = None ∧
      ∃ cls p vals,
        read_model h (model self) = Some (cls, vals) ∧
        h' !! res_model r = Some (ModelObj cls p) ∧
        h' !! p = Some (ParamsObj vals) ∧ h !! p = None.
Proof.
  induction todo as [|obs todo IH]; intros idx h self h' self'; simpl.
  - intros [= <- <-]. exists []. split_and!; [|done..|].
    + destruct self; unfold set_result; simpl. by rewrite app_nil_r.
    + intros k r. by rewrite lookup_nil.
  - intros H. apply bind_Ok in H as ([h1 m'] & Hcopy & H).
    apply bind_Ok in H as (ranges & Hranges & H).
    apply bind_Ok in H as (fr & Hfr & H).
    apply bind_Ok in H as (sv & Hsv & H).
    apply bind_Ok in H as (npred & Hnpred & H). simpl in H.
    apply model_copy_Ok in Hcopy as
      (cls & p & vals & p' & Hm & Hp & Hp' & Hm' & Hne & ->).
    set (h1 := <[m' := ModelObj cls p']> (<[p' := ParamsObj vals]> h)) in *.
    assert (∀ l o, h !! l = Some o → h1 !! l = Some o) as Hsub.
    { intros l o Hl. subst h1.
      rewrite !lookup_insert_ne; [done|congruence|congruence]. }
    destruct (IH _ _ _ _ _ H) as (rs & -> & Hlen & Hsub' & Hrs).
    eexists (_ :: rs). split_and!.
    + unfold append_result, set_result. simpl. by rewrite <- app_assoc.
    + simpl. by rewrite Hlen.
    + eauto.
    + intros [|k] r; simpl.
      * intros [= <-]. simpl. split_and!; [done|done| | | | |].
        -- exists sv. by rewrite Z.add_0_r.
        -- by rewrite Z.add_0_r.
        -- exists ranges. by rewrite Z.add_0_r.
        -- done.
        -- exists cls, p', vals. split_and!; [|apply Hsub'..|done].
           ++ unfold read_model. by rewrite Hm, Hp.
           ++ subst h1. apply lookup_insert_eq.
           ++ subst h1. rewrite lookup_insert_ne by done. apply lookup_insert_eq.
      * intros Hk. destruct (Hrs k r Hk) as
          (Hobs & Hname & (sv' & Hsv' & Hval) & Hnp & (rg & Hrg & Hrg') & Hfresh &
           cls' & q & vals' & Hread & Hq1 & Hq2 & Hq3).
        replace (idx + Z.of_nat (S k)) with (idx + 1 + Z.of_nat k) by lia.
        split_and!; [done|done|by exists sv'|done|by exists rg| |].
        -- destruct (h !! res_model r) eqn:E; [|done]. apply Hsub in E. congruence.
        -- exists cls', q, vals'. split_and!; [|done|done|].
           ++ unfold read_model in *. simpl in Hread.
              rewrite Hm, Hp. rewrite (Hsub _ _ Hm), (Hsub _ _ Hp) in Hread. done.
           ++ destruct (h !! q) eqn:E; [|done]. apply Hsub in E. congruence.
Qed.

End Results.

(** ** The value of [ln 10] *)

Section Ln10.
Local Open Scope R_scope.

Lemma ln_le_mono (x y : R) : 0 < x → x <= y → ln x <= ln y.
Proof.
  intros Hx [Hlt| ->]; [|apply Rle_refl]. left. by apply ln_increasing.
Qed.

Lemma ln_le_minus_1 (y : R) : 0 < y → ln y <= y - 1.
Proof.
  intros Hy. pose proof (exp_ineq1_le (ln y)) as H. rewrite exp_ln in H by done. lra.
Qed.

Lemma ln_ge_1_minus_inv (y : R) : 0 < y → 1 - / y <= ln y.
Proof.
  intros Hy. pose proof (ln_le_minus_1 (/ y) (Rinv_0_lt_compat _ Hy)) as H.
  rewrite ln_Rinv in H by done. lra.
Qed.

Lemma ln_square (x : R) : 0 < x → ln (x * x) = 2 * ln x.
Proof. intros Hx. rewrite ln_mult by done. lra. Qed.

Lemma scale_pos : 0 < IZR scale.
Proof. apply IZR_lt. reflexivity. Qed.

Lemma fix_pos (a : Z) : (0 < a)%Z → 0 < IZR a / IZR scale.
Proof.
  intros Ha. apply Rdiv_lt_0_compat; [by apply IZR_lt|apply scale_pos].
Qed.

Lemma fix_square (b : Z) :
  (IZR b / IZR scale) * (IZR b / IZR scale) =
  IZR (b * b) / IZR scale / IZR scale.
Proof. rewrite mult_IZR. pose proof scale_pos. by field_simplify; [|lra..]. Qed.

Lemma up_root_spec (a : Z) :
  (0 < a)%Z → (0 < up_root a)%Z ∧ (a * scale <= up_root a * up_root a)%Z.
Proof.
  intros Ha. unfold up_root.
  assert (0 <= a * scale)%Z as Hn by (unfold scale; lia).
  pose proof (Z.sqrt_spec _ Hn) as [_ H]. pose proof (Z.sqrt_nonneg (a * scale)).
  unfold Z.succ in H. split; lia.
Qed.

Lemma down_root_spec (a : Z) :
  (scale <= a)%Z → (scale <= down_root a)%Z ∧ (down_root a * down_root a <= a * scale)%Z.
Proof.
  intros Ha. unfold down_root.
  assert (0 <= a * scale)%Z as Hn by (unfold scale in *; lia).
  pose proof (Z.sqrt_spec _ Hn) as [H _]. split; [|lia].
  replace scale with (Z.sqrt (scale * scale)) at 1
    by (apply Z.sqrt_square; unfold scale; lia).
  apply Z.sqrt_le_mono. unfold scale in *. nia.
Qed.

Lemma ln_up_root (a : Z) :
  (0 < a)%Z → ln (IZR a / IZR scale) <= 2 * ln (IZR (up_root a) / IZR scale).
Proof.
  intros Ha. destruct (up_root_spec a Ha) as [Hpos Hsq].
  rewrite <- ln_square by (by apply fix_pos).
  apply ln_le_mono; [by apply fix_pos|]. rewrite fix_square.
  pose proof scale_pos as Hs. apply IZR_le in Hsq. rewrite mult_IZR in Hsq.
  apply (Rmult_le_reg_r (IZR scale)); [done|].
  replace (IZR (up_root a * up_root a) / IZR scale / IZR scale * IZR scale)
    with (IZR (up_root a * up_root a) / IZR scale) by (field; lra).
  apply (Rmult_le_reg_r (IZR scale)); [done|].
  replace (IZR a / IZR scale * IZR scale * IZR scale) with (IZR a * IZR scale)
    by (field; lra).
  replace (IZR (up_root a * up_root a) / IZR scale * IZR scale)
    with (IZR (up_root a * up_root a)) by (field; lra).
  exact Hsq.
Qed.

Lemma ln_down_root (a : Z) :
  (scale <= a)%Z → 2 * ln (IZR (down_root a) / IZR scale) <= ln (IZR a / IZR scale).
Proof.
  intros Ha. destruct (down_root_spec a Ha) as [Hpos Hsq].
  assert (0 < down_root a)%Z as Hd by (unfold scale in *; lia).
  rewrite <- ln_square by (by apply fix_pos).
  apply ln_le_mono.
  { apply Rmult_lt_0_compat; by apply fix_pos. }
  rewrite fix_square.
  pose proof scale_pos as Hs. apply IZR_le in Hsq. rewrite !mult_IZR in Hsq.
  apply (Rmult_le_reg_r (IZR scale)); [done|].
  replace (IZR (down_root a * down_root a) / IZR scale / IZR scale * IZR scale)
    with (IZR (down_root a * down_root a) / IZR scale) by (field; lra).
  apply (Rmult_le_reg_r (IZR scale)); [done|].
  replace (IZR a / IZR scale * IZR scale * IZR scale) with (IZR a * IZR scale)
    by (field; lra).
  replace (IZR (down_root a * down_root a) / IZR scale * IZR scale)
    with (IZR (down_root a * down_root a)) by (field; lra).
  by rewrite mult_IZR.
Qed.

Lemma ln_iter_up (k : nat) (a : Z) :
  (0 < a)%Z →
  ln (IZR a / IZR scale) <= 2 ^ k * ln (IZR (iter_root up_root k a) / IZR scale).
Proof.
  revert a. induction k as [|k IH]; intros a Ha; simpl.
  - lra.
  - pose proof (ln_up_root a Ha) as H1.
    pose proof (IH (up_root a) (proj1 (up_root_spec a Ha))) as H2. lra.
Qed.

Lemma ln_iter_down (k : nat) (a : Z) :
  (scale <= a)%Z →
  2 ^ k * ln (IZR (iter_root down_root k a) / IZR scale) <= ln (IZR a / IZR scale).
Proof.
  revert a. induction k as [|k IH]; intros a Ha; simpl.
  - lra.
  - pose proof (ln_down_root a Ha) as H1.
    pose proof (IH (down_root a) (proj1 (down_root_spec a Ha))) as H2. lra.
Qed.

Lemma ln_10_bounds : 2.30225 < ln 10 < 2.30275.
Proof.
  assert (10 = IZR (10 * scale) / IZR scale) as Hten.
  { rewrite mult_IZR. pose proof scale_pos. field. lra. }
  split.
  - pose proof (ln_iter_down 15 (10 * scale) ltac:(unfold scale; lia)) as H.
    rewrite <- Hten in H.
    replace (iter_root down_root 15 (10 * scale)) with ln10_lower_root in H
      by (vm_compute; reflexivity).
    assert (0 < IZR ln10_lower_root / IZR scale) as Hpos
      by (apply fix_pos; reflexivity).
    pose proof (ln_ge_1_minus_inv _ Hpos) as H1.
    eapply Rlt_le_trans; [|exact H].
    eapply Rlt_le_trans; [|apply Rmult_le_compat_l; [|exact H1]].
    + unfold ln10_lower_root, scale. lra.
    + lra.
  - pose proof (ln_iter_up 15 (10 * scale) ltac:(unfold scale; lia)) as H.
    rewrite <- Hten in H.
    replace (iter_root up_root 15 (10 * scale)) with ln10_upper_root in H
      by (vm_compute; reflexivity).
    assert (0 < IZR ln10_upper_root / IZR scale) as Hpos
      by (apply fix_pos; reflexivity).
    pose proof (ln_le_minus_1 _ Hpos) as H1.
    eapply Rle_lt_trans; [exact H|].
    eapply Rle_lt_trans; [apply Rmult_le_compat_l; [|exact H1]|].
    + lra.
    + unfold ln10_upper_root, scale. lra.
Qed.

End Ln10.

(** ** The constructor *)

Section Constructor.
Context {Aeff Edisp : Type}.
Implicit Types obs : @SpectrumObservation Aeff Edisp.
Implicit Types self : @SpectrumFit Aeff Edisp.

Lemma init_Ok (arg : obs_arg) (model : loc) (stat : string) (ff : bool)
    (fit_range : option (Q * Q)) (method err : string) self :
  __init__ arg model stat ff fit_range method err = Ok self →
  ∃ l bins,
    (arg = ArgObservationList l ∨ ∃ obs, arg = ArgObservation obs ∧ l = [obs]) ∧
    masks_of fit_range l = Ok bins ∧
    self = {| obs_list := l; model := model; stat := stat; forward_folded := ff;
              _fit_range := fit_range; _bins_in_fit_range := bins;
              method := method; err_method := method;
              predicted_counts := None; statval := None;
              covar_axis := None; covariance := None; result := [] |}.
Proof.
  unfold __init__. destruct arg as [obs|l|v]; simpl; [| |done].
  - intros (bins & Hbins & [= <-])%bind_Ok. exists [obs], bins.
    split_and!; [right; by exists obs|done..].
  - intros (bins & Hbins & [= <-])%bind_Ok. exists l, bins.
    split_and!; [by left|done..].
Qed.

(** C9. A single observation is wrapped into a list of one element, so
    that constructing from the observation and from the list holding just it
    give the same outcome, and on success the fit holds that list; any input
    that is neither an observation nor an observation list raises
    [ValueError], whatever the other arguments are. *)
Theorem init_wraps_single_observation obs (model : loc) (stat : string)
    (ff : bool) (fit_range : option (Q * Q)) (method err : string) :
  __init__ (ArgObservation obs) model stat ff fit_range method err =
    __init__ (ArgObservationList [obs]) model stat ff fit_range method err ∧
  (∀ self, __init__ (ArgObservation obs) model stat ff fit_range method err = Ok self →
           obs_list self = [obs]) ∧
  (∀ v, @__init__ Aeff Edisp (ArgOther v) model stat ff fit_range method err =
          Raise ValueError).
Proof.
  split_and!; [done| |done].
  intros self (l & bins & [[= <-]|(obs' & [= <-] & ->)] & _ & ->)%init_Ok; done.
Qed.

(** C10. The [err_method] argument is ignored: the outcome of the
    constructor does not depend on it, and the attribute of the constructed
    fit equals [method]. *)
Theorem err_method_argument_is_ignored (arg : @obs_arg Aeff Edisp) (model : loc)
    (stat : string) (ff : bool) (fit_range : option (Q * Q)) (meth err : string) :
  (∀ err', __init__ arg model stat ff fit_range meth err' =
           __init__ arg model stat ff fit_range meth err) ∧
  (∀ self, __init__ arg model stat ff fit_range meth err = Ok self →
           err_method self = meth ∧ method self = meth).
Proof.
  split; [done|].
  by intros self (l & bins & _ & _ & ->)%init_Ok.
Qed.

End Constructor.

(** ** Evaluating the statistic *)

Section Statistic.
Context {Aeff Edisp : Type}.
Variable wstat : list R → list R → R → list R → outcome (list R).
Implicit Types obs : @SpectrumObservation Aeff Edisp.
Implicit Types self : @SpectrumFit Aeff Edisp.

Lemma calc_statval_Ok self self' :
  calc_statval wstat self = Ok self' →
  ∃ pcs raw rs,
    predicted_counts self = Some pcs ∧
    mapM (λ p, _calc_statval_helper wstat self p.1 p.2) (zip (obs_list self) pcs)
      = Ok raw ∧
    mapM (λ p : list R * list bool, where_or_zero p.2 p.1)
      (zip raw (_bins_in_fit_range self)) = Ok rs ∧
    self' = set_statval self rs.
Proof.
  unfold calc_statval. destruct (predicted_counts self) as [pcs|]; [|done].
  intros (raw & Hraw & H)%bind_Ok. unfold _restrict_statval in H. simpl in H.
  apply bind_Ok in H as (rs & Hrs & [= <-]). by exists pcs, raw, rs.
Qed.

(** C5. After [calc_statval] each observation has its restricted statistic
    array: it comes from the statistic of that observation and its mask,
    every entry at a bin that is not in the mask is 0, and its sum is the sum
    over the bins in the mask; that sum is the statistic value which
    [_make_fit_result] records for the observation: when it succeeds it
    appends one result per observation, and the result of observation [k]
    holds the sum of the restricted array [k]. *)
Theorem excluded_bins_contribute_zero self self' :
  calc_statval wstat self = Ok self' →
  ∃ pcs rs,
    predicted_counts self = Some pcs ∧ statval self' = Some rs ∧
    length rs = Nat.min (Nat.min (length (obs_list self)) (length pcs))
                        (length (_bins_in_fit_range self)) ∧
    (∀ (k : nat) v, rs !! k = Some v →
      ∃ obs pc mask unrestricted,
        obs_list self !! k = Some obs ∧ pcs !! k = Some pc ∧
        _bins_in_fit_range self' !! k = Some mask ∧
        _calc_statval_helper wstat self obs pc = Ok unrestricted ∧
        (∀ (i : nat) x, mask !! i = Some false → v !! i = Some x → x = 0%R) ∧
        ∃ inc, included_values mask unrestricted = Ok inc ∧
               np_sum v = np_sum inc) ∧
    (∀ h h' self'', _make_fit_result h self' = Ok (h', self'') →
      length (result self'')
      = (length (result self') + length (obs_list self'))%nat ∧
      length rs = length (obs_list self') ∧
      (∀ (k : nat) v, rs !! k = Some v →
        ∃ r, result self'' !! (length (result self') + k)%nat = Some r ∧
             res_statval r = np_sum v) ∧
      ∀ (k : nat) r, result self'' !! (length (result self') + k)%nat = Some r →
        ∃ v, rs !! k = Some v ∧ res_statval r = np_sum v).
Proof.
  intros (pcs & raw & rs & Hpcs & Hraw & Hrs & ->)%calc_statval_Ok.
  exists pcs, rs. split_and!; [done|done| | |].
  - apply mapM_Ok_lookup in Hraw as [Hrawlen _].
    apply mapM_Ok_lookup in Hrs as [Hrslen _].
    rewrite Hrslen, length_zip, Hrawlen, length_zip. done.
  - intros k v Hv.
    apply mapM_Ok_lookup in Hraw as [Hrawlen Hraw].
    apply mapM_Ok_lookup in Hrs as [Hrslen Hrs].
    destruct (lookup_lt_is_Some_2 (zip raw (_bins_in_fit_range self)) k)
      as [[u mask] Hk]; [rewrite <- Hrslen; by eapply lookup_lt_Some|].
    destruct (Hrs k _ Hk) as (v' & Hv' & Hw). rewrite Hv in Hv'. injection Hv' as <-.
    apply lookup_zip_with_Some in Hk as (u' & mask' & [= <- <-] & Hu & Hmask).
    destruct (lookup_lt_is_Some_2 (zip (obs_list self) pcs) k)
      as [[obs pc] Hop]; [rewrite <- Hrawlen; by eapply lookup_lt_Some|].
    destruct (Hraw k _ Hop) as (u' & Hu' & Hhelper). rewrite Hu in Hu'.
    injection Hu' as <-.
    apply lookup_zip_with_Some in Hop as (obs' & pc' & [= <- <-] & Hobs & Hpc).
    simpl in Hw, Hhelper. destruct (where_or_zero_spec _ _ _ Hw) as [Hzero Hsum].
    exists obs, pc, mask, u. split_and!; done.
  - intros h h' self'' Hres. unfold _make_fit_result in Hres.
    apply make_fit_result_from_spec in Hres as (new & -> & Hnewlen & _ & Hnew).
    simpl in Hnewlen.
    assert (∀ (k : nat) r, new !! k = Some r →
              ∃ v, rs !! k = Some v ∧ res_statval r = np_sum v) as Hrec.
    { intros k r Hr.
      destruct (Hnew k r Hr) as (_ & _ & (sv & Hsv & Hval) & _).
      simpl in Hsv. exists sv. split; [|done].
      apply getitem_Ok_nat in Hsv; [|lia].
      by rewrite Z.add_0_l, Nat2Z.id in Hsv. }
    assert (length rs = length (obs_list self)) as Hrslen.
    { apply Nat.le_antisymm.
      - apply mapM_Ok_lookup in Hraw as [Hrawlen _].
        apply mapM_Ok_lookup in Hrs as [Hrslen _].
        rewrite Hrslen, length_zip, Hrawlen, length_zip. lia.
      - destruct (decide (length (obs_list self) ≤ length rs)%nat) as [?|Hn];
          [done|].
        destruct (lookup_lt_is_Some_2 new (length rs)) as [r Hr]; [lia|].
        destruct (Hrec _ r Hr) as (v & Hv%lookup_lt_Some & _). lia. }
    simpl. split_and!.
    + rewrite length_app. lia.
    + done.
    + intros k v Hv.
      destruct (lookup_lt_is_Some_2 new k) as [r Hr];
        [rewrite Hnewlen, <- Hrslen; by eapply lookup_lt_Some|].
      exists r. rewrite lookup_app_r by lia.
      replace (length (result self) + k - length (result self))%nat with k by lia.
      split; [done|]. destruct (Hrec k r Hr) as (v' & Hv' & ->). congruence.
    + intros k r Hr. rewrite lookup_app_r in Hr by lia.
      replace (length (result self) + k - length (result self))%nat with k
        in Hr by lia.
      by apply Hrec.
Qed.

Lemma cash_per_bin (n_on mu_on : list R) :
  length n_on = length mu_on →
  ∃ sv, cash n_on mu_on = Ok sv ∧ length sv = length mu_on ∧
    ∀ (i : nat) n mu, n_on !! i = Some n → mu_on !! i = Some mu →
      sv !! i = Some (2 * (mu - n * ln mu))%R.
Proof.
  intros Hlen. unfold cash, np.broadcast2.
  rewrite (proj2 (Nat.eqb_eq _ _) Hlen). eexists. split; [done|].
  split; [rewrite length_zip_with; lia|].
  intros i n mu Hn Hmu. by rewrite lookup_zip_with, Hn; simpl; rewrite Hmu.
Qed.

Lemma cash_bin_10_10 : (-26.055 < cash_bin 10 10 < -26.045)%R.
Proof. unfold cash_bin. pose proof ln_10_bounds. lra. Qed.

(** C4. With the Cash statistic the evaluator returns [stats.cash] of the
    observed and the predicted counts, bin by bin the value
    [2 * (mu - n*ln(mu))], which for [n = mu = 10] is
    [2 * (10 - 10*ln(10))], that is -26.05 to two decimals; and the statistic
    of any fit object is a function of the statistic name and of the counts
    alone: two fits with the same statistic name and two observations with
    the same counts and scaling get the same array for the same prediction. *)
Theorem cash_statistic_per_bin self obs (prediction : list R) :
  stat self = "cash" →
  _calc_statval_helper wstat self obs prediction
    = cash (data (on_vector obs)) prediction ∧
  (length (data (on_vector obs)) = length prediction →
    ∃ sv, _calc_statval_helper wstat self obs prediction = Ok sv ∧
      length sv = length prediction ∧
      ∀ (i : nat) n mu, data (on_vector obs) !! i = Some n →
        prediction !! i = Some mu → sv !! i = Some (2 * (mu - n * ln mu))%R) ∧
  (cash [10%R] [10%R] = Ok [(2 * (10 - 10 * ln 10))%R] ∧
   (-26.055 < 2 * (10 - 10 * ln 10) < -26.045)%R) ∧
  (∀ self2 obs2, stat self2 = stat self →
     data (on_vector obs2) = data (on_vector obs) →
     data (off_vector obs2) = data (off_vector obs) →
     alpha obs2 = alpha obs →
     _calc_statval_helper wstat self2 obs2 prediction =
     _calc_statval_helper wstat self obs prediction).
Proof.
  intros Hstat.
  assert (_calc_statval_helper wstat self obs prediction
          = cash (data (on_vector obs)) prediction) as Hcash
    by (unfold _calc_statval_helper; by rewrite Hstat).
  split; [done|]. split; [|split].
  - intros Hlen. rewrite Hcash. by apply cash_per_bin.
  - split; [done|apply cash_bin_10_10].
  - intros self2 obs2 Hs Hon Hoff Halpha. unfold _calc_statval_helper.
    by rewrite Hs, Hon, Hoff, Halpha.
Qed.

(** C7, as amended. A statistic name other than ['cash'] and ['wstat'] is
    not checked by the constructor, which stores it and succeeds exactly when
    it does for a supported name; it is rejected where the statistic of an
    observation is computed, so that [calc_statval] raises
    [NotImplementedError] exactly when predicted counts are there for at
    least one observation, and raises [TypeError] when no counts have been
    predicted yet. *)
Theorem unsupported_statistic_rejected_at_evaluation (name : string) :
  name ≠ "cash" → name ≠ "wstat" →
  (∀ (arg : @obs_arg Aeff Edisp) model ff fit_range meth err,
     (is_Ok (__init__ arg model name ff fit_range meth err) ↔
      is_Ok (__init__ arg model "wstat" ff fit_range meth err)) ∧
     ∀ self, __init__ arg model name ff fit_range meth err = Ok self →
       stat self = name ∧ predicted_counts self = None) ∧
  (∀ self obs prediction, stat self = name →
     _calc_statval_helper wstat self obs prediction = Raise NotImplementedError) ∧
  (∀ self, stat self = name →
     (calc_statval wstat self = Raise NotImplementedError ↔
      ∃ pcs, predicted_counts self = Some pcs ∧ pcs ≠ [] ∧ obs_list self ≠ []) ∧
     (predicted_counts self = None → calc_statval wstat self = Raise TypeError)).
Proof.
  intros Hcash Hwstat.
  assert (∀ self obs prediction, stat self = name →
    _calc_statval_helper wstat self obs prediction = Raise NotImplementedError)
    as Hhelper.
  { intros self obs prediction <-. unfold _calc_statval_helper.
    rewrite (proj2 (String.eqb_neq _ _) Hcash).
    by rewrite (proj2 (String.eqb_neq _ _) Hwstat). }
  split_and!; [|done|].
  - intros arg model ff fit_range meth err. split.
    + unfold __init__. destruct arg as [obs|l|v]; [apply is_Ok_bind_Ok..|done].
    + by intros self (l & bins & _ & _ & ->)%init_Ok.
  - intros self Hstat. unfold calc_statval. split.
    + destruct (predicted_counts self) as [pcs|]; [|split; [done|by intros (? & ? & _)]].
      destruct (obs_list self) as [|obs l] eqn:Hl, pcs as [|pc pcs]; simpl.
      * split; [done|by intros (? & ? & ? & ?)].
      * split; [done|by intros (? & ? & ? & ?)].
      * split; [done|by intros (? & [= <-] & ? & ?)].
      * rewrite (Hhelper self obs pc Hstat). simpl. split; [|done].
        intros _. by exists (pc :: pcs).
    + by intros ->.
Qed.

End Statistic.

(** ** Predicting counts *)

Section Prediction.
Context {Aeff Edisp Unit : Type}.
Variable is_equivalent : Unit → string → bool.
Variable calculate_predicted_counts :
  string * gmap string R → R → Aeff → Edisp → list Q → outcome (@Quantity Unit).
Variable integral :
  string * gmap string R → list Q → list Q → outcome (@Quantity Unit).
Implicit Types obs : @SpectrumObservation Aeff Edisp.
Implicit Types self : @SpectrumFit Aeff Edisp.

(** C6. Once the model has been evaluated for an observation, the
    prediction succeeds, with the plain values, if and only if the unit of the
    counts is equivalent to counts or to the dimensionless unit; with any
    other unit it raises ([ValueError]), and so does the prediction for the
    whole list of observations. *)
Theorem prediction_requires_count_unit (h : gmap loc pyobj) self obs m counts :
  read_model h (model self) = Some m →
  (if forward_folded self
   then calculate_predicted_counts m (livetime obs) (aeff obs) (edisp obs) (e_reco obs)
   else integral m (np.init (e_reco obs)) (drop 1 (e_reco obs))) = Ok counts →
  let helper :=
    _predict_counts_helper is_equivalent calculate_predicted_counts integral in
  let counts_unit :=
    is_equivalent (q_unit counts) "ct" = true ∨
    is_equivalent (q_unit counts) "" = true in
  (is_Ok (helper h self obs) ↔ counts_unit) ∧
  (counts_unit → helper h self obs = Ok (q_value counts)) ∧
  (¬ counts_unit →
     helper h self obs = Raise ValueError ∧
     (obs ∈ obs_list self →
      ¬ is_Ok (predict_counts is_equivalent calculate_predicted_counts integral
                 h self))).
Proof.
  intros Hm Heval helper counts_unit.
  assert (helper h self obs = check_count_unit is_equivalent counts) as Hhelper.
  { subst helper. unfold _predict_counts_helper. rewrite Hm.
    destruct (forward_folded self); by rewrite Heval. }
  unfold check_count_unit in Hhelper. subst counts_unit.
  destruct (is_equivalent (q_unit counts) "ct" || is_equivalent (q_unit counts) "")
    eqn:Hcond; rewrite Hhelper.
  - apply orb_true_iff in Hcond. split_and!; [|done|done].
    split; [done|]. intros _. by eexists.
  - apply orb_false_iff in Hcond as [H1 H2].
    assert (¬ (is_equivalent (q_unit counts) "ct" = true
               ∨ is_equivalent (q_unit counts) "" = true)) as Hno
      by (intros [?|?]; congruence).
    split_and!.
    + split; [by intros [? ?]|done].
    + done.
    + intros _. split; [done|]. intros Hin [self' Hp]. unfold predict_counts in Hp.
      apply bind_Ok in Hp as (pcs & Hpcs & _).
      apply mapM_Ok_lookup in Hpcs as [_ Hpcs].
      apply list_elem_of_lookup in Hin as [k Hk].
      destruct (Hpcs k obs Hk) as (y & _ & Hy).
      fold helper in Hy. rewrite Hhelper in Hy. done.
Qed.

End Prediction.

(** ** Snapshots of the model *)

Lemma set_parameter_Ok (h h'' : gmap loc pyobj) (m : loc) (name : string) (v : R) :
  set_parameter h m name v = Ok h'' →
  ∃ cls p vals, h !! m = Some (ModelObj cls p) ∧ h !! p = Some (ParamsObj vals) ∧
    h'' = <[p := ParamsObj (<[name := v]> vals)]> h.
Proof.
  unfold set_parameter. intros H.
  destruct (h !! m) as [[cls p|]|] eqn:Hm; try done.
  destruct (h !! p) as [[|vals]|] eqn:Hp; try done.
  injection H as <-. by exists cls, p, vals.
Qed.

Lemma set_parameter_snapshot (h h'' : gmap loc pyobj) (live m : loc)
    (name : string) (v : R) :
  snapshot_of h live m →
  set_parameter h live name v = Ok h'' →
  read_model h'' m = read_model h m.
Proof.
  intros (cls & p & vals & Hm & Hp & Hne) (cls0 & p0 & vals0 & Hl & Hp0 & ->)%set_parameter_Ok.
  unfold read_model.
  rewrite lookup_insert_ne by congruence. rewrite Hm.
  rewrite lookup_insert_ne; [done|]. intros <-. by apply (Hne cls0 p0).
Qed.

Lemma set_parameter_live (h h'' : gmap loc pyobj) (live : loc)
    (name : string) (v : R) :
  set_parameter h live name v = Ok h'' →
  ∃ cls vals, read_model h live = Some (cls, vals) ∧
    read_model h'' live = Some (cls, <[name := v]> vals).
Proof.
  intros (cls0 & p0 & vals0 & Hl & Hp0 & ->)%set_parameter_Ok.
  exists cls0, vals0. unfold read_model.
  rewrite lookup_insert_ne by congruence. rewrite Hl, Hp0, lookup_insert_eq. done.
Qed.

Section Snapshot.
Context {Aeff Edisp : Type}.
Implicit Types self : @SpectrumFit Aeff Edisp.

(** C8. The model of every result is a copy. When the results held so far
    have snapshots of their own, [_make_fit_result] keeps that and stores one
    new result per observation, each with a snapshot that reads as the live
    model does at that moment; assigning a parameter of the live model
    afterwards changes what the live model reads as and leaves the class and
    the parameter values of the model of every result as they were. *)
Theorem result_snapshot_is_a_copy (h h' : gmap loc pyobj) self self' :
  detached h self →
  _make_fit_result h self = Ok (h', self') →
  model self' = model self ∧
  detached h' self' ∧
  length (result self') = (length (result self) + length (obs_list self))%nat ∧
  (∀ (k : nat) obs, obs_list self !! k = Some obs →
     ∃ r, result self' !! (length (result self) + k)%nat = Some r ∧
       res_obs r = obs ∧
       snapshot_of h' (model self') (res_model r) ∧
       is_Some (read_model h (model self)) ∧
       read_model h' (res_model r) = read_model h (model self)) ∧
  (∀ (k : nat) r, result self' !! (length (result self) + k)%nat = Some r →
     is_Some (read_model h (model self)) ∧
     read_model h' (res_model r) = read_model h (model self)) ∧
  ∀ name v h'', set_parameter h' (model self') name v = Ok h'' →
    (∀ r, r ∈ result self' →
       read_model h'' (res_model r) = read_model h' (res_model r)) ∧
    ∃ cls vals, read_model h' (model self') = Some (cls, vals) ∧
      read_model h'' (model self') = Some (cls, <[name := v]> vals).
Proof.
  intros Hdet Hres. unfold _make_fit_result in Hres.
  pose proof Hres as Hspec.
  apply make_fit_result_from_spec in Hspec as (rs & Hself & Hlen & Hsub & Hrs).
  assert (rs = [] → h' = h) as Hnone.
  { intros ->. destruct (obs_list self) eqn:E; [|done].
    simpl in Hres. by injection Hres. }
  assert (rs ≠ [] → ∃ cls p vals,
            h !! model self = Some (ModelObj cls p) ∧
            h !! p = Some (ParamsObj vals)) as Hlive.
  { destruct rs as [|r0 rs]; [done|]. intros _.
    destruct (Hrs 0%nat r0 eq_refl) as (_ & _ & _ & _ & _ & _ &
      cls0 & p' & vals0 & Hread & _).
    unfold read_model in Hread.
    destruct (h !! model self) as [[cls2 p2|]|]; try done.
    destruct (h !! p2) as [[|vals2]|] eqn:Hp2; try done. eauto. }
  subst self'. simpl.
  assert (detached h' (set_result self (result self ++ rs))) as Hdet'.
  { intros r Hr. simpl in Hr. apply elem_of_app in Hr as [Hr|Hr].
    - destruct (decide (rs = [])) as [Hnil|Hcons].
      + rewrite (Hnone Hnil). by apply Hdet.
      + destruct (Hlive Hcons) as (cls0 & p0 & vals0 & Hl & Hp0).
        destruct (Hdet r Hr) as (cls & p & vals & Hm & Hp & Hne).
        exists cls, p, vals. split_and!; [by apply Hsub..|].
        intros cls1 p1 Hl'. simpl in Hl'. rewrite (Hsub _ _ Hl) in Hl'.
        injection Hl' as <- <-.
        by eapply Hne.
    - apply list_elem_of_lookup in Hr as [k Hk].
      destruct (Hlive ltac:(by intros ->)) as (cls0 & p0 & vals0 & Hl & Hp0).
      destruct (Hrs k r Hk) as (_ & _ & _ & _ & _ & _ &
        cls1 & p' & vals1 & _ & Hm' & Hp' & Hfresh).
      exists cls1, p', vals1. split_and!; [done..|].
      intros cls2 p2 Hl' ->. simpl in Hl'. rewrite (Hsub _ _ Hl) in Hl'.
      injection Hl' as <- <-.
      congruence. }
  assert (∀ (k : nat) r, rs !! k = Some r →
            is_Some (read_model h (model self)) ∧
            read_model h' (res_model r) = read_model h (model self)) as Hsnap.
  { intros k r Hr.
    destruct (Hrs k r Hr) as (_ & _ & _ & _ & _ & _ &
      cls0 & p' & vals0 & Hread & Hm' & Hp' & _).
    split; [by rewrite Hread|]. rewrite Hread. unfold read_model.
    by rewrite Hm', Hp'. }
  split_and!; [done|done| | | |].
  - rewrite length_app. lia.
  - intros k obs Hobs.
    destruct (lookup_lt_is_Some_2 rs k) as [r Hr];
      [rewrite Hlen; by eapply lookup_lt_Some|].
    exists r. rewrite lookup_app_r by lia.
    replace (length (result self) + k - length (result self))%nat with k by lia.
    destruct (Hrs k r Hr) as (Hko & _).
    destruct (Hsnap k r Hr) as [Hsome Hread].
    split_and!; [done| |  |done|done].
    + rewrite Hobs in Hko. by injection Hko.
    + apply (Hdet' r). simpl. apply elem_of_app. right.
      by eapply list_elem_of_lookup_2.
  - intros k r Hr. rewrite lookup_app_r in Hr by lia.
    replace (length (result self) + k - length (result self))%nat with k in Hr by lia.
    by apply (Hsnap k).
  - intros name v h'' Hset. split.
    + intros r Hr. eapply set_parameter_snapshot; [|done]. by apply Hdet'.
    + by eapply set_parameter_live.
Qed.

End Snapshot.

(** ** The claims on concrete observations *)

(** C1 (the code departs from the claim). With the range from 1 to 2.5 on
    the axis with edges 1, 2, 3 the mask keeps the last bin, from 2 to 3,
    although that bin does not lie within the range; on the axis with edges
    1, 2, 3, 4 the same bin, no longer the last one, is left out. *)
Theorem last_bin_across_upper_bound_stays_in_mask :
  _apply_fit_range_obs (Some (1, 5 # 2)%Q) obs_two_bins = Ok [true; true] ∧
  ¬ bin_within 1 (5 # 2) (e_reco obs_two_bins) 1 ∧
  _apply_fit_range_obs (Some (1, 5 # 2)%Q) obs_three_bins
    = Ok [true; false; false].
Proof.
  split_and!; [reflexivity| |reflexivity].
  intros (lower & upper & Hl & Hu & _ & Hhi). simpl in Hu. injection Hu as <-.
  by apply Qle_bool_iff in Hhi.
Qed.

(** C2 (counterexample). With the range from 1.5 to 3 on the axis with
    edges 1, 2, 3 the mask leaves out bin 0, from 1 to 2, which the rule as
    stated keeps: its upper edge is not below 1.5, its lower edge is not above
    3, it is not flagged and no bin has its lower edge above 3. *)
Lemma spec_exclusion_rule_fails_at_lower_bound :
  _apply_fit_range_obs (Some (3 # 2, 3)%Q) obs_two_bins = Ok [false; true] ∧
  ¬ ([false; true] !! 0%nat = Some false ↔ spec_excluded (3 # 2) 3 obs_two_bins 0).
Proof.
  split; [reflexivity|]. intros [H _]. specialize (H eq_refl).
  destruct H as [(upper & Hu & Hlt)|[(lower & Hl & Hlt)|[(q & Hq & _)|Hf]]].
  - simpl in Hu. injection Hu as <-. by apply Qltb_lt in Hlt.
  - simpl in Hl. injection Hl as <-. by apply Qltb_lt in Hlt.
  - done.
  - destruct Hf as [(e & He & Hlt) _]. simpl in He. injection He as <-.
    by apply Qltb_lt in Hlt.
Qed.

Lemma fit_mask_excluded_iff_witness :
  ∃ mask, _apply_fit_range_obs (Some (3 # 2, 7 # 2)%Q) obs_flagged = Ok mask ∧
    length mask = 4%nat ∧
    ∀ (i : nat) lower upper, (S i < 4)%nat →
      e_reco obs_flagged !! i = Some lower →
      e_reco obs_flagged !! S i = Some upper →
      (mask !! i = Some false ↔
        (lower < 3 # 2)%Q ∨ (7 # 2 < lower)%Q ∨
        first_bin_above (7 # 2) (e_reco obs_flagged) (S i) ∨
        flagged_bad obs_flagged i) ∧
      (mask !! i = Some false ↔
        (lower < 3 # 2)%Q ∨ (7 # 2 < upper)%Q ∨ flagged_bad obs_flagged i).
Proof.
  apply (fit_mask_excluded_iff (3 # 2) (7 # 2) obs_flagged 4).
  - reflexivity.
  - reflexivity.
  - reflexivity.
  - intros e He. simpl in He. injection He as <-. unfold Qle. simpl. lia.
Defined.

(** C3 (the code departs from the claim). With the range from 1 to 2.5 on
    the axis with edges 1, 2, 3 the true fit range runs from 1 to 3: its
    upper end is an edge of the axis but lies above the requested 2.5. *)
Theorem true_fit_range_beyond_requested_range :
  _apply_fit_range_obs (Some (1, 5 # 2)%Q) obs_two_bins = Ok [true; true] ∧
  true_fit_range_obs [true; true] obs_two_bins = Ok (1, 3)%Q ∧
  ¬ (3 <= 5 # 2)%Q.
Proof.
  split_and!; [reflexivity..|]. intros H. by apply Qle_bool_iff in H.
Qed.

Lemma cash_statistic_per_bin_witness :
  _calc_statval_helper sample_wstat (sample_fit "cash") obs_two_bins [10; 4]%R
  = Ok [(2 * (10 - 10 * ln 10))%R; (2 * (4 - 3 * ln 4))%R].
Proof.
  destruct (cash_statistic_per_bin sample_wstat (sample_fit "cash") obs_two_bins
              [10; 4]%R eq_refl) as [H _].
  rewrite H. reflexivity.
Defined.

Lemma excluded_bins_contribute_zero_witness :
  ∃ self' rs v h' self'' r,
    calc_statval sample_wstat (sample_fit "cash") = Ok self' ∧
    statval self' = Some rs ∧ rs !! 0%nat = Some v ∧
    _make_fit_result sample_heap self' = Ok (h', self'') ∧
    result self'' !! 0%nat = Some r ∧ res_statval r = np_sum v.
Proof.
  destruct (calc_statval sample_wstat (sample_fit "cash")) as [self'|e] eqn:E;
    [|vm_compute in E; discriminate E].
  destruct (excluded_bins_contribute_zero sample_wstat (sample_fit "cash") self' E)
    as (pcs & rs & Hpcs & Hrs & Hlen & _ & Hres).
  injection Hpcs as <-.
  destruct rs as [|v rs]; [discriminate Hlen|].
  injection E as E.
  destruct (_make_fit_result sample_heap self') as [[h' self'']|e] eqn:E2;
    [|rewrite <- E in E2; vm_compute in E2; discriminate E2].
  destruct (Hres sample_heap h' self'' E2) as (_ & _ & Hex & _).
  destruct (Hex 0%nat v eq_refl) as (r & Hr & Hval).
  exists self', (v :: rs), v, h', self'', r.
  split_and!; [reflexivity|exact Hrs|reflexivity|exact E2| |exact Hval].
  rewrite <- E in Hr. exact Hr.
Defined.

Lemma prediction_requires_count_unit_witness :
  _predict_counts_helper sample_is_equivalent (sample_folding PerTeV)
    (sample_integral PerTeV) sample_heap (sample_fit "cash") obs_two_bins
  = Raise ValueError ∧
  _predict_counts_helper sample_is_equivalent (sample_folding Counts)
    (sample_integral Counts) sample_heap (sample_fit "cash") obs_two_bins
  = Ok [10; 4]%R.
Proof.
  split.
  - destruct (prediction_requires_count_unit sample_is_equivalent
                (sample_folding PerTeV) (sample_integral PerTeV) sample_heap
                (sample_fit "cash") obs_two_bins _ (sample_counts PerTeV)
                eq_refl eq_refl) as (_ & _ & H).
    apply H. simpl. intros [?|?]; discriminate.
  - destruct (prediction_requires_count_unit sample_is_equivalent
                (sample_folding Counts) (sample_integral Counts) sample_heap
                (sample_fit "cash") obs_two_bins _ (sample_counts Counts)
                eq_refl eq_refl) as (_ & H & _).
    apply H. simpl. left. reflexivity.
Defined.

(** C7 (counterexample). The name ['bogus'] passes the constructor; with no
    counts predicted yet the statistic fails with a [TypeError], not because
    of the name; the counts of the observation are then predicted without any
    error, and only the evaluation of the statistic that follows raises
    [NotImplementedError]. *)
Lemma bogus_statistic_passes_construction_and_prediction :
  ∃ self self1,
    __init__ (ArgObservation obs_two_bins) 1%positive "bogus" true None
      "sherpa" "sherpa" = Ok self ∧
    predicted_counts self = None ∧
    calc_statval sample_wstat self = Raise TypeError ∧
    predict_counts sample_is_equivalent (sample_folding Counts)
      (sample_integral Counts) sample_heap self = Ok self1 ∧
    predicted_counts self1 = Some [[10; 4]%R] ∧
    calc_statval sample_wstat self1 = Raise NotImplementedError.
Proof. eexists _, _. split_and!; reflexivity. Qed.

Lemma unsupported_statistic_rejected_at_evaluation_witness :
  _calc_statval_helper sample_wstat (sample_fit "bogus") obs_two_bins [10; 4]%R
    = Raise NotImplementedError ∧
  calc_statval sample_wstat (sample_fit "bogus") = Raise NotImplementedError.
Proof.
  destruct (unsupported_statistic_rejected_at_evaluation (Aeff := unit)
              (Edisp := unit) sample_wstat "bogus")
    as (_ & Hhelper & Hcalc).
  - discriminate.
  - discriminate.
  - split; [by apply Hhelper|].
    destruct (Hcalc (sample_fit "bogus") eq_refl) as [[_ H] _].
    apply H. exists [[10; 4]%R]. split_and!; [reflexivity|discriminate..].
Defined.

Lemma result_snapshot_is_a_copy_witness :
  ∃ h' self', _make_fit_result sample_heap (sample_fit "cash") = Ok (h', self') ∧
    length (result self') = 1%nat ∧
    (∃ r, result self' !! 0%nat = Some r ∧ res_obs r = obs_two_bins ∧
          read_model h' (res_model r) = read_model sample_heap 1%positive) ∧
    ∀ h'', set_parameter h' (model self') "index" 3%R = Ok h'' →
      ∀ r, r ∈ result self' →
        read_model h'' (res_model r) = read_model h' (res_model r).
Proof.
  destruct (_make_fit_result sample_heap (sample_fit "cash")) as [[h' self']|e] eqn:E;
    [|vm_compute in E; discriminate E].
  exists h', self'.
  assert (detached sample_heap (sample_fit "cash")) as Hdet
    by (intros r Hr; simpl in Hr; by apply elem_of_nil in Hr).
  destruct (result_snapshot_is_a_copy sample_heap h' (sample_fit "cash") self'
              Hdet E) as (_ & _ & Hlen & Hnew & _ & H).
  destruct (Hnew 0%nat obs_two_bins eq_refl) as (r & Hr & Hobs & _ & _ & Hread).
  split_and!; [reflexivity|exact Hlen| |].
  - exists r. split_and!; [exact Hr|exact Hobs|exact Hread].
  - intros h'' Hset. by destruct (H "index" 3%R h'' Hset) as [Hres _].
Defined.

Lemma init_wraps_single_observation_witness :
  ∃ self, __init__ (ArgObservation obs_two_bins) 1%positive "cash" true None
            "sherpa" "sherpa" = Ok self ∧
          obs_list self = [obs_two_bins].
Proof.
  eexists. split; [reflexivity|].
  destruct (init_wraps_single_observation obs_two_bins 1%positive "cash" true None
              "sherpa" "sherpa") as (_ & H & _).
  apply H. reflexivity.
Defined.

Lemma err_method_argument_is_ignored_witness :
  ∃ self, __init__ (ArgObservation obs_two_bins) 1%positive "cash" true None
            "sherpa" "minuit" = Ok self ∧
          err_method self = "sherpa".
Proof.
  eexists. split; [reflexivity|].
  destruct (err_method_argument_is_ignored (ArgObservation obs_two_bins) 1%positive
              "cash" true None "sherpa" "minuit") as (_ & H).
  by destruct (H _ eq_refl) as [He _].
Defined.

(** * Further properties of the fit range *)

Section MaskFurther.
Context {Aeff Edisp : Type}.
Implicit Types obs : @SpectrumObservation Aeff Edisp.

Lemma first_bin_above_narrower (hi hi' : Q) (energy : list Q) (i : nat) lower :
  is_ordered energy = true → (hi' <= hi)%Q →
  energy !! i = Some lower →
  first_bin_above hi energy (S i) →
  (hi' < lower)%Q ∨ first_bin_above hi' energy (S i).
Proof.
  intros Hord Hle Hl [(e & He & Hlt) Hmin].
  destruct (Qlt_le_dec hi' lower) as [Hc|Hc]; [by left|right]. split.
  - exists e. split; [done|]. by eapply Qle_lt_trans.
  - intros k e' Hk He' Hlt'. apply (Qlt_not_le _ _ Hlt').
    eapply Qle_trans; [|exact Hc].
    eapply (is_ordered_lookup energy k i); [done|lia|done..].
Qed.

(** X1. Narrowing the fit range never brings a bin into the mask: when the
    mask is computed for a range, it is computed for every wider range too,
    and each bin of the narrower mask is in the wider one. *)
Theorem fit_mask_narrowing_range (lo hi lo' hi' : Q) obs (n : nat) mask' :
  length (e_reco obs) = S n →
  is_ordered (e_reco obs) = true →
  quality_per_bin obs →
  (lo <= lo')%Q → (hi' <= hi)%Q →
  _apply_fit_range_obs (Some (lo', hi')) obs = Ok mask' →
  ∃ mask, _apply_fit_range_obs (Some (lo, hi)) obs = Ok mask ∧
    length mask = length mask' ∧
    ∀ i : nat, mask' !! i = Some true → mask !! i = Some true.
Proof.
  intros Hlen Hord Hq Hlo Hhi Hmask'.
  pose proof (mask_Ok_reaches lo' hi' obs n mask' Hlen Hmask') as Hreach'.
  assert (reaches (Some (lo, hi)) (e_reco obs)) as Hreach
    by (intros e He; eapply Qle_trans; [exact Hlo|by apply Hreach']).
  destruct (fit_mask_spec _ obs n Hlen Hq Hreach') as (m' & Hm' & Hlen' & Hspec').
  rewrite Hmask' in Hm'. injection Hm' as <-.
  destruct (fit_mask_spec _ obs n Hlen Hq Hreach) as (mask & Hmask & Hlenm & Hspec).
  exists mask. split_and!; [done|lia|]. intros i Hi.
  assert (i < n)%nat as Hin by (rewrite <- Hlen'; by eapply lookup_lt_Some).
  destruct (Hspec i Hin) as (b & Hb & Hiff).
  destruct (Hspec' i Hin) as (b' & Hb' & Hiff').
  rewrite Hi in Hb'. injection Hb' as <-. rewrite Hb. f_equal.
  destruct b; [done|]. exfalso.
  destruct (lookup_lt_is_Some_2 (e_reco obs) i) as [lower Hl]; [lia|].
  assert (out_of_range (Some (lo', hi')) (e_reco obs) i ∨ flagged_bad obs i) as Hout.
  { destruct (proj1 Hiff eq_refl) as [Hmk|Hbad]; [left|by right]. simpl in *.
    apply (marked_ordered lo hi _ i lower Hord Hl) in Hmk.
    apply (marked_ordered lo' hi' _ i lower Hord Hl).
    destruct Hmk as [Hc|[Hc|Hc]].
    - left. by eapply Qlt_le_trans.
    - right; left. by eapply Qle_lt_trans.
    - destruct (first_bin_above_narrower hi hi' _ i lower Hord Hhi Hl Hc); tauto. }
  discriminate (proj2 Hiff' Hout).
Qed.

(** X2. A range only takes bins away from the mask that the quality flags
    alone give. *)
Theorem fit_mask_within_quality_mask (lo hi : Q) obs (n : nat) mask :
  length (e_reco obs) = S n →
  quality_per_bin obs →
  _apply_fit_range_obs (Some (lo, hi)) obs = Ok mask →
  ∃ mask0, _apply_fit_range_obs None obs = Ok mask0 ∧
    length mask0 = length mask ∧
    (∀ i : nat, mask !! i = Some true → mask0 !! i = Some true) ∧
    ∀ i : nat, (i < n)%nat → (mask0 !! i = Some false ↔ flagged_bad obs i).
Proof.
  intros Hlen Hq Hmask.
  pose proof (mask_Ok_reaches lo hi obs n mask Hlen Hmask) as Hreach.
  destruct (fit_mask_spec _ obs n Hlen Hq Hreach) as (m & Hm & Hlenm & Hspec).
  rewrite Hmask in Hm. injection Hm as <-.
  destruct (fit_mask_spec None obs n Hlen Hq I) as (mask0 & Hmask0 & Hlen0 & Hspec0).
  exists mask0. split_and!; [done|lia| |].
  - intros i Hi.
    assert (i < n)%nat as Hin by (rewrite <- Hlenm; by eapply lookup_lt_Some).
    destruct (Hspec i Hin) as (b & Hb & Hiff).
    destruct (Hspec0 i Hin) as (b0 & Hb0 & Hiff0).
    rewrite Hi in Hb. injection Hb as <-. rewrite Hb0. f_equal.
    destruct b0; [done|]. exfalso.
    destruct (proj1 Hiff0 eq_refl) as [[]|Hbad].
    discriminate (proj2 Hiff (or_intror Hbad)).
  - intros i Hin. destruct (Hspec0 i Hin) as (b0 & Hb0 & Hiff0). rewrite Hb0.
    split.
    + intros [= ->]. by destruct (proj1 Hiff0 eq_refl) as [[]|?].
    + intros Hbad. f_equal. apply Hiff0. by right.
Qed.

(** X3. Without quality flags the bins of the mask are consecutive: a bin
    between two bins of the mask is in the mask. *)
Theorem fit_mask_is_contiguous (lo hi : Q) obs (n : nat) mask (i j k : nat) :
  length (e_reco obs) = S n →
  is_ordered (e_reco obs) = true →
  quality (on_vector obs) = None →
  _apply_fit_range_obs (Some (lo, hi)) obs = Ok mask →
  (i ≤ j ≤ k)%nat →
  mask !! i = Some true → mask !! k = Some true → mask !! j = Some true.
Proof.
  intros Hlen Hord Hqn Hmask Hijk Hi Hk.
  assert (quality_per_bin obs) as Hq by (unfold quality_per_bin; by rewrite Hqn).
  pose proof (mask_Ok_reaches lo hi obs n mask Hlen Hmask) as Hreach.
  destruct (fit_mask_spec _ obs n Hlen Hq Hreach) as (m & Hm & Hlenm & Hspec).
  rewrite Hmask in Hm. injection Hm as <-.
  assert (k < n)%nat as Hkn by (rewrite <- Hlenm; by eapply lookup_lt_Some).
  assert (∀ a : nat, (a < n)%nat → mask !! a = Some true →
            ¬ marked lo hi (e_reco obs) a) as Hin.
  { intros a Ha Hma Hmk. destruct (Hspec a Ha) as (b & Hb & Hiff).
    rewrite Hma in Hb. injection Hb as <-.
    discriminate (proj2 Hiff (or_introl Hmk)). }
  destruct (Hspec j ltac:(lia)) as (b & Hb & Hiff). rewrite Hb. f_equal.
  destruct b; [done|]. exfalso.
  destruct (proj1 Hiff eq_refl) as [Hmk|(q & Hq' & _)]; [|congruence]. simpl in Hmk.
  destruct (lookup_lt_is_Some_2 (e_reco obs) i) as [ei Hei]; [lia|].
  destruct (lookup_lt_is_Some_2 (e_reco obs) j) as [ej Hej]; [lia|].
  destruct (lookup_lt_is_Some_2 (e_reco obs) k) as [ek Hek]; [lia|].
  pose proof (Hin i ltac:(lia) Hi) as Hni. pose proof (Hin k Hkn Hk) as Hnk.
  rewrite (marked_ordered lo hi _ i ei Hord Hei) in Hni.
  rewrite (marked_ordered lo hi _ k ek Hord Hek) in Hnk.
  apply (marked_ordered lo hi _ j ej Hord Hej) in Hmk.
  assert (ei <= ej)%Q by (eapply (is_ordered_lookup _ i j); [done|lia|done..]).
  assert (ej <= ek)%Q by (eapply (is_ordered_lookup _ j k); [done|lia|done..]).
  destruct Hmk as [Hc|[Hc|Hc]].
  - apply Hni. left. by eapply Qle_lt_trans.
  - apply Hnk. right; left. by eapply Qlt_le_trans.
  - destruct (decide (j = k)) as [->|Hne]; [tauto|].
    destruct Hc as [(e & He & Hlt) _]. apply lookup_init in He as [_ He].
    apply Hnk. right; left. eapply Qlt_le_trans; [exact Hlt|].
    eapply (is_ordered_lookup _ (S j) k); [done|lia|done..].
Qed.

End MaskFurther.

(** ** More on the error monad *)

Lemma mapM_Ok_pointwise {A B} (f : A → outcome B) (l : list A) (k : list B) :
  length k = length l →
  (∀ (i : nat) x, l !! i = Some x → ∃ y, k !! i = Some y ∧ f x = Ok y) →
  mapM f l = Ok k.
Proof.
  revert k. induction l as [|a l IH]; intros [|b k] Hlen Hall; simpl in *; try done.
  destruct (Hall 0%nat a eq_refl) as (y & [= <-] & ->). simpl.
  rewrite (IH k); [done|lia|]. intros i x Hi. apply (Hall (S i) x Hi).
Qed.

Lemma mapM_Raise {A B} (f : A → outcome B) (l : list A) e :
  mapM f l = Raise e → ∃ x, x ∈ l ∧ f x = Raise e.
Proof.
  induction l as [|a l IH]; simpl; [done|].
  destruct (f a) as [y|e'] eqn:Hfa; simpl.
  - destruct (mapM f l) as [k|e'] eqn:Hl; simpl; [done|].
    intros [= <-]. destruct (IH eq_refl) as (x & Hx & Hfx).
    exists x. split; [by right|done].
  - intros [= <-]. exists a. split; [by left|done].
Qed.

Lemma mapM_not_Ok {A B} (f : A → outcome B) (l : list A) x :
  x ∈ l → ¬ is_Ok (f x) → ¬ is_Ok (mapM f l).
Proof.
  intros Hin Hx [k Hk]. apply mapM_Ok_lookup in Hk as [_ Hk].
  apply list_elem_of_lookup in Hin as [i Hi].
  destruct (Hk i x Hi) as (y & _ & Hy). apply Hx. by exists y.
Qed.

Lemma getitem_Raise {A} (l : list A) (i : Z) e :
  np.getitem l i = Raise e → e = IndexError.
Proof.
  unfold np.getitem. destruct (np.norm_index (length l) i) as [k|e'] eqn:E; simpl.
  - destruct (l !! k); [done|]. by intros [= <-].
  - intros [= <-]. by apply norm_index_Raise in E as [-> _].
Qed.

(** ** The true fit range of the whole fit *)

Section TrueRangeList.
Context {Aeff Edisp : Type}.
Implicit Types obs : @SpectrumObservation Aeff Edisp.
Implicit Types self : @SpectrumFit Aeff Edisp.

Lemma true_fit_range_obs_Raise (mask : list bool) obs e :
  true_fit_range_obs mask obs = Raise e → e = IndexError.
Proof.
  unfold true_fit_range_obs. intros H.
  repeat match type of H with
  | (?m ≫= _) = Raise _ =>
      let E := fresh "E" in
      destruct m eqn:E; simpl in H;
        [|injection H as <-; by eapply getitem_Raise]
  end.
  done.
Qed.

(** X8. The property [true_fit_range] serves every observation or none: it
    raises nothing but [IndexError], and it does raise it, as
    [_make_fit_result] then fails too, as soon as one observation has no bin
    left in its mask. *)
Theorem true_fit_range_needs_a_bin_everywhere self (k : nat) mask obs :
  _bins_in_fit_range self !! k = Some mask →
  obs_list self !! k = Some obs →
  (∀ (i : nat) b, mask !! i = Some b → b = false) →
  true_fit_range self = Raise IndexError ∧
  ∀ h, ¬ is_Ok (_make_fit_result h self).
Proof.
  intros Hmask Hobs Hempty.
  assert (true_fit_range self = Raise IndexError) as Hraise.
  { unfold true_fit_range.
    destruct (mapM _ _) as [ranges|e] eqn:E.
    - apply mapM_Ok_lookup in E as [_ E].
      destruct (E k (mask, obs)) as (y & _ & Hy).
      { by rewrite lookup_zip_with, Hmask; simpl; rewrite Hobs. }
      simpl in Hy. by rewrite true_fit_range_obs_empty in Hy.
    - apply mapM_Raise in E as ([m o] & _ & E). simpl in E.
      by apply true_fit_range_obs_Raise in E as ->. }
  split; [done|]. intros h [[h' self'] Hres]. unfold _make_fit_result in Hres.
  apply make_fit_result_from_spec in Hres as (rs & _ & Hlen & _ & Hrs).
  destruct rs as [|r rs].
  - apply lookup_lt_Some in Hobs. simpl in Hlen. lia.
  - destruct (Hrs 0%nat r eq_refl) as (_ & _ & _ & _ & (ranges & Hranges & _) & _).
    congruence.
Qed.

Lemma true_fit_range_obs_all_bins obs (n : nat) :
  length (e_reco obs) = S (S n) →
  ∃ e0 e1, head (e_reco obs) = Some e0 ∧ last (e_reco obs) = Some e1 ∧
    true_fit_range_obs (replicate (S n) true) obs = Ok (e0, e1).
Proof.
  intros Hlen.
  destruct (true_fit_range_obs_edges (replicate (S n) true) obs 0)
    as (f & l & e_min & e_max & [Hf Hfmin] & [Hl Hlmax] & He0 & He1 & Heq).
  { rewrite length_replicate. lia. }
  { done. }
  assert (f = 0)%nat as ->.
  { destruct f as [|f]; [done|]. by specialize (Hfmin 0%nat ltac:(lia)). }
  assert (l = n) as ->.
  { apply lookup_replicate in Hl as [_ Hl].
    destruct (decide (l = n)) as [|Hne]; [done|]. exfalso.
    apply (Hlmax n); [lia|]. apply lookup_replicate_2. lia. }
  exists e_min, e_max. split_and!; [|by rewrite last_lookup, Hlen|done].
  by rewrite head_lookup.
Qed.

(** X9. A fit constructed without a range from observations without quality
    flags, each with at least one bin, has a true fit range for every
    observation: the whole axis, from its first to its last edge. *)
Theorem true_fit_range_without_restrictions
    (l : list (@SpectrumObservation Aeff Edisp))
    (model : loc) (stat : string) (ff : bool) (meth err : string) :
  (∀ obs, obs ∈ l → quality (on_vector obs) = None ∧
                     (2 ≤ length (e_reco obs))%nat) →
  ∃ self ranges,
    __init__ (ArgObservationList l) model stat ff None meth err = Ok self ∧
    true_fit_range self = Ok ranges ∧ length ranges = length l ∧
    ∀ (k : nat) obs, l !! k = Some obs →
      ∃ e0 e1, head (e_reco obs) = Some e0 ∧ last (e_reco obs) = Some e1 ∧
        ranges !! k = Some (e0, e1).
Proof.
  intros Hall.
  set (all_bins := λ obs : @SpectrumObservation Aeff Edisp,
         replicate (pred (length (e_reco obs))) true).
  set (span := λ obs : @SpectrumObservation Aeff Edisp,
         (default 0%Q (head (e_reco obs)), default 0%Q (last (e_reco obs)))).
  assert (masks_of None l = Ok (map all_bins l)) as Hmasks.
  { apply mapM_Ok_pointwise; [by rewrite length_map|].
    intros i obs Hi. exists (all_bins obs). split.
    - by rewrite list_lookup_fmap, Hi.
    - destruct (Hall obs) as [Hq Hlen]; [by eapply list_elem_of_lookup_2|].
      subst all_bins. simpl.
      destruct (length (e_reco obs)) as [|n] eqn:E; [lia|].
      by apply fit_mask_no_range_no_quality. }
  eexists _, (map span l). split_and!.
  - unfold __init__. rewrite Hmasks. reflexivity.
  - unfold true_fit_range. simpl. apply mapM_Ok_pointwise.
    + rewrite length_zip, !length_map. lia.
    + intros i [mask obs] Hi.
      apply lookup_zip_with_Some in Hi as (m' & o' & [= <- <-] & Hm & Ho).
      rewrite list_lookup_fmap, Ho in Hm. injection Hm as <-.
      exists (span obs). split; [by rewrite list_lookup_fmap, Ho|].
      destruct (Hall obs) as [_ Hlen]; [by eapply list_elem_of_lookup_2|].
      change (true_fit_range_obs (replicate (pred (length (e_reco obs))) true) obs
              = Ok (default 0%Q (head (e_reco obs)), default 0%Q (last (e_reco obs)))).
      destruct (length (e_reco obs)) as [|[|n]] eqn:E; [lia..|].
      destruct (true_fit_range_obs_all_bins obs n E) as (e0 & e1 & He0 & He1 & Heq).
      change (pred (S (S n))) with (S n). by rewrite Heq, He0, He1.
  - by rewrite length_map.
  - intros k obs Hk.
    destruct (Hall obs) as [_ Hlen]; [by eapply list_elem_of_lookup_2|].
    destruct (length (e_reco obs)) as [|[|n]] eqn:E; [lia..|].
    destruct (true_fit_range_obs_all_bins obs n E) as (e0 & e1 & He0 & He1 & _).
    exists e0, e1. split_and!; [done..|].
    rewrite list_lookup_fmap, Hk. subst span. simpl. by rewrite He0, He1.
Qed.

End TrueRangeList.

(** ** Results pile up *)

Section ResultsFurther.
Context {Aeff Edisp : Type}.
Implicit Types obs : @SpectrumObservation Aeff Edisp.
Implicit Types self : @SpectrumFit Aeff Edisp.

Lemma make_fit_result_from_is_Ok (todo : list SpectrumObservation) :
  ∀ (idx : Z) (h : gmap loc pyobj) self ranges,
  is_Some (read_model h (model self)) →
  true_fit_range self = Ok ranges →
  (∀ k : nat, (k < length todo)%nat →
     is_Ok (np.getitem ranges (idx + Z.of_nat k)) ∧
     is_Ok (subscript (statval self) (idx + Z.of_nat k)) ∧
     is_Ok (subscript (predicted_counts self) (idx + Z.of_nat k))) →
  is_Ok (make_fit_result_from idx todo h self).
Proof.
  induction todo as [|obs todo IH]; intros idx h self ranges Hread Hranges Hall.
  - by eexists.
  - simpl. destruct Hread as [[cls vals] Hread]. unfold read_model in Hread.
    destruct (h !! model self) as [[cls' p|]|] eqn:Hm; try done.
    destruct (h !! p) as [[|vals']|] eqn:Hp; try done.
    unfold model_copy. rewrite Hm, Hp. simpl. rewrite Hranges. simpl.
    destruct (Hall 0%nat ltac:(simpl; lia)) as ([fr Hfr] & [sv Hsv] & [np Hnp]).
    rewrite Z.add_0_r in Hfr, Hsv, Hnp. rewrite Hfr, Hsv, Hnp. simpl.
    apply (IH _ _ _ ranges).
    + set (p' := fresh (dom h)).
      set (m' := fresh (dom (<[p' := ParamsObj vals']> h))).
      assert (h !! p' = None) as Hp' by (apply not_elem_of_dom, is_fresh).
      assert (<[p' := ParamsObj vals']> h !! m' = None) as Hm'
        by (apply not_elem_of_dom, is_fresh).
      assert (p' ≠ m') as Hne
        by (intros Heq; rewrite <- Heq, lookup_insert_eq in Hm'; done).
      rewrite lookup_insert_ne in Hm' by done.
      exists (cls', vals'). unfold read_model. simpl.
      rewrite !lookup_insert_ne by congruence. rewrite Hm.
      rewrite !lookup_insert_ne by congruence. by rewrite Hp.
    + done.
    + intros k Hk. specialize (Hall (S k) ltac:(simpl; lia)).
      by replace (idx + 1 + Z.of_nat k) with (idx + Z.of_nat (S k)) by lia.
Qed.

(** X10. [_make_fit_result] appends: the results of earlier calls stay in front,
    one result per observation follows, in the order of the observations,
    each with its observation, its predicted counts and the statistic name;
    and a second call succeeds as the first did and appends as many again. *)
Theorem results_pile_up (h h1 : gmap loc pyobj) self s1 :
  _make_fit_result h self = Ok (h1, s1) →
  (∃ rs pcs, result s1 = result self ++ rs ∧
     length rs = length (obs_list self) ∧
     (obs_list self ≠ [] → predicted_counts self = Some pcs) ∧
     ∀ (k : nat) r, rs !! k = Some r →
       obs_list self !! k = Some (res_obs r) ∧
       pcs !! k = Some (res_npred r) ∧
       res_statname r = stat self) ∧
  ∃ h2 s2, _make_fit_result h1 s1 = Ok (h2, s2) ∧
    length (result s2)
    = (length (result self) + 2 * length (obs_list self))%nat.
Proof.
  intros Hres. unfold _make_fit_result in *.
  pose proof Hres as Hspec.
  apply make_fit_result_from_spec in Hspec as (rs & -> & Hlen & Hsub & Hrs).
  split.
  - exists rs, (default [] (predicted_counts self)). split_and!; [done|done| |].
    + intros Hne. destruct rs as [|r rs].
      { destruct (obs_list self); [done|]. simpl in Hlen. lia. }
      destruct (Hrs 0%nat r eq_refl) as (_ & _ & _ & Hnp & _).
      destruct (predicted_counts self); [done|]. done.
    + intros k r Hk. destruct (Hrs k r Hk) as (Hobs & Hname & _ & Hnp & _).
      split_and!; [done| |done]. unfold subscript in Hnp.
      destruct (predicted_counts self) as [pcs|]; [|done]. simpl.
      apply getitem_Ok_nat in Hnp; [|lia]. by rewrite Z.add_0_l, Nat2Z.id in Hnp.
  - simpl.
    destruct (obs_list self) as [|obs todo] eqn:Hobs.
    { destruct rs; [|done]. simpl. eexists _, _. split; [reflexivity|]. simpl.
      rewrite length_app. simpl. lia. }
    destruct rs as [|r0 rs]; [done|].
    destruct (Hrs 0%nat r0 eq_refl) as
      (_ & _ & _ & _ & (ranges & Hranges & _) & _ & cls & p & vals & Hread & _).
    destruct (make_fit_result_from_is_Ok (obs :: todo) 0 h1
                (set_result self (result self ++ r0 :: rs)) ranges)
      as [[h2 s2] H2].
    + exists (cls, vals). unfold read_model in *. simpl.
      destruct (h !! model self) as [[cls' p'|]|] eqn:Hm; try done.
      destruct (h !! p') as [[|vals']|] eqn:Hp; try done.
      by rewrite (Hsub _ _ Hm), (Hsub _ _ Hp).
    + done.
    + intros k Hk. rewrite <- Hlen in Hk.
      destruct (lookup_lt_is_Some_2 (r0 :: rs) k Hk) as [r Hr].
      destruct (Hrs k r Hr) as (_ & _ & (sv & Hsv & _) & Hnp & (rg & Hrg & Hrg') & _).
      rewrite Hranges in Hrg. injection Hrg as <-.
      split_and!; by eexists.
    + exists h2, s2. split; [done|].
      apply make_fit_result_from_spec in H2 as (rs2 & -> & Hlen2 & _).
      simpl. rewrite !length_app, Hlen2. simpl in *. lia.
Qed.

End ResultsFurther.

(** ** Parameter names *)

Lemma split_on_cons (sep : Ascii.ascii) (s : string) :
  ∃ piece pieces, split_on sep s = piece :: pieces.
Proof.
  induction s as [|c s (piece & pieces & IH)]; simpl; [by eexists _, _|].
  destruct (Ascii.eqb c sep); [by eexists _, _|]. rewrite IH. by eexists _, _.
Qed.

(** [split] and [join] are inverse to each other on the side of the
    string: joining the pieces gives the string back, and no piece holds the
    separator. *)
Theorem split_join_round_trip (sep : Ascii.ascii) (s : string) :
  join_with sep (split_on sep s) = s ∧
  Forall (λ piece, contains_char sep piece = false) (split_on sep s).
Proof.
  induction s as [|c s [IHjoin IHall]]; simpl.
  - split; [done|]. by repeat constructor.
  - destruct (Ascii.eqb c sep) eqn:Hc.
    + apply Ascii.eqb_eq in Hc as ->. split.
      * destruct (split_on_cons sep s) as (piece & pieces & E).
        rewrite E in *.
        change (join_with sep (EmptyString :: piece :: pieces))
          with (String sep (join_with sep (piece :: pieces))).
        by rewrite IHjoin.
      * by constructor.
    + destruct (split_on_cons sep s) as (piece & pieces & E). rewrite E in *.
      split.
      * destruct pieces; simpl in *; by rewrite <- IHjoin.
      * inversion IHall as [|? ? Hpiece Hrest]; subst. constructor; [|done].
        simpl. by rewrite Hc.
Qed.

Lemma split_on_no_sep (sep : Ascii.ascii) (s : string) :
  contains_char sep s = false → split_on sep s = [s].
Proof.
  induction s as [|c s IH]; simpl; [done|].
  intros [Hc Hs]%orb_false_iff. rewrite Hc, (IH Hs). done.
Qed.

Lemma split_on_app_sep (sep : Ascii.ascii) (a b : string) :
  split_on sep (a +:+ String sep b) = split_on sep a ++ split_on sep b.
Proof.
  induction a as [|c a IH]; simpl.
  - by rewrite Ascii.eqb_refl.
  - destruct (Ascii.eqb c sep); [by rewrite IH|]. rewrite IH.
    destruct (split_on_cons sep a) as (piece & pieces & ->). done.
Qed.

(** X15. The name of a parameter as the covariance axis holds it: what follows
    the last dot of the sherpa name, and the whole name when it has no dot. *)
Theorem last_component_strips_prefix (prefix name : string) :
  contains_char "." name = false →
  last_component (prefix +:+ String "." name) = name ∧
  last_component name = name.
Proof.
  intros Hname. unfold last_component.
  rewrite split_on_app_sep, (split_on_no_sep _ _ Hname).
  by rewrite last_snoc.
Qed.

Lemma last_component_strips_prefix_witness :
  last_component "powerlaw.index" = "index".
Proof.
  by destruct (last_component_strips_prefix "powerlaw" "index" eq_refl) as [H _].
Defined.

(** ** The fit range setter *)

Section Setter.
Context {Aeff Edisp : Type}.
Implicit Types self : @SpectrumFit Aeff Edisp.

(** X11. The setter of [fit_range] starts from the observations each time:
    setting a range on a fit constructed without one gives the fit
    constructed with that range, and a second range replaces the first
    without a trace. *)
Theorem fit_range_setter_recomputes :
  (∀ (arg : @obs_arg Aeff Edisp) model stat ff fit_range meth err s0,
     __init__ arg model stat ff None meth err = Ok s0 →
     set_fit_range s0 fit_range = __init__ arg model stat ff fit_range meth err) ∧
  (∀ self r1 r2 s1,
     set_fit_range self r1 = Ok s1 →
     set_fit_range s1 r2 = set_fit_range self r2 ∧
     _fit_range s1 = r1 ∧
     masks_of r1 (obs_list self) = Ok (_bins_in_fit_range s1)).
Proof.
  split.
  - intros arg model stat ff fit_range meth err s0
      (l & bins & Harg & _ & ->)%init_Ok.
    unfold set_fit_range, __init__. simpl.
    by destruct Harg as [->|(obs & -> & ->)].
  - intros self r1 r2 s1 H. unfold set_fit_range in H.
    apply bind_Ok in H as (bins & Hbins & [= <-]). by split_and!.
Qed.

End Setter.

Lemma fit_range_setter_recomputes_witness :
  ∃ s0, __init__ (ArgObservation obs_three_bins) 1%positive "cash" true None
          "sherpa" "sherpa" = Ok s0 ∧
    set_fit_range s0 (Some (1, 5 # 2)%Q)
    = __init__ (ArgObservation obs_three_bins) 1%positive "cash" true
        (Some (1, 5 # 2)%Q) "sherpa" "sherpa".
Proof.
  eexists. split; [reflexivity|].
  destruct (@fit_range_setter_recomputes unit unit) as [H _].
  apply H. reflexivity.
Defined.


(** ** Running the fit and estimating errors *)

Section Driver.
Context {Aeff Edisp Unit SherpaFit : Type}.
Variable is_equivalent : Unit → string → bool.
Variable calculate_predicted_counts :
  string * gmap string R → R → Aeff → Edisp → list Q → outcome (@Quantity Unit).
Variable integral :
  string * gmap string R → list Q → list Q → outcome (@Quantity Unit).
Variable wstat : list R → list R → R → list R → outcome (list R).
Variable sherpa_fit :
  gmap loc pyobj → @SpectrumFit Aeff Edisp →
  outcome (gmap loc pyobj * @SpectrumFit Aeff Edisp).
Variable sherpa_est_errors : SherpaFit → outcome (list string * list (list R)).
Implicit Types self : @SpectrumFit Aeff Edisp.

(** X12. A backend other than ['sherpa'] is accepted by the constructor and
    refused afterwards: [fit] raises [NotImplementedError] without calling the
    minimiser, and so does [est_errors], whatever was passed as
    [err_method]. *)
Theorem unsupported_method_fails_after_construction
    (arg : @obs_arg Aeff Edisp) (model : loc) (stat : string) (ff : bool)
    (fit_range : option (Q * Q)) (meth err : string) self :
  meth ≠ "sherpa" →
  __init__ arg model stat ff fit_range meth err = Ok self →
  (∀ h, fit sherpa_fit h self = Raise NotImplementedError) ∧
  (∀ attr, est_errors sherpa_est_errors attr self = Raise NotImplementedError).
Proof.
  intros Hne (l & bins & _ & _ & ->)%init_Ok.
  apply String.eqb_neq in Hne. split.
  - intros h. unfold fit. simpl. by rewrite Hne.
  - intros attr. unfold est_errors. simpl. by rewrite Hne.
Qed.

(** X13. An empty list of observations is accepted by the constructor, for any
    range; counts, statistic, true fit range and results are then all empty,
    and [fit] raises [IndexError] at the first observation it asks for,
    before the minimiser is called. *)
Theorem empty_observation_list (model : loc) (stat : string) (ff : bool)
    (fit_range : option (Q * Q)) (err : string) :
  ∃ self,
    __init__ (@ArgObservationList Aeff Edisp []) model stat ff fit_range
      "sherpa" err = Ok self ∧
    (∀ h, fit sherpa_fit h self = Raise IndexError) ∧
    true_fit_range self = Ok [] ∧
    (∀ h, _make_fit_result h self = Ok (h, self)) ∧
    calc_statval wstat self = Raise TypeError ∧
    ∀ h, ∃ s1 s2,
      predict_counts is_equivalent calculate_predicted_counts integral h self
        = Ok s1 ∧
      predicted_counts s1 = Some [] ∧
      calc_statval wstat s1 = Ok s2 ∧ statval s2 = Some [].
Proof.
  eexists. split; [reflexivity|]. split_and!; try done.
  intros h. by eexists _, _.
Qed.

(** X14. On success [est_errors] has had a sherpa fit to ask, stores the
    covariance it returns and the parameter names without their prefix, and
    gives both to every result held so far; nothing else of a result
    changes. *)
Theorem est_errors_updates_results (attr : option SherpaFit) self s1 :
  est_errors sherpa_est_errors attr self = Ok s1 →
  ∃ f parnames cov,
    attr = Some f ∧ err_method self = "sherpa" ∧
    sherpa_est_errors f = Ok (parnames, cov) ∧
    covar_axis s1 = Some (map last_component parnames) ∧
    covariance s1 = Some cov ∧
    length (result s1) = length (result self) ∧
    ∀ (k : nat) r, result self !! k = Some r →
      ∃ r1, result s1 !! k = Some r1 ∧
        res_covar_axis r1 = Some (map last_component parnames) ∧
        res_covariance r1 = Some cov ∧
        res_model r1 = res_model r ∧ res_fit_range r1 = res_fit_range r ∧
        res_statname r1 = res_statname r ∧ res_statval r1 = res_statval r ∧
        res_npred r1 = res_npred r ∧ res_obs r1 = res_obs r.
Proof.
  unfold est_errors. intros (s & Hs & [= <-])%bind_Ok.
  destruct (String.eqb (err_method self) "sherpa") eqn:Hm; [|done].
  apply String.eqb_eq in Hm. unfold _est_errors_sherpa in Hs.
  destruct attr as [f|]; [|done].
  apply bind_Ok in Hs as ([parnames cov] & Hcov & [= <-]). simpl.
  exists f, parnames, cov. split_and!; [done..|by rewrite length_map|].
  intros k r Hk. eexists. split; [by rewrite list_lookup_fmap, Hk|]. done.
Qed.

(** Before any fit has run there is no sherpa fit to ask: [est_errors]
    raises [AttributeError]. *)
Theorem est_errors_before_fit self :
  err_method self = "sherpa" →
  est_errors sherpa_est_errors None self = Raise AttributeError.
Proof. intros Hm. unfold est_errors. by rewrite Hm. Qed.

End Driver.

(** ** The restricted Cash statistic *)

Section StatisticFurther.
Context {Aeff Edisp : Type}.
Variable wstat : list R → list R → R → list R → outcome (list R).
Implicit Types obs : @SpectrumObservation Aeff Edisp.
Implicit Types self : @SpectrumFit Aeff Edisp.

Lemma where_or_zero_same_length (mask : list bool) (raw : list R) :
  length mask = length raw →
  where_or_zero mask raw
  = Ok (zip_with (λ (b : bool) x, if b then x else 0%R) mask raw).
Proof.
  intros Hlen. unfold where_or_zero, np.broadcast2.
  by rewrite (proj2 (Nat.eqb_eq _ _) Hlen).
Qed.

(** X16. With the Cash statistic, counts predicted for every observation and
    arrays of one length per observation (observed counts, predicted counts,
    mask), [calc_statval] succeeds and leaves one array per observation whose
    entry at a bin is [2 * (mu - n*ln(mu))] when the bin is in the mask and 0
    when it is not. *)
Theorem cash_statval_of_the_fit self (pcs : list (list R)) :
  stat self = "cash" →
  predicted_counts self = Some pcs →
  length pcs = length (obs_list self) →
  length (_bins_in_fit_range self) = length (obs_list self) →
  (∀ (k : nat) obs pc mask,
     obs_list self !! k = Some obs → pcs !! k = Some pc →
     _bins_in_fit_range self !! k = Some mask →
     length (data (on_vector obs)) = length pc ∧ length mask = length pc) →
  ∃ s2 rs,
    calc_statval wstat self = Ok s2 ∧ statval s2 = Some rs ∧
    length rs = length (obs_list self) ∧
    ∀ (k : nat) obs pc mask,
      obs_list self !! k = Some obs → pcs !! k = Some pc →
      _bins_in_fit_range self !! k = Some mask →
      ∃ v, rs !! k = Some v ∧ length v = length pc ∧
        ∀ (i : nat) n mu (b : bool),
          data (on_vector obs) !! i = Some n → pc !! i = Some mu →
          mask !! i = Some b →
          v !! i = Some (if b then (2 * (mu - n * ln mu))%R else 0%R).
Proof.
  intros Hstat Hpcs Hlenp Hlenm Hshape.
  set (raw_of := λ p : @SpectrumObservation Aeff Edisp * list R,
         zip_with cash_bin (data (on_vector p.1)) p.2).
  set (raw := map raw_of (zip (obs_list self) pcs)).
  set (res_of := λ p : list R * list bool,
         zip_with (λ (b : bool) x, if b then x else 0%R) p.2 p.1).
  set (rs := map res_of (zip raw (_bins_in_fit_range self))).
  assert (mapM (λ p, _calc_statval_helper wstat self p.1 p.2)
            (zip (obs_list self) pcs) = Ok raw) as Hraw.
  { apply mapM_Ok_pointwise; [subst raw; by rewrite length_map|].
    intros k [obs pc] Hk. exists (raw_of (obs, pc)). split.
    - subst raw. by rewrite list_lookup_fmap, Hk.
    - apply lookup_zip_with_Some in Hk as (o & p & [= <- <-] & Ho & Hp).
      destruct (lookup_lt_is_Some_2 (_bins_in_fit_range self) k) as [mask Hmask].
      { rewrite Hlenm. by eapply lookup_lt_Some. }
      destruct (Hshape k obs pc mask Ho Hp Hmask) as [Hl _].
      unfold _calc_statval_helper. rewrite Hstat. simpl.
      unfold cash, np.broadcast2. by rewrite (proj2 (Nat.eqb_eq _ _) Hl). }
  assert (length raw = length (obs_list self)) as Hrawlen.
  { subst raw. rewrite length_map, length_zip. lia. }
  assert (∀ (k : nat) obs pc, obs_list self !! k = Some obs → pcs !! k = Some pc →
            raw !! k = Some (raw_of (obs, pc))) as Hrawk.
  { intros k obs pc Ho Hp. subst raw. rewrite list_lookup_fmap.
    by rewrite lookup_zip_with, Ho; simpl; rewrite Hp. }
  assert (mapM (λ p : list R * list bool, where_or_zero p.2 p.1)
            (zip raw (_bins_in_fit_range self)) = Ok rs) as Hrs.
  { apply mapM_Ok_pointwise; [subst rs; by rewrite length_map|].
    intros k [u mask] Hk. exists (res_of (u, mask)). split.
    - subst rs. by rewrite list_lookup_fmap, Hk.
    - apply lookup_zip_with_Some in Hk as (u' & m' & [= <- <-] & Hu & Hm).
      destruct (lookup_lt_is_Some_2 (obs_list self) k) as [obs Ho].
      { rewrite <- Hrawlen. by eapply lookup_lt_Some. }
      destruct (lookup_lt_is_Some_2 pcs k) as [pc Hp].
      { rewrite Hlenp. by eapply lookup_lt_Some. }
      destruct (Hshape k obs pc mask Ho Hp Hm) as [Hl1 Hl2].
      rewrite (Hrawk k obs pc Ho Hp) in Hu. injection Hu as <-.
      simpl. apply where_or_zero_same_length.
      subst raw_of. simpl. rewrite length_zip_with. lia. }
  exists (set_statval self rs), rs. split_and!.
  - unfold calc_statval. rewrite Hpcs, Hraw. simpl.
    unfold _restrict_statval. simpl. by rewrite Hrs.
  - done.
  - subst rs. rewrite length_map, length_zip. lia.
  - intros k obs pc mask Ho Hp Hm.
    destruct (Hshape k obs pc mask Ho Hp Hm) as [Hl1 Hl2].
    exists (res_of (raw_of (obs, pc), mask)). split_and!.
    + subst rs. rewrite list_lookup_fmap, lookup_zip_with.
      by rewrite (Hrawk k obs pc Ho Hp); simpl; rewrite Hm.
    + subst res_of raw_of. simpl. rewrite !length_zip_with. lia.
    + intros i n mu b Hn Hmu Hb. subst res_of raw_of. simpl.
      rewrite lookup_zip_with, Hb. simpl.
      rewrite lookup_zip_with, Hn. simpl. rewrite Hmu. simpl. by destruct b.
Qed.

Lemma where_or_zero_idempotent (mask : list bool) (raw v : list R) :
  where_or_zero mask raw = Ok v → where_or_zero mask v = Ok v.
Proof.
  unfold where_or_zero, np.broadcast2.
  destruct (length mask =? length raw)%nat eqn:Hlen.
  - apply Nat.eqb_eq in Hlen. intros [= <-].
    rewrite length_zip_with, Hlen, Nat.min_id, Nat.eqb_refl. f_equal.
    clear Hlen. revert raw. induction mask as [|b mask IH]; intros [|x raw];
      simpl; [done..|]. rewrite IH. by destruct b.
  - destruct mask as [|b [|b' mask]], raw as [|x [|x' raw]]; simpl in *;
      try done; intros [= <-]; simpl.
    + done.
    + done.
    + f_equal. f_equal; [by destruct b|]. f_equal; [by destruct b|].
      rewrite map_map. apply map_ext. intros y. by destruct b.
    + rewrite length_map, Nat.eqb_refl. f_equal.
      f_equal; [by destruct b|]. f_equal; [by destruct b'|].
      clear Hlen. induction mask as [|b'' mask IH]; simpl; [done|]. rewrite IH.
      by destruct b''.
Qed.

(** Restricting the statistic a second time changes nothing. *)
Theorem restrict_statval_idempotent self s1 :
  _restrict_statval self = Ok s1 → _restrict_statval s1 = Ok s1.
Proof.
  unfold _restrict_statval.
  destruct (statval self) as [sv|] eqn:Hsv; [|done].
  intros (rs & Hrs & [= <-])%bind_Ok. simpl.
  assert (mapM (λ p : list R * list bool, where_or_zero p.2 p.1)
            (zip rs (_bins_in_fit_range self)) = Ok rs) as ->; [|done].
  apply mapM_Ok_lookup in Hrs as [Hlen Hrs].
  apply mapM_Ok_pointwise.
  - rewrite length_zip in *. lia.
  - intros k [v mask] Hk.
    apply lookup_zip_with_Some in Hk as (v' & m' & [= <- <-] & Hv & Hm).
    exists v. split; [done|]. simpl.
    destruct (lookup_lt_is_Some_2 sv k) as [u Hu].
    { apply lookup_lt_Some in Hv. rewrite length_zip in Hlen. lia. }
    destruct (Hrs k (u, mask)) as (v' & Hv' & Hw).
    { by rewrite lookup_zip_with, Hu; simpl; rewrite Hm. }
    rewrite Hv in Hv'. injection Hv' as <-. simpl in Hw.
    by eapply where_or_zero_idempotent.
Qed.

End StatisticFurther.

(** ** The further properties on concrete inputs *)

Lemma fit_mask_narrowing_range_witness :
  ∃ mask, _apply_fit_range_obs (Some (1, 5)%Q) obs_flagged = Ok mask ∧
    mask !! 1%nat = Some true.
Proof.
  destruct (fit_mask_narrowing_range 1 5 (3 # 2) (7 # 2) obs_flagged 4
              [false; true; false; false]) as (mask & Hmask & _ & Hsub).
  - reflexivity.
  - reflexivity.
  - reflexivity.
  - unfold Qle. simpl. lia.
  - unfold Qle. simpl. lia.
  - reflexivity.
  - exists mask. split; [exact Hmask|]. apply Hsub. reflexivity.
Defined.

Lemma fit_mask_within_quality_mask_witness :
  ∃ mask0, _apply_fit_range_obs None obs_flagged = Ok mask0 ∧
    mask0 !! 1%nat = Some true.
Proof.
  destruct (fit_mask_within_quality_mask (3 # 2) (7 # 2) obs_flagged 4
              [false; true; false; false]) as (mask0 & Hmask0 & _ & Hsub & _).
  - reflexivity.
  - reflexivity.
  - reflexivity.
  - exists mask0. split; [exact Hmask0|]. apply Hsub. reflexivity.
Defined.

Lemma fit_mask_is_contiguous_witness :
  [true; true; true] !! 1%nat = Some true.
Proof.
  apply (fit_mask_is_contiguous 1 4 obs_three_bins 3 [true; true; true] 0 1 2).
  - reflexivity.
  - reflexivity.
  - reflexivity.
  - reflexivity.
  - lia.
  - reflexivity.
  - reflexivity.
Defined.

Lemma true_fit_range_needs_a_bin_everywhere_witness :
  true_fit_range sample_fit_all_flagged = Raise IndexError.
Proof.
  destruct (true_fit_range_needs_a_bin_everywhere sample_fit_all_flagged 0
              [false; false] obs_all_flagged) as [H _].
  - reflexivity.
  - reflexivity.
  - intros [|[|i]] b Hb; simpl in Hb; by simplify_eq.
  - exact H.
Defined.

Lemma true_fit_range_without_restrictions_witness :
  ∃ self ranges,
    __init__ (ArgObservationList [obs_two_bins; obs_three_bins]) 1%positive
      "cash" true None "sherpa" "sherpa" = Ok self ∧
    true_fit_range self = Ok ranges ∧ length ranges = 2%nat.
Proof.
  destruct (true_fit_range_without_restrictions [obs_two_bins; obs_three_bins]
              1%positive "cash" true "sherpa" "sherpa")
    as (self & ranges & Hinit & Hranges & Hlen & _).
  - intros obs Hobs. apply elem_of_cons in Hobs as [->|Hobs].
    + split; [reflexivity|simpl; lia].
    + apply elem_of_cons in Hobs as [->|Hobs]; [|by apply elem_of_nil in Hobs].
      split; [reflexivity|simpl; lia].
  - exists self, ranges. by split_and!.
Defined.

Lemma results_pile_up_witness :
  ∃ h1 s1 h2 s2,
    _make_fit_result sample_heap (sample_fit "cash") = Ok (h1, s1) ∧
    _make_fit_result h1 s1 = Ok (h2, s2) ∧ length (result s2) = 2%nat.
Proof.
  destruct (_make_fit_result sample_heap (sample_fit "cash")) as [[h1 s1]|e] eqn:E;
    [|vm_compute in E; discriminate E].
  destruct (results_pile_up sample_heap h1 (sample_fit "cash") s1 E)
    as (_ & h2 & s2 & H2 & Hlen).
  exists h1, s1, h2, s2. by split_and!.
Defined.

Lemma unsupported_method_fails_after_construction_witness :
  ∃ self, __init__ (ArgObservation obs_two_bins) 1%positive "cash" true None
            "minuit" "sherpa" = Ok self ∧
    fit sample_sherpa_fit sample_heap self = Raise NotImplementedError ∧
    est_errors sample_est_errors (Some tt) self = Raise NotImplementedError.
Proof.
  eexists. split; [reflexivity|].
  destruct (unsupported_method_fails_after_construction sample_sherpa_fit
              sample_est_errors (ArgObservation obs_two_bins) 1%positive "cash"
              true None "minuit" "sherpa" _ ltac:(discriminate) eq_refl)
    as [Hfit Herr].
  split; [apply Hfit|apply Herr].
Defined.

Lemma est_errors_updates_results_witness :
  ∃ s2, est_errors sample_est_errors (Some tt) (sample_fit "cash") = Ok s2 ∧
    covar_axis s2 = Some ["index"; "amplitude"].
Proof.
  destruct (est_errors sample_est_errors (Some tt) (sample_fit "cash"))
    as [s2|e] eqn:E; [|discriminate E].
  exists s2. split; [reflexivity|].
  destruct (est_errors_updates_results sample_est_errors (Some tt)
              (sample_fit "cash") s2 E)
    as (f & parnames & cov & _ & _ & Hcov & Haxis & _).
  injection Hcov as <- <-. exact Haxis.
Defined.

Lemma cash_statval_of_the_fit_witness :
  ∃ s2 rs, calc_statval sample_wstat (sample_fit "cash") = Ok s2 ∧
    statval s2 = Some rs ∧ length rs = 1%nat.
Proof.
  destruct (cash_statval_of_the_fit sample_wstat (sample_fit "cash") [[10; 4]%R])
    as (s2 & rs & Hcalc & Hrs & Hlen & _).
  - reflexivity.
  - reflexivity.
  - reflexivity.
  - reflexivity.
  - intros [|k] obs pc mask Ho Hp Hm; simpl in *; [|done]. by simplify_eq.
  - exists s2, rs. by split_and!.
Defined.

Lemma restrict_statval_idempotent_witness :
  ∃ s1, _restrict_statval (sample_fit "cash") = Ok s1 ∧
    _restrict_statval s1 = Ok s1.
Proof.
  eexists. split; [reflexivity|].
  apply (restrict_statval_idempotent (sample_fit "cash")). reflexivity.
Defined.

(** ** What holds of the fit mask and of the true fit range *)

Section MaskSummary.
Context {Aeff Edisp : Type}.
Implicit Types obs : @SpectrumObservation Aeff Edisp.

Lemma mapM_app_Raise {A B} (f : A → outcome B) (before after : list A)
    (x : A) (done : list B) e :
  mapM f before = Ok done → f x = Raise e →
  mapM f (before ++ x :: after) = Raise e.
Proof.
  revert done. induction before as [|a before IH]; intros done; simpl.
  - intros _ ->. done.
  - destruct (f a) as [y|e'] eqn:Hfa; simpl; [|done].
    destruct (mapM f before) as [k|e'] eqn:Hk; simpl; [|done].
    intros _ Hx. by rewrite (IH k eq_refl Hx).
Qed.

Lemma apply_fit_range_loop_app (fit_range : option (Q * Q))
    (before rest : list (@SpectrumObservation Aeff Edisp)) :
  ∀ bins masks,
  masks_of fit_range before = Ok masks →
  _apply_fit_range_loop fit_range (before ++ rest) bins
  = _apply_fit_range_loop fit_range rest (bins ++ masks).
Proof.
  unfold masks_of.
  induction before as [|a before IH]; intros bins masks; simpl.
  - intros [= <-]. by rewrite app_nil_r.
  - destruct (_apply_fit_range_obs fit_range a) as [y|e'] eqn:Hfa; simpl;
      [|done].
    destruct (mapM _ before) as [k|e'] eqn:Hk; simpl; [|done].
    intros [= <-]. rewrite (IH (bins ++ [y]) k eq_refl).
    by rewrite <- app_assoc.
Qed.

(** The outcome of the setter and the step-by-step account of it agree:
    the setter returns a fit exactly when the loop ends without an
    exception, with that fit, and raises what the loop was ended by. *)
Lemma fit_range_setter_effect_agrees (self : @SpectrumFit Aeff Edisp)
    (fit_range : option (Q * Q)) :
  match set_fit_range self fit_range with
  | Ok s => fit_range_setter_effect self fit_range = (s, None)
  | Raise e => (fit_range_setter_effect self fit_range).2 = Some e
  end.
Proof.
  unfold set_fit_range, fit_range_setter_effect, masks_of.
  assert (∀ (todo : list (@SpectrumObservation Aeff Edisp)) bins,
    match mapM (_apply_fit_range_obs fit_range) todo with
    | Ok masks => _apply_fit_range_loop fit_range todo bins
                  = (bins ++ masks, None)
    | Raise e => (_apply_fit_range_loop fit_range todo bins).2 = Some e
    end) as Hloop.
  { induction todo as [|a todo IH]; intros bins; simpl.
    - by rewrite app_nil_r.
    - destruct (_apply_fit_range_obs fit_range a) as [y|e'] eqn:Hfa; simpl;
        [|done].
      specialize (IH (bins ++ [y])).
      destruct (mapM _ todo) as [k|e'] eqn:Hk; simpl; [|done].
      rewrite IH. by rewrite <- app_assoc. }
  specialize (Hloop (obs_list self) []).
  destruct (mapM _ (obs_list self)) as [masks|e]; simpl.
  - by rewrite Hloop.
  - by destruct (_apply_fit_range_loop fit_range (obs_list self) []).
Qed.


(** X5. For every bin but the last one of an ordered axis, the bin is in the
    mask exactly when it lies within the range, from its lower to its upper
    edge, and is not flagged bad. *)
Theorem fit_mask_within_range_for_inner_bins (lo hi : Q) obs (n : nat) :
  length (e_reco obs) = S n →
  is_ordered (e_reco obs) = true →
  quality_per_bin obs →
  reaches (Some (lo, hi)) (e_reco obs) →
  ∃ mask, _apply_fit_range_obs (Some (lo, hi)) obs = Ok mask ∧ length mask = n ∧
    ∀ i : nat, (S i < n)%nat →
      (mask !! i = Some true ↔
        bin_within lo hi (e_reco obs) i ∧ ¬ flagged_bad obs i).
Proof. apply fit_mask_included_iff_within. Qed.

(** X6. The true fit range of an observation with a bin in its mask runs from
    the lower edge of the first bin in the mask to the upper edge of the
    last. *)
Theorem true_fit_range_spans_first_to_last (mask : list bool) obs (k : nat) :
  (length mask < length (e_reco obs))%nat →
  mask !! k = Some true →
  ∃ (first last : nat) e_min e_max,
    first_included mask first ∧ last_included mask last ∧
    e_reco obs !! first = Some e_min ∧ e_reco obs !! S last = Some e_max ∧
    true_fit_range_obs mask obs = Ok (e_min, e_max).
Proof. apply true_fit_range_obs_edges. Qed.

(** X7. The true fit range starts within the requested range, and it ends
    within it whenever the last bin of the axis is not in the mask. *)
Theorem true_fit_range_within_request_unless_last_bin
    (lo hi : Q) obs (n : nat) mask e_min e_max :
  length (e_reco obs) = S n →
  is_ordered (e_reco obs) = true →
  quality_per_bin obs →
  _apply_fit_range_obs (Some (lo, hi)) obs = Ok mask →
  true_fit_range_obs mask obs = Ok (e_min, e_max) →
  (lo <= e_min)%Q ∧ (e_min <= hi)%Q ∧ (lo <= e_max)%Q ∧
  (mask !! pred n = Some false → (e_max <= hi)%Q).
Proof. apply true_fit_range_within_request. Qed.

End MaskSummary.


Lemma fit_mask_within_range_for_inner_bins_witness :
  ∃ mask, _apply_fit_range_obs (Some (3 # 2, 7 # 2)%Q) obs_flagged = Ok mask ∧
    length mask = 4%nat.
Proof.
  destruct (fit_mask_within_range_for_inner_bins (3 # 2) (7 # 2) obs_flagged 4)
    as (mask & Hmask & Hlen & _).
  - reflexivity.
  - reflexivity.
  - reflexivity.
  - intros e He. simpl in He. injection He as <-. unfold Qle. simpl. lia.
  - exists mask. by split.
Defined.

Lemma true_fit_range_spans_first_to_last_witness :
  ∃ e_min e_max,
    true_fit_range_obs [false; true; false] obs_three_bins = Ok (e_min, e_max).
Proof.
  destruct (true_fit_range_spans_first_to_last [false; true; false]
              obs_three_bins 1) as (f & l & e_min & e_max & _ & _ & _ & _ & H).
  - simpl. lia.
  - reflexivity.
  - by exists e_min, e_max.
Defined.

Lemma true_fit_range_within_request_unless_last_bin_witness :
  (1 <= 1)%Q ∧ (1 <= 5 # 2)%Q ∧ (1 <= 2)%Q ∧
  ([true; false; false] !! pred 3 = Some false → (2 <= 5 # 2)%Q).
Proof.
  apply (true_fit_range_within_request_unless_last_bin 1 (5 # 2) obs_three_bins 3
           [true; false; false] 1 2); reflexivity.
Defined.

(** * Event lists *)

Lemma bind_Done {A B} (m : attempt A) (f : A → attempt B) (b : B) :
  m ≫= f = Done b ↔ ∃ a, m = Done a ∧ f a = Done b.
Proof.
  destruct m as [a|e]; simpl; split.
  - intros H. by exists a.
  - by intros (a' & [= <-] & H).
  - done.
  - by intros (a' & H & _).
Qed.

Lemma mapM_Done_map {A B} (f : A → attempt B) (g : A → B) (l : list A) :
  (∀ x, x ∈ l → f x = Done (g x)) → mapM f l = Done (map g l).
Proof.
  induction l as [|a l IH]; intros H; simpl; [done|].
  rewrite (H a) by (by left). simpl. rewrite IH; [done|].
  intros x Hx. apply H. by right.
Qed.

Lemma mapM_Fail_head {A B} (f : A → attempt B) (a : A) (l : list A) e :
  f a = Fail e → mapM f (a :: l) = Fail e.
Proof. intros H. simpl. by rewrite H. Qed.

(** ** The constructor *)

Lemma find_column_map (g : string → Column → Column) (name : string)
    (cols : list (string * Column)) :
  find_column name (map (λ p : string * Column, (p.1, g p.1 p.2)) cols)
  = g name <$> find_column name cols.
Proof.
  induction cols as [|[n c] cols IH]; simpl; [done|].
  destruct (String.eqb n name) eqn:E; [|done].
  apply String.eqb_eq in E as ->. done.
Qed.

Lemma fix_energy_unit_columns (t : Table) :
  columns (fix_energy_unit t)
  = map (λ p : string * Column,
           (p.1, if String.eqb p.1 "ENERGY" then
                   match col_unit p.2 with
                   | Some _ => p.2
                   | None => {| col_data := col_data p.2; col_unit := Some "TeV" |}
                   end
                 else p.2)) (columns t).
Proof.
  unfold fix_energy_unit. simpl. apply map_ext. intros [n c]. simpl.
  destruct (String.eqb n "ENERGY"); [|done]. by destruct (col_unit c).
Qed.

(** X17. Constructing an event list touches nothing but a missing unit of the
    energies: names, values and header stay, a column keeps its unit unless it
    is an [ENERGY] column without one, which gets [TeV]; afterwards the
    energies have a unit, and constructing again changes nothing. *)
Theorem init_sets_missing_energy_unit (c : event_class) (t : Table) :
  let t' := table (event_list_init c t) in
  colnames t' = colnames t ∧ meta t' = meta t ∧
  (∀ name col, find_column name (columns t) = Some col →
     ∃ col', find_column name (columns t') = Some col' ∧
       col_data col' = col_data col ∧
       col_unit col' = match col_unit col with
                       | Some u => Some u
                       | None => if String.eqb name "ENERGY" then Some "TeV"
                                 else None
                       end) ∧
  (∀ col', find_column "ENERGY" (columns t') = Some col' →
     is_Some (col_unit col')) ∧
  event_list_init c t' = event_list_init c t.
Proof.
  intros t'. subst t'.
  change (table (event_list_init c t)) with (fix_energy_unit t).
  assert (∀ name col, find_column name (columns t) = Some col →
     ∃ col', find_column name (columns (fix_energy_unit t)) = Some col' ∧
       col_data col' = col_data col ∧
       col_unit col' = match col_unit col with
                       | Some u => Some u
                       | None => if String.eqb name "ENERGY" then Some "TeV"
                                 else None
                       end) as Hcols.
  { intros name col Hcol. rewrite fix_energy_unit_columns.
    rewrite (find_column_map (λ n c0, if String.eqb n "ENERGY" then
               match col_unit c0 with
               | Some _ => c0
               | None => {| col_data := col_data c0; col_unit := Some "TeV" |}
               end else c0)), Hcol. simpl.
    eexists. split; [done|].
    destruct (String.eqb name "ENERGY"), (col_unit col) eqn:E; simpl; by rewrite ?E. }
  split_and!; [| |done| |].
  - unfold colnames. rewrite fix_energy_unit_columns, map_map. done.
  - done.
  - intros col' Hcol'. rewrite fix_energy_unit_columns in Hcol'.
    rewrite (find_column_map (λ n c0, if String.eqb n "ENERGY" then
               match col_unit c0 with
               | Some _ => c0
               | None => {| col_data := col_data c0; col_unit := Some "TeV" |}
               end else c0)) in Hcol'.
    destruct (find_column "ENERGY" (columns t)) as [col|]; [|done].
    simpl in Hcol'. injection Hcol' as <-. by destruct (col_unit col) eqn:E; rewrite ?E.
  - unfold event_list_init. f_equal. unfold fix_energy_unit. simpl. f_equal.
    rewrite map_map. apply map_ext. intros [n col]. simpl.
    destruct (String.eqb n "ENERGY") eqn:E; simpl; rewrite ?E; [|done].
    destruct (col_unit col) eqn:Hu; simpl; rewrite ?E, ?Hu; done.
Qed.

(** ** Selecting rows by a mask *)

Lemma compress_map_filter {A} (p : A → bool) (l : list A) :
  compress (map p l) l = List.filter p l.
Proof.
  induction l as [|x l IH]; simpl; [done|]. rewrite IH. by destruct (p x).
Qed.

Lemma length_compress {A B} (p : A → bool) (l : list A) (d : list B) :
  length d = length l →
  length (compress (map p l) d) = length (List.filter p l).
Proof.
  revert d. induction l as [|x l IH]; intros [|y d] Hlen; simpl in *; try done.
  destruct (p x); simpl; rewrite IH; auto.
Qed.

Lemma compress_compose {A B} (p1 p2 : A → bool) (l : list A) (d : list B) :
  length d = length l →
  compress (map p2 (compress (map p1 l) l)) (compress (map p1 l) d)
  = compress (map (λ x, p1 x && p2 x) l) d.
Proof.
  revert d. induction l as [|x l IH]; intros [|y d] Hlen; simpl in *; try done.
  destruct (p1 x); simpl; [destruct (p2 x)|]; rewrite IH; auto.
Qed.

Lemma find_column_elem_of (name : string) (cols : list (string * Column)) c :
  find_column name cols = Some c → (name, c) ∈ cols.
Proof.
  induction cols as [|[n c'] cols IH]; simpl; [done|].
  destruct (String.eqb n name) eqn:E.
  - apply String.eqb_eq in E as ->. intros [= ->]. by left.
  - intros H. right. by apply IH.
Qed.

Lemma find_column_mask_rows (mask : list bool) (t : Table) (name : string) :
  find_column name (columns (mask_rows mask t))
  = (λ c, {| col_data := compress mask (col_data c); col_unit := col_unit c |})
      <$> find_column name (columns t).
Proof.
  unfold mask_rows. simpl.
  apply (find_column_map (λ _ c, {| col_data := compress mask (col_data c);
                                    col_unit := col_unit c |})).
Qed.

Lemma find_column_fix_energy_unit_data (t : Table) (name : string) :
  col_data <$> find_column name (columns (fix_energy_unit t))
  = col_data <$> find_column name (columns t).
Proof.
  rewrite fix_energy_unit_columns.
  rewrite (find_column_map (λ n c0, if String.eqb n "ENERGY" then
             match col_unit c0 with
             | Some _ => c0
             | None => {| col_data := col_data c0; col_unit := Some "TeV" |}
             end else c0)).
  destruct (find_column name (columns t)) as [c|]; simpl; [|done].
  by destruct (String.eqb name "ENERGY"), (col_unit c).
Qed.

Lemma colnames_fix_energy_unit (t : Table) :
  colnames (fix_energy_unit t) = colnames t.
Proof. unfold colnames. by rewrite fix_energy_unit_columns, map_map. Qed.

Lemma colnames_mask_rows (mask : list bool) (t : Table) :
  colnames (mask_rows mask t) = colnames t.
Proof. unfold colnames, mask_rows. simpl. by rewrite map_map. Qed.

Lemma rectangular_fix_energy_unit (t : Table) (n : nat) :
  rectangular t n → rectangular (fix_energy_unit t) n.
Proof.
  intros Hrect name c Hc. rewrite fix_energy_unit_columns in Hc.
  apply list_elem_of_fmap in Hc as ([n' c'] & [= -> ->] & Hin). simpl.
  specialize (Hrect n' c' Hin).
  by destruct (String.eqb n' "ENERGY"), (col_unit c').
Qed.

Lemma rectangular_mask_rows {A} (p : A → bool) (l : list A) (t : Table) :
  rectangular t (length l) →
  rectangular (mask_rows (map p l) t) (length (List.filter p l)).
Proof.
  intros Hrect name c Hc. unfold mask_rows in Hc. simpl in Hc.
  apply list_elem_of_fmap in Hc as ([n' c'] & [= -> ->] & Hin). simpl.
  apply length_compress. by eapply Hrect.
Qed.

Lemma table_getitem_mask (t : Table) (mask : list bool) :
  rectangular t (length mask) →
  table_getitem t (RowMask mask) = Done (mask_rows mask t).
Proof.
  intros Hrect. unfold table_getitem.
  rewrite (mapM_Done_map _ (λ p : string * Column,
             (p.1, {| col_data := compress mask (col_data p.2);
                      col_unit := col_unit p.2 |}))); [done|].
  intros [name c] Hin. simpl. unfold column_getitem, index_mask.
  rewrite (Hrect name c Hin), Nat.eqb_refl. done.
Qed.

Lemma select_row_subset_mask (self : EventListBase) (mask : list bool) :
  rectangular (table self) (length mask) →
  select_row_subset self (RowMask mask)
  = Done (event_list_init (cls self) (mask_rows mask (table self))).
Proof.
  intros Hrect. unfold select_row_subset. by rewrite table_getitem_mask.
Qed.

Lemma in_band_spec (band : Q * Q) (x : Q) :
  in_band band x = true ↔ (band.1 <= x)%Q ∧ (x < band.2)%Q.
Proof. unfold in_band. by rewrite andb_true_iff, Qle_bool_iff, Qltb_lt. Qed.

Lemma select_energy_explicit (self : EventListBase) (band : Q * Q)
    (n : nat) (c : Column) :
  rectangular (table self) n →
  find_column "ENERGY" (columns (table self)) = Some c →
  select_energy self band
  = Done (event_list_init (cls self)
            (mask_rows (map (in_band band) (col_data c)) (table self))).
Proof.
  intros Hrect Hc.
  assert (length (col_data c) = n) as Hn
    by (eapply Hrect; by apply find_column_elem_of).
  unfold select_energy, energy, get_column. rewrite Hc. simpl.
  apply select_row_subset_mask. by rewrite length_map, Hn.
Qed.

Lemma select_energy_Done (self : EventListBase) (band : Q * Q)
    (n : nat) (c : Column) :
  rectangular (table self) n →
  find_column "ENERGY" (columns (table self)) = Some c →
  let mask := map (in_band band) (col_data c) in
  let kept := List.filter (in_band band) (col_data c) in
  ∃ out, select_energy self band = Done out ∧
    cls out = cls self ∧
    colnames (table out) = colnames (table self) ∧
    meta (table out) = meta (table self) ∧
    energy out = Done kept ∧
    (∀ e, e ∈ kept ↔ e ∈ col_data c ∧ (band.1 <= e)%Q ∧ (e < band.2)%Q) ∧
    rectangular (table out) (length kept) ∧
    ∀ name col, find_column name (columns (table self)) = Some col →
      ∃ col', find_column name (columns (table out)) = Some col' ∧
        col_data col' = compress mask (col_data col).
Proof.
  intros Hrect Hc mask kept.
  assert (length (col_data c) = n) as Hn
    by (eapply Hrect; by apply find_column_elem_of).
  assert (rectangular (table self) (length mask)) as Hrect'
    by (subst mask; by rewrite length_map, Hn).
  exists (event_list_init (cls self) (mask_rows mask (table self))).
  assert (∀ name col, find_column name (columns (table self)) = Some col →
    ∃ col', find_column name
              (columns (fix_energy_unit (mask_rows mask (table self)))) = Some col' ∧
      col_data col' = compress mask (col_data col)) as Hcols.
  { intros name col Hcol.
    pose proof (find_column_fix_energy_unit_data
                  (mask_rows mask (table self)) name) as Hfix.
    rewrite find_column_mask_rows, Hcol in Hfix.
    destruct (find_column name
                (columns (fix_energy_unit (mask_rows mask (table self)))))
      as [col'|]; simpl in Hfix; [|done].
    exists col'. split; [done|]. congruence. }
  split_and!.
  - unfold select_energy, energy, get_column. rewrite Hc. simpl.
    by apply select_row_subset_mask.
  - done.
  - change (table (event_list_init (cls self) (mask_rows mask (table self))))
      with (fix_energy_unit (mask_rows mask (table self))).
    by rewrite colnames_fix_energy_unit, colnames_mask_rows.
  - done.
  - unfold energy, get_column.
    change (table (event_list_init (cls self) (mask_rows mask (table self))))
      with (fix_energy_unit (mask_rows mask (table self))).
    destruct (Hcols "ENERGY" c Hc) as (col' & -> & Hdata). simpl.
    rewrite Hdata. subst mask kept. by rewrite compress_map_filter.
  - intros e. subst kept. rewrite list_elem_of_In, filter_In, <- list_elem_of_In.
    by rewrite in_band_spec.
  - change (table (event_list_init (cls self) (mask_rows mask (table self))))
      with (fix_energy_unit (mask_rows mask (table self))).
    apply rectangular_fix_energy_unit. subst mask kept.
    apply rectangular_mask_rows. by rewrite Hn.
  - done.
Qed.

(** X18. [select_energy] on a table with its energies: it succeeds and keeps the
    class, the column names and the header; the energies kept are those of
    the band, lower bound included and upper bound excluded, in their order;
    every other column loses the same rows, so that the table stays
    rectangular. *)
Theorem select_energy_keeps_band (self : EventListBase) (band : Q * Q)
    (n : nat) (c : Column) :
  rectangular (table self) n →
  find_column "ENERGY" (columns (table self)) = Some c →
  let mask := map (in_band band) (col_data c) in
  let kept := List.filter (in_band band) (col_data c) in
  ∃ out, select_energy self band = Done out ∧
    cls out = cls self ∧
    colnames (table out) = colnames (table self) ∧
    meta (table out) = meta (table self) ∧
    energy out = Done kept ∧
    (∀ e, e ∈ kept ↔ e ∈ col_data c ∧ (band.1 <= e)%Q ∧ (e < band.2)%Q) ∧
    rectangular (table out) (length kept) ∧
    ∀ name col, find_column name (columns (table self)) = Some col →
      ∃ col', find_column name (columns (table out)) = Some col' ∧
        col_data col' = compress mask (col_data col).
Proof. apply select_energy_Done. Qed.

Lemma mask_rows_fix_energy_unit (mask : list bool) (t : Table) :
  mask_rows mask (fix_energy_unit t) = fix_energy_unit (mask_rows mask t).
Proof.
  unfold mask_rows, fix_energy_unit. simpl. f_equal.
  rewrite !map_map. apply map_ext. intros [name c]. simpl.
  destruct (String.eqb name "ENERGY"); [|done].
  destruct (col_unit c) eqn:E; simpl; by rewrite ?E.
Qed.

Lemma fix_energy_unit_idempotent (t : Table) :
  fix_energy_unit (fix_energy_unit t) = fix_energy_unit t.
Proof.
  unfold fix_energy_unit. simpl. f_equal.
  rewrite map_map. apply map_ext. intros [name c]. simpl.
  destruct (String.eqb name "ENERGY") eqn:E; simpl; rewrite ?E; [|done].
  destruct (col_unit c) eqn:Hu; simpl; rewrite ?E, ?Hu; done.
Qed.

Lemma mask_rows_compose {A} (p1 p2 : A → bool) (l : list A) (t : Table) :
  rectangular t (length l) →
  mask_rows (map p2 (compress (map p1 l) l)) (mask_rows (map p1 l) t)
  = mask_rows (map (λ x, p1 x && p2 x) l) t.
Proof.
  intros Hrect. unfold mask_rows. simpl. f_equal. rewrite map_map.
  apply map_ext_in. intros [name c] Hin. simpl. f_equal. f_equal.
  apply compress_compose. eapply Hrect. by apply list_elem_of_In.
Qed.

Lemma in_band_intersection (b1 b2 : Q * Q) (x : Q) :
  in_band (Qmax b1.1 b2.1, Qmin b1.2 b2.2) x = in_band b1 x && in_band b2 x.
Proof.
  apply Bool.eq_iff_eq_true.
  rewrite andb_true_iff, !in_band_spec. simpl.
  rewrite Q.max_lub_iff, Q.min_glb_lt_iff. tauto.
Qed.

(** X19. Selecting a band and then another is selecting their intersection, so
    that the order of two selections does not matter. *)
Theorem select_energy_twice_is_intersection (self s1 : EventListBase)
    (b1 b2 : Q * Q) (n : nat) (c : Column) :
  rectangular (table self) n →
  find_column "ENERGY" (columns (table self)) = Some c →
  select_energy self b1 = Done s1 →
  select_energy s1 b2
  = select_energy self (Qmax b1.1 b2.1, Qmin b1.2 b2.2).
Proof.
  intros Hrect Hc Hs1.
  assert (length (col_data c) = n) as Hn
    by (eapply Hrect; by apply find_column_elem_of).
  destruct (select_energy_Done self b1 n c Hrect Hc)
    as (s1' & Hs1' & _ & _ & _ & He1 & _ & Hrect1 & _).
  rewrite Hs1 in Hs1'. injection Hs1' as <-.
  rewrite (select_energy_explicit self b1 n c Hrect Hc) in Hs1.
  injection Hs1 as Hs1.
  unfold energy, get_column in He1.
  destruct (find_column "ENERGY" (columns (table s1))) as [c1|] eqn:Hc1; [|done].
  simpl in He1. injection He1 as He1.
  rewrite (select_energy_explicit s1 b2 _ c1 Hrect1 Hc1).
  rewrite (select_energy_explicit self _ n c Hrect Hc).
  f_equal. rewrite He1. subst s1. unfold event_list_init. simpl. f_equal.
  rewrite <- compress_map_filter.
  rewrite mask_rows_fix_energy_unit, fix_energy_unit_idempotent. f_equal.
  rewrite mask_rows_compose by (by rewrite Hn). f_equal.
  apply map_ext. intros x. by rewrite in_band_intersection.
Qed.

Lemma filter_split {A} (p p1 p2 : A → bool) (l : list A) :
  (∀ x, p x = p1 x || p2 x) → (∀ x, p1 x && p2 x = false) →
  List.filter p l ≡ₚ List.filter p1 l ++ List.filter p2 l.
Proof.
  intros Hp Hdis. induction l as [|x l IH]; simpl; [done|].
  rewrite Hp. specialize (Hdis x).
  destruct (p1 x), (p2 x); simpl in *; try done.
  - by rewrite IH.
  - rewrite IH. by rewrite Permutation_middle.
Qed.

Lemma in_band_adjacent (a b c x : Q) :
  (a <= b)%Q → (b <= c)%Q →
  in_band (a, c) x = in_band (a, b) x || in_band (b, c) x ∧
  in_band (a, b) x && in_band (b, c) x = false.
Proof.
  intros Hab Hbc. split.
  - apply Bool.eq_iff_eq_true. rewrite orb_true_iff, !in_band_spec. simpl.
    split.
    + intros [Ha Hc]. destruct (Qlt_le_dec x b); [left|right]; done.
    + intros [[Ha Hb]|[Hb Hc]]; split; try done.
      * by eapply Qlt_le_trans.
      * by eapply Qle_trans.
  - apply not_true_iff_false. rewrite andb_true_iff, !in_band_spec. simpl.
    intros [[_ Hlt] [Hle _]]. by apply (Qlt_not_le _ _ Hlt).
Qed.

(** X20. Two adjacent bands share the events of the band they make up: no event
    falls between them at the common bound and none is in both. *)
Theorem adjacent_bands_partition (self : EventListBase) (a b c : Q)
    (n : nat) (col : Column) :
  rectangular (table self) n →
  find_column "ENERGY" (columns (table self)) = Some col →
  (a <= b)%Q → (b <= c)%Q →
  ∃ s_ab s_bc s_ac e_ab e_bc e_ac,
    select_energy self (a, b) = Done s_ab ∧
    select_energy self (b, c) = Done s_bc ∧
    select_energy self (a, c) = Done s_ac ∧
    energy s_ab = Done e_ab ∧ energy s_bc = Done e_bc ∧
    energy s_ac = Done e_ac ∧
    e_ac ≡ₚ e_ab ++ e_bc.
Proof.
  intros Hrect Hc Hab Hbc.
  destruct (select_energy_Done self (a, b) n col Hrect Hc)
    as (s_ab & Hs_ab & _ & _ & _ & He_ab & _).
  destruct (select_energy_Done self (b, c) n col Hrect Hc)
    as (s_bc & Hs_bc & _ & _ & _ & He_bc & _).
  destruct (select_energy_Done self (a, c) n col Hrect Hc)
    as (s_ac & Hs_ac & _ & _ & _ & He_ac & _).
  eexists s_ab, s_bc, s_ac, _, _, _. split_and!; [done..|].
  apply filter_split; intros x; by destruct (in_band_adjacent a b c x Hab Hbc).
Qed.

(** ** Selecting rows by their indices *)

Lemma index_rows_where_from {A} (mask : list bool) :
  ∀ (pre arr : list A), length mask = length arr →
  index_rows (pre ++ arr)
    (np.where_from (λ b : bool, b) (Z.of_nat (length pre)) mask)
  = Done (compress mask arr).
Proof.
  induction mask as [|b mask IH]; intros pre [|x arr] Hlen; simpl in *; try done.
  assert (np.where_from (λ b : bool, b) (Z.of_nat (length pre) + 1) mask
          = np.where_from (λ b : bool, b) (Z.of_nat (length (pre ++ [x]))) mask)
    as Hshift by (f_equal; rewrite length_app; simpl; lia).
  assert (pre ++ x :: arr = (pre ++ [x]) ++ arr) as Happ
    by (by rewrite <- app_assoc).
  specialize (IH (pre ++ [x]) arr ltac:(lia)).
  rewrite <- Hshift, <- Happ in IH. unfold index_rows in *.
  destruct b; [|done]. simpl.
  rewrite (getitem_nat (pre ++ x :: arr) (length pre) x)
    by (by rewrite list_lookup_middle).
  simpl. by rewrite IH.
Qed.

Lemma index_rows_where {A} (mask : list bool) (arr : list A) :
  length mask = length arr →
  index_rows arr (np.where_ (λ b : bool, b) mask) = Done (compress mask arr).
Proof. intros Hlen. by apply (index_rows_where_from mask [] arr). Qed.

Lemma where_from_map {A} (p : A → bool) (s : Z) (l : list A) :
  np.where_from (λ b : bool, b) s (map p l) = np.where_from p s l.
Proof.
  revert s. induction l as [|x l IH]; intros s; simpl; [done|].
  rewrite IH. done.
Qed.

Lemma select_row_subset_where (self : EventListBase) (mask : list bool) :
  rectangular (table self) (length mask) →
  select_row_subset self (RowIndices (np.where_ (λ b : bool, b) mask))
  = select_row_subset self (RowMask mask).
Proof.
  intros Hrect. rewrite select_row_subset_mask by done.
  unfold select_row_subset, table_getitem.
  rewrite (mapM_Done_map _ (λ p : string * Column,
             (p.1, {| col_data := compress mask (col_data p.2);
                      col_unit := col_unit p.2 |}))); [done|].
  intros [name c] Hin. simpl. unfold column_getitem.
  rewrite index_rows_where; [done|]. symmetry. by eapply Hrect.
Qed.

(** X21. The two ways of the docstring to give the rows agree: the indices of
    the true entries of a mask select what the mask itself selects. *)
Theorem row_indices_of_mask (self : EventListBase) (mask : list bool) :
  rectangular (table self) (length mask) →
  select_row_subset self (RowIndices (np.where_ (λ b : bool, b) mask))
  = select_row_subset self (RowMask mask).
Proof. apply select_row_subset_where. Qed.


(** ** Selections on the sky and in time *)

Lemma insert_sorted_spec (x : Z) (l : list Z) :
  StronglySorted Z.lt l →
  StronglySorted Z.lt (insert_sorted x l) ∧
  ∀ y, y ∈ insert_sorted x l ↔ y = x ∨ y ∈ l.
Proof.
  induction l as [|a l IH]; intros Hs; simpl.
  - split; [repeat constructor|]. intros y.
    rewrite elem_of_cons, elem_of_nil. tauto.
  - apply StronglySorted_inv in Hs as [Hs Ha].
    destruct (IH Hs) as [IHs IHm].
    destruct (Z.ltb_spec x a) as [Hlt|Hge].
    + split.
      * constructor; [by constructor|]. constructor; [done|].
        eapply Forall_impl; [exact Ha|]. intros z Hz. simpl in Hz. lia.
      * intros y. rewrite !elem_of_cons. tauto.
    + destruct (Z.eqb_spec x a) as [->|Hne].
      * split; [by constructor|]. intros y. rewrite elem_of_cons. tauto.
      * split.
        -- constructor; [done|]. apply Forall_forall. intros y Hy.
           apply IHm in Hy as [->|Hy]; [lia|].
           rewrite Forall_forall in Ha. by apply Ha.
        -- intros y. rewrite !elem_of_cons, IHm. tauto.
Qed.

Lemma union1d_spec (a b : list Z) :
  StronglySorted Z.lt (union1d a b) ∧
  ∀ y, y ∈ union1d a b ↔ y ∈ a ∨ y ∈ b.
Proof.
  unfold union1d.
  assert (∀ l, StronglySorted Z.lt (foldr insert_sorted [] l) ∧
               ∀ y, y ∈ foldr insert_sorted [] l ↔ y ∈ l) as H.
  { induction l as [|x l [IHs IHm]]; simpl.
    - split; [constructor|done].
    - destruct (insert_sorted_spec x _ IHs) as [Hs Hm]. split; [done|].
      intros y. rewrite Hm, IHm, elem_of_cons. tauto. }
  destruct (H (a ++ b)) as [Hs Hm]. split; [done|].
  intros y. by rewrite Hm, elem_of_app.
Qed.

Lemma where_from_sorted {A} (p : A → bool) (s : Z) (l : list A) :
  StronglySorted Z.lt (np.where_from p s l).
Proof.
  revert s. induction l as [|a l IH]; intros s; simpl; [constructor|].
  destruct (p a); [|apply IH]. constructor; [apply IH|].
  apply Forall_forall. intros y Hy.
  apply elem_of_where_from in Hy as (k & x & _ & _ & ->). lia.
Qed.

Lemma sorted_lt_ext (l1 l2 : list Z) :
  StronglySorted Z.lt l1 → StronglySorted Z.lt l2 →
  (∀ x, x ∈ l1 ↔ x ∈ l2) → l1 = l2.
Proof.
  revert l2. induction l1 as [|a l1 IH]; intros [|b l2] Hs1 Hs2 Hm.
  - done.
  - exfalso. eapply not_elem_of_nil, Hm. by left.
  - exfalso. eapply not_elem_of_nil, Hm. by left.
  - apply StronglySorted_inv in Hs1 as [Hs1 Ha].
    apply StronglySorted_inv in Hs2 as [Hs2 Hb].
    rewrite Forall_forall in Ha, Hb.
    assert (a = b) as ->.
    { pose proof (proj1 (Hm a) ltac:(by left)) as H1.
      pose proof (proj2 (Hm b) ltac:(by left)) as H2.
      apply elem_of_cons in H1 as [?|H1]; [done|].
      apply elem_of_cons in H2 as [?|H2]; [done|].
      apply Hb in H1. apply Ha in H2. lia. }
    f_equal. apply IH; [done..|]. intros x. split; intros Hx.
    + pose proof (proj1 (Hm x) ltac:(by right)) as H1.
      apply elem_of_cons in H1 as [->|H1]; [|done].
      apply Ha in Hx. lia.
    + pose proof (proj2 (Hm x) ltac:(by right)) as H1.
      apply elem_of_cons in H1 as [->|H1]; [|done].
      apply Hb in Hx. lia.
Qed.

Lemma union_fold_spec {A} (f : A → list Z) (regs : list A) :
  ∀ acc, StronglySorted Z.lt acc →
  StronglySorted Z.lt (foldl (λ mask reg, union1d mask (f reg)) acc regs) ∧
  ∀ i, i ∈ foldl (λ mask reg, union1d mask (f reg)) acc regs ↔
       i ∈ acc ∨ ∃ reg, reg ∈ regs ∧ i ∈ f reg.
Proof.
  induction regs as [|r regs IH]; intros acc Hacc; simpl.
  - split; [done|]. intros i. split; [by left|].
    intros [?|(reg & []%elem_of_nil & _)]. done.
  - destruct (union1d_spec acc (f r)) as [Hs Hm].
    destruct (IH _ Hs) as [IHs IHm]. split; [done|].
    intros i. rewrite IHm, Hm. split.
    + intros [[?|?]|(reg & Hreg & Hi)].
      * by left.
      * right. exists r. split; [by left|done].
      * right. exists reg. split; [by right|done].
    + intros [?|(reg & Hreg & Hi)].
      * by left; left.
      * apply elem_of_cons in Hreg as [->|Hreg].
        -- by left; right.
        -- right. by exists reg.
Qed.

Lemma compress_zip {A B} (mask : list bool) (a : list A) (b : list B) :
  compress mask (zip a b) = zip (compress mask a) (compress mask b).
Proof.
  revert a b. induction mask as [|m mask IH]; intros [|x a] [|y b]; simpl;
    try done; destruct m; simpl; rewrite ?IH; try done.
  all: by destruct (compress mask a).
Qed.

Lemma zip_with_andb_map {A} (f g : A → bool) (l : list A) :
  zip_with andb (map f l) (map g l) = map (λ x, f x && g x) l.
Proof. induction l as [|x l IH]; simpl; [done|]. by rewrite IH. Qed.

Lemma column_data_selected (c : event_class) (mask : list bool) (t : Table)
    (name : string) :
  col_data <$> find_column name
                 (columns (table (event_list_init c (mask_rows mask t))))
  = (λ col, compress mask (col_data col)) <$> find_column name (columns t).
Proof.
  change (table (event_list_init c (mask_rows mask t)))
    with (fix_energy_unit (mask_rows mask t)).
  rewrite find_column_fix_energy_unit_data, find_column_mask_rows.
  by destruct (find_column name (columns t)).
Qed.

(** Comparisons of rationals as propositions, for [lra]. *)
Ltac compare_radii :=
  repeat match goal with
  | H : Qltb _ _ = true |- _ => apply Qltb_lt in H
  | H : Qltb _ _ = false |- _ => apply Qltb_ge in H
  | H : Qeq_bool _ _ = true |- _ => apply Qeq_bool_iff in H
  | H : Qeq_bool ?a ?b = false |- _ =>
      apply Qeq_bool_neq in H;
      destruct (Q_dec a b) as [[?|?]|?]; [| |contradiction]
  end; Lqa.lra.

Section SkySelections.

Variable separation : Q * Q → Q * Q → Q.
Variable time_ref_from_dict : gmap string meta_value → attempt Q.

Lemma radec_length (self : EventListBase) (n : nat) position :
  rectangular (table self) n → radec self = Done position → length position = n.
Proof.
  intros Hrect. unfold radec, get_column.
  destruct (find_column "RA" (columns (table self))) as [lon|] eqn:Hlon;
    [|done].
  destruct (find_column "DEC" (columns (table self))) as [lat|] eqn:Hlat;
    [|done].
  simpl. intros [= <-].
  apply find_column_elem_of, Hrect in Hlon.
  apply find_column_elem_of, Hrect in Hlat.
  rewrite length_zip_with. lia.
Qed.

Lemma radec_selected (self : EventListBase) (mask : list bool) position :
  radec self = Done position →
  radec (event_list_init (cls self) (mask_rows mask (table self)))
  = Done (compress mask position).
Proof.
  unfold radec, get_column.
  pose proof (column_data_selected (cls self) mask (table self) "RA") as Hra.
  pose proof (column_data_selected (cls self) mask (table self) "DEC") as Hdec.
  destruct (find_column "RA" (columns (table self))) as [lon|]; [|done].
  destruct (find_column "DEC" (columns (table self))) as [lat|]; [|done].
  simpl. intros [= <-].
  destruct (find_column "RA" _) as [lon'|]; [|done].
  destruct (find_column "DEC" _) as [lat'|]; [|done].
  simpl in *. injection Hra as ->. injection Hdec as ->.
  by rewrite compress_zip.
Qed.

Lemma elem_of_where_in_some_region (regs : list CircleSkyRegion)
    (position : list (Q * Q)) (i : Z) :
  i ∈ np.where_ (in_some_region separation regs) position ↔
  ∃ reg, reg ∈ regs ∧
    i ∈ np.where_ (λ p, Qltb (separation (center reg) p) (radius reg)) position.
Proof.
  rewrite elem_of_where_. split.
  - intros (k & x & Hk & Hx & ->). unfold in_some_region in Hx.
    apply existsb_exists in Hx as (reg & Hreg & Hx).
    exists reg. split; [by apply list_elem_of_In|].
    apply elem_of_where_. by exists k, x.
  - intros (reg & Hreg & Hi).
    apply elem_of_where_ in Hi as (k & x & Hk & Hx & ->).
    exists k, x. split_and!; [done| |done].
    unfold in_some_region. apply existsb_exists. exists reg.
    split; [by apply list_elem_of_In|done].
Qed.

Lemma filter_circular_region_where (self : EventListBase)
    (region : list CircleSkyRegion) :
  filter_circular_region separation self region
  = position ← radec self;
    Done (np.where_ (in_some_region separation region) position).
Proof.
  unfold filter_circular_region.
  destruct (radec self) as [position|e]; simpl; [|done]. f_equal.
  destruct (union_fold_spec
              (λ reg, np.where_
                 (λ p, Qltb (separation (center reg) p) (radius reg)) position)
              region [] ltac:(constructor)) as [Hs Hm].
  apply sorted_lt_ext; [done|apply where_from_sorted|].
  intros i. rewrite Hm, elem_of_where_in_some_region.
  split; [|by right]. by intros [[]%elem_of_nil|?].
Qed.

(** X23. [filter_circular_region] gives the indices of the events that lie in one
    of the regions at least, in increasing order and each once, whatever the
    overlap of the regions: the unions region after region are one pass over
    the positions.  Without positions it raises what [radec] raises. *)
Theorem filter_circular_region_is_one_pass (self : EventListBase)
    (region : list CircleSkyRegion) :
  filter_circular_region separation self region
  = position ← radec self;
    Done (np.where_ (in_some_region separation region) position).
Proof. apply filter_circular_region_where. Qed.

Lemma select_circular_region_mask (self : EventListBase) (n : nat)
    (regs : list CircleSkyRegion) :
  rectangular (table self) n →
  select_circular_region separation self (RegionList regs)
  = position ← radec self;
    select_row_subset self
      (RowMask (map (in_some_region separation regs) position)).
Proof.
  intros Hrect. unfold select_circular_region.
  rewrite filter_circular_region_where.
  destruct (radec self) as [position|e] eqn:Hradec; simpl; [|done].
  unfold np.where_. rewrite <- where_from_map.
  apply select_row_subset_where.
  by rewrite length_map, (radec_length self n position).
Qed.

(** X24. Selecting the events of a list of regions is selecting by the mask of
    the events that lie in one of them at least: an event in two regions is
    kept once, and the events stay in the order of the table. *)
Theorem select_circular_region_keeps_each_event_once (self : EventListBase)
    (n : nat) (regs : list CircleSkyRegion) :
  rectangular (table self) n →
  select_circular_region separation self (RegionList regs)
  = position ← radec self;
    select_row_subset self
      (RowMask (map (in_some_region separation regs) position)).
Proof. apply select_circular_region_mask. Qed.

(** X25. A region that is not given in a list is the list of that region, and
    selecting one circular region is selecting the sky cone of its center and
    radius. *)
Theorem one_circular_region_is_a_sky_cone (self : EventListBase) (n : nat)
    (reg : CircleSkyRegion) :
  rectangular (table self) n →
  select_circular_region separation self (OneRegion reg)
  = select_circular_region separation self (RegionList [reg]) ∧
  select_circular_region separation self (OneRegion reg)
  = select_sky_cone separation self (center reg) (radius reg).
Proof.
  intros Hrect. split; [done|].
  change (select_circular_region separation self (OneRegion reg))
    with (select_circular_region separation self (RegionList [reg])).
  rewrite (select_circular_region_mask self n) by done.
  unfold select_sky_cone. destruct (radec self) as [position|e]; simpl; [|done].
  do 2 f_equal. apply map_ext. intros p. unfold in_some_region. simpl.
  apply orb_false_r.
Qed.

Lemma select_sky_cone_explicit (self : EventListBase) (n : nat) position
    (c : Q * Q) (r : Q) :
  rectangular (table self) n → radec self = Done position →
  let mask := map (λ p, Qltb (separation c p) r) position in
  select_sky_cone separation self c r
  = Done (event_list_init (cls self) (mask_rows mask (table self))).
Proof.
  intros Hrect Hradec mask. unfold select_sky_cone. rewrite Hradec. simpl.
  apply select_row_subset_mask. subst mask.
  by rewrite length_map, (radec_length self n position).
Qed.

Lemma select_sky_ring_explicit (self : EventListBase) (n : nat) position
    (c : Q * Q) (r1 r2 : Q) :
  rectangular (table self) n → radec self = Done position →
  let mask := map (λ p, Qltb r1 (separation c p) && Qltb (separation c p) r2)
                  position in
  select_sky_ring separation self c r1 r2
  = Done (event_list_init (cls self) (mask_rows mask (table self))).
Proof.
  intros Hrect Hradec mask. unfold select_sky_ring. rewrite Hradec. simpl.
  rewrite zip_with_andb_map.
  apply select_row_subset_mask. subst mask.
  by rewrite length_map, (radec_length self n position).
Qed.

(** X26. The outer cone holds the events of the inner cone, those of the ring
    between the two radii, and the events at the inner radius exactly, which
    are in neither: both comparisons are strict.  The events of the ring lie
    strictly between the radii. *)
Theorem ring_and_cones (self : EventListBase) (n : nat) position
    (c : Q * Q) (inner outer : Q) :
  rectangular (table self) n → radec self = Done position →
  (inner <= outer)%Q →
  ∃ cone_in cone_out ring p_in p_out p_ring,
    select_sky_cone separation self c inner = Done cone_in ∧
    select_sky_cone separation self c outer = Done cone_out ∧
    select_sky_ring separation self c inner outer = Done ring ∧
    radec cone_in = Done p_in ∧ radec cone_out = Done p_out ∧
    radec ring = Done p_ring ∧
    p_out ≡ₚ p_in ++ p_ring
             ++ List.filter (λ p, Qeq_bool (separation c p) inner
                                  && Qltb inner outer) position ∧
    ∀ p, p ∈ p_ring ↔
         p ∈ position ∧ (inner < separation c p)%Q ∧ (separation c p < outer)%Q.
Proof.
  intros Hrect Hradec Hio.
  eexists _, _, _, _, _, _.
  split; [by apply (select_sky_cone_explicit self n position)|].
  split; [by apply (select_sky_cone_explicit self n position)|].
  split; [by apply (select_sky_ring_explicit self n position)|].
  split; [by apply radec_selected|].
  split; [by apply radec_selected|].
  split; [by apply radec_selected|].
  rewrite !compress_map_filter. split.
  - etrans.
    + apply (filter_split _
               (λ p, Qltb (separation c p) inner)
               (λ p, (Qltb inner (separation c p) && Qltb (separation c p) outer)
                     || (Qeq_bool (separation c p) inner && Qltb inner outer))).
      * intros p.
        destruct (Qltb (separation c p) outer) eqn:E1,
                 (Qltb (separation c p) inner) eqn:E2,
                 (Qltb inner (separation c p)) eqn:E3,
                 (Qeq_bool (separation c p) inner) eqn:E4,
                 (Qltb inner outer) eqn:E5; simpl; try reflexivity; exfalso; compare_radii.
      * intros p.
        destruct (Qltb (separation c p) outer) eqn:E1,
                 (Qltb (separation c p) inner) eqn:E2,
                 (Qltb inner (separation c p)) eqn:E3,
                 (Qeq_bool (separation c p) inner) eqn:E4,
                 (Qltb inner outer) eqn:E5; simpl; try reflexivity; exfalso; compare_radii.
    + apply Permutation_app_head. apply filter_split; [done|].
      intros p.
      destruct (Qltb inner (separation c p)) eqn:E3,
               (Qeq_bool (separation c p) inner) eqn:E4; simpl;
        try reflexivity; try apply andb_false_r.
      exfalso. compare_radii.
  - intros p. rewrite list_elem_of_In, filter_In, <- list_elem_of_In.
    by rewrite andb_true_iff, !Qltb_lt.
Qed.

Lemma event_time_selected (self : EventListBase) (mask : list bool) times :
  event_time time_ref_from_dict self = Done times →
  event_time time_ref_from_dict
    (event_list_init (cls self) (mask_rows mask (table self)))
  = Done (compress mask times).
Proof.
  unfold event_time, get_column.
  pose proof (column_data_selected (cls self) mask (table self) "TIME") as Ht.
  destruct (find_column "TIME" (columns (table self))) as [met|]; [|done].
  destruct (find_column "TIME" _) as [met'|]; [|done].
  simpl in *. injection Ht as ->.
  change (meta (fix_energy_unit (mask_rows mask (table self))))
    with (meta (table self)).
  destruct (time_ref_from_dict (meta (table self))) as [r|e]; simpl; [|done].
  intros [= <-]. f_equal.
  generalize (col_data met). clear.
  induction mask as [|b mask IH]; intros [|x l]; simpl; try done.
  destruct b; simpl; by rewrite IH.
Qed.

(** X27. [select_time] keeps the header, and with it the reference time: the
    times of the selected events are those of the interval, start included
    and stop excluded, in their order. *)
Theorem select_time_keeps_interval (self : EventListBase) (n : nat) times
    (time_interval : Q * Q) :
  rectangular (table self) n →
  event_time time_ref_from_dict self = Done times →
  ∃ out, select_time time_ref_from_dict self time_interval = Done out ∧
    meta (table out) = meta (table self) ∧
    event_time time_ref_from_dict out
    = Done (List.filter (in_band time_interval) times) ∧
    ∀ t, t ∈ List.filter (in_band time_interval) times ↔
         t ∈ times ∧ (time_interval.1 <= t)%Q ∧ (t < time_interval.2)%Q.
Proof.
  intros Hrect Htimes.
  assert (length times = n) as Hn.
  { revert Htimes. unfold event_time, get_column.
    destruct (find_column "TIME" (columns (table self))) as [met|] eqn:Hmet;
      [|done].
    simpl. destruct (time_ref_from_dict _); simpl; [|done].
    intros [= <-]. rewrite length_map.
    by apply find_column_elem_of, Hrect in Hmet. }
  exists (event_list_init (cls self)
            (mask_rows (map (in_band time_interval) times) (table self))).
  split_and!.
  - unfold select_time. rewrite Htimes. simpl.
    apply select_row_subset_mask. by rewrite length_map, Hn.
  - done.
  - rewrite (event_time_selected self _ times) by done.
    by rewrite compress_map_filter.
  - intros t. rewrite list_elem_of_In, filter_In, <- list_elem_of_In.
    by rewrite in_band_spec.
Qed.

End SkySelections.

(** ** The event-list properties on the sample events *)

Lemma sample_events_rectangular : rectangular (table sample_events) 4.
Proof.
  intros name c Hin. apply list_elem_of_In in Hin. simpl in Hin.
  destruct Hin as [Hin|[Hin|[Hin|[Hin|[Hin|[]]]]]]; by inversion Hin.
Qed.

Lemma init_sets_missing_energy_unit_witness :
  colnames (table (event_list_init EventList sample_table))
  = colnames sample_table.
Proof.
  exact (proj1 (init_sets_missing_energy_unit EventList sample_table)).
Defined.

Lemma select_energy_keeps_band_witness :
  ∃ out, select_energy sample_events (1, 10)%Q = Done out ∧
    energy out = Done [2; 5]%Q.
Proof.
  destruct (select_energy_keeps_band sample_events (1, 10)%Q 4
              (sample_column [1 # 2; 2; 5; 20]%Q (Some "TeV")))
    as (out & Hsel & _ & _ & _ & He & _).
  - apply sample_events_rectangular.
  - reflexivity.
  - exists out. split; [exact Hsel|exact He].
Defined.

Lemma select_energy_twice_is_intersection_witness :
  ∃ s1, select_energy sample_events (1, 30)%Q = Done s1 ∧
    select_energy s1 (0, 10)%Q
    = select_energy sample_events (Qmax 1 0, Qmin 30 10).
Proof.
  destruct (select_energy sample_events (1, 30)%Q) as [s1|e] eqn:E;
    [|vm_compute in E; discriminate E].
  exists s1. split; [reflexivity|].
  apply (select_energy_twice_is_intersection sample_events s1 (1, 30)%Q
           (0, 10)%Q 4 (sample_column [1 # 2; 2; 5; 20]%Q (Some "TeV"))).
  - apply sample_events_rectangular.
  - reflexivity.
  - exact E.
Defined.

Lemma adjacent_bands_partition_witness :
  ∃ s_ab s_bc s_ac,
    select_energy sample_events (1, 3)%Q = Done s_ab ∧
    select_energy sample_events (3, 30)%Q = Done s_bc ∧
    select_energy sample_events (1, 30)%Q = Done s_ac.
Proof.
  destruct (adjacent_bands_partition sample_events 1 3 30 4
              (sample_column [1 # 2; 2; 5; 20]%Q (Some "TeV")))
    as (s_ab & s_bc & s_ac & _ & _ & _ & H1 & H2 & H3 & _).
  - apply sample_events_rectangular.
  - reflexivity.
  - unfold Qle. simpl. lia.
  - unfold Qle. simpl. lia.
  - by exists s_ab, s_bc, s_ac.
Defined.

Lemma row_indices_of_mask_witness :
  select_row_subset sample_events
    (RowIndices (np.where_ (λ b : bool, b) [true; false; true; false]))
  = select_row_subset sample_events (RowMask [true; false; true; false]).
Proof.
  apply (row_indices_of_mask sample_events [true; false; true; false]).
  apply sample_events_rectangular.
Defined.


Lemma select_circular_region_keeps_each_event_once_witness :
  select_circular_region sample_separation sample_events
    (RegionList sample_regions)
  = position ← radec sample_events;
    select_row_subset sample_events
      (RowMask (map (in_some_region sample_separation sample_regions) position)).
Proof.
  apply (select_circular_region_keeps_each_event_once sample_separation
           sample_events 4 sample_regions).
  apply sample_events_rectangular.
Defined.

Lemma one_circular_region_is_a_sky_cone_witness :
  select_circular_region sample_separation sample_events
    (OneRegion {| center := (83, 22)%Q; radius := 2 |})
  = select_sky_cone sample_separation sample_events (83, 22)%Q 2.
Proof.
  apply (one_circular_region_is_a_sky_cone sample_separation sample_events 4
           {| center := (83, 22)%Q; radius := 2 |}).
  apply sample_events_rectangular.
Defined.

Lemma ring_and_cones_witness :
  ∃ cone_in cone_out ring,
    select_sky_cone sample_separation sample_events (83, 22)%Q 1 = Done cone_in ∧
    select_sky_cone sample_separation sample_events (83, 22)%Q 2 = Done cone_out ∧
    select_sky_ring sample_separation sample_events (83, 22)%Q 1 2 = Done ring.
Proof.
  destruct (ring_and_cones sample_separation sample_events 4
              [(83, 22); (84, 22); (83, 23); (85, 21)]%Q (83, 22)%Q 1 2)
    as (cone_in & cone_out & ring & _ & _ & _ & H1 & H2 & H3 & _).
  - apply sample_events_rectangular.
  - reflexivity.
  - unfold Qle. simpl. lia.
  - by exists cone_in, cone_out, ring.
Defined.

Lemma select_time_keeps_interval_witness :
  ∃ out, select_time sample_time_ref sample_events (1020, 1040)%Q = Done out ∧
    meta (table out) = meta (table sample_events).
Proof.
  destruct (event_time sample_time_ref sample_events) as [times|e] eqn:E;
    [|vm_compute in E; discriminate E].
  destruct (select_time_keeps_interval sample_time_ref sample_events 4 times
              (1020, 1040)%Q) as (out & Hsel & Hmeta & _).
  - apply sample_events_rectangular.
  - exact E.
  - by exists out.
Defined.

(** ** What every selection keeps, and the checker *)

Lemma mapM_Done_names (rows : row_specifier) (cols cols' : list (string * Column)) :
  mapM (λ p : string * Column,
          c ← column_getitem p.2 rows; Done (p.1, c)) cols = Done cols' →
  map fst cols' = map fst cols.
Proof.
  revert cols'. induction cols as [|[name c] cols IH]; intros cols'; simpl.
  - by intros [= <-].
  - destruct (column_getitem c rows) as [c'|e]; simpl; [|done].
    destruct (mapM _ cols) as [rest|e]; simpl; [|done].
    intros [= <-]. simpl. f_equal. by apply IH.
Qed.

Lemma select_row_subset_keeps (self out : EventListBase) (rows : row_specifier) :
  select_row_subset self rows = Done out →
  cls out = cls self ∧
  colnames (table out) = colnames (table self) ∧
  meta (table out) = meta (table self).
Proof.
  unfold select_row_subset, table_getitem.
  destruct (mapM _ (columns (table self))) as [cols|e] eqn:E; simpl; [|done].
  intros [= <-]. split_and!; [done| |done].
  change (table (event_list_init (cls self)
                   {| columns := cols; meta := meta (table self) |}))
    with (fix_energy_unit {| columns := cols; meta := meta (table self) |}).
  rewrite colnames_fix_energy_unit. unfold colnames. simpl.
  by apply (mapM_Done_names rows).
Qed.

(** X28. Whatever rows are selected, by a mask or by indices, the selected list
    has the class, the column names and the header of the list it is taken
    from; so the checker misses the same header keys and the same columns
    in both. *)
Theorem selection_keeps_names_and_header (self out : EventListBase)
    (rows : row_specifier) :
  select_row_subset self rows = Done out →
  cls out = cls self ∧
  colnames (table out) = colnames (table self) ∧
  meta (table out) = meta (table self) ∧
  map rec_msg (check_meta {| event_list := out |})
  = map rec_msg (check_meta {| event_list := self |}) ∧
  map rec_msg (check_columns {| event_list := out |})
  = map rec_msg (check_columns {| event_list := self |}).
Proof.
  intros (Hcls & Hnames & Hmeta)%select_row_subset_keeps.
  split_and!; [done..| |].
  - unfold check_meta. simpl. rewrite Hmeta. by destruct (decide _).
  - unfold check_columns. simpl. rewrite Hnames. by destruct (decide _).
Qed.

(** X29. The checker reports an error about the header exactly when one of
    [OBS_ID] and [TELESCOP] is missing, and one about the columns exactly
    when one of [EVENT_ID], [RA], [DEC] and [ENERGY] is; each is one record
    that names what is missing.  The record holds the method [obs_id], not
    its value: the report is made without [OBS_ID] too, and asking the record
    for the identifier is what raises [KeyError] then. *)
Theorem checker_reports_what_is_missing (self : EventListChecker) :
  (check_meta self = [] ↔
   ∀ key, key ∈ meta_required →
          is_Some (meta (table (event_list self)) !! key)) ∧
  (check_columns self = [] ↔
   ∀ name, name ∈ columns_required →
           name ∈ colnames (table (event_list self))) ∧
  (∀ r, r ∈ check_meta self →
     check_meta self = [r] ∧ rec_level r = "error" ∧ rec_obs_id r = self ∧
     ∀ key, key ∈ (rec_msg r).2 ↔
            key ∈ meta_required ∧ meta (table (event_list self)) !! key = None) ∧
  (∀ r, r ∈ check_columns self →
     check_columns self = [r] ∧ rec_level r = "error" ∧ rec_obs_id r = self ∧
     ∀ name, name ∈ (rec_msg r).2 ↔
             name ∈ columns_required ∧
             name ∉ colnames (table (event_list self))) ∧
  (meta (table (event_list self)) !! "OBS_ID" = None →
   ∃ r, check_meta self = [r] ∧
        obs_id (rec_obs_id r) = Fail (KeyError "OBS_ID")).
Proof.
  assert (∀ key, key ∈ (list_to_set meta_required
                         ∖ dom (meta (table (event_list self))) : gset string) ↔
                 key ∈ meta_required ∧
                 meta (table (event_list self)) !! key = None) as Hm.
  { intros key. rewrite elem_of_difference, elem_of_list_to_set.
    by rewrite not_elem_of_dom. }
  assert (∀ name, name ∈ (list_to_set columns_required
                   ∖ list_to_set (colnames (table (event_list self)))
                   : gset string) ↔
                 name ∈ columns_required ∧
                 name ∉ colnames (table (event_list self))) as Hc.
  { intros name. by rewrite elem_of_difference, !elem_of_list_to_set. }
  split_and!.
  - unfold check_meta. destruct (decide _) as [Hempty|Hne].
    + split; [|done]. intros _ key Hkey.
      destruct (meta (table (event_list self)) !! key) eqn:E; [done|].
      exfalso. eapply (not_elem_of_empty (C:=gset string) key).
      rewrite <- Hempty. by apply Hm.
    + split; [done|]. intros Hall. exfalso. apply Hne.
      apply set_eq. intros key. rewrite Hm. split.
      * intros [Hkey Hnone]. destruct (Hall key Hkey) as [v Hv]. congruence.
      * by intros ?%not_elem_of_empty.
  - unfold check_columns. destruct (decide _) as [Hempty|Hne].
    + split; [|done]. intros _ name Hname.
      destruct (decide (name ∈ colnames (table (event_list self))));
        [done|].
      exfalso. eapply (not_elem_of_empty (C:=gset string) name).
      rewrite <- Hempty. by apply Hc.
    + split; [done|]. intros Hall. exfalso. apply Hne.
      apply set_eq. intros name. rewrite Hc. split.
      * intros [Hname Hnot]. exfalso. by apply Hnot, Hall.
      * by intros ?%not_elem_of_empty.
  - intros r. unfold check_meta. destruct (decide _); [by intros ?%elem_of_nil|].
    intros ->%list_elem_of_singleton. split_and!; try done.
  - intros r. unfold check_columns.
    destruct (decide _); [by intros ?%elem_of_nil|].
    intros ->%list_elem_of_singleton. split_and!; try done.
  - intros Hnone. unfold check_meta. destruct (decide _) as [Hempty|Hne].
    + exfalso. eapply (not_elem_of_empty (C:=gset string) "OBS_ID").
      rewrite <- Hempty. apply Hm. split; [|done]. by left.
    + eexists. split; [done|]. simpl. unfold obs_id, get_meta. by rewrite Hnone.
Qed.

(** ** Offsets *)

Section OffsetSelections.

Variable separation : Q * Q → Q * Q → Q.
Variable sky_coord : meta_value → meta_value → attempt (Q * Q).


End OffsetSelections.

Lemma sample_pointed_events_rectangular :
  rectangular (table sample_pointed_events) 4.
Proof.
  intros name c Hin. apply list_elem_of_In in Hin. simpl in Hin.
  destruct Hin as [Hin|[Hin|[Hin|[Hin|[Hin|[]]]]]]; by inversion Hin.
Qed.

Lemma sample_separation_nonnegative (a b : Q * Q) :
  (0 <= sample_separation a b)%Q.
Proof.
  assert (∀ x y, (0 <= sample_distance x y)%Q) as H.
  { intros x y. unfold sample_distance.
    destruct (Qle_bool x y) eqn:E.
    - apply Qle_bool_iff in E. Lqa.lra.
    - assert (¬ (x <= y)%Q) as Hn by (rewrite <- Qle_bool_iff; congruence).
      apply Qnot_le_lt in Hn. Lqa.lra. }
  unfold sample_separation. pose proof (H a.1 b.1). pose proof (H a.2 b.2).
  Lqa.lra.
Qed.

Lemma selection_keeps_names_and_header_witness :
  ∃ out, select_row_subset sample_events (RowIndices [-1; 0]) = Done out ∧
    colnames (table out) = colnames (table sample_events).
Proof.
  destruct (select_row_subset sample_events (RowIndices [-1; 0]))
    as [out|e] eqn:E; [|vm_compute in E; discriminate E].
  exists out. split; [reflexivity|].
  apply (selection_keeps_names_and_header sample_events out
           (RowIndices [-1; 0]) E).
Defined.

Lemma checker_reports_what_is_missing_witness :
  ∃ r, check_meta {| event_list := sample_positions |} = [r] ∧
    obs_id (rec_obs_id r) = Fail (KeyError "OBS_ID").
Proof.
  apply (checker_reports_what_is_missing {| event_list := sample_positions |}).
  reflexivity.
Defined.

